(** * GridSearch: grid model, frontier containers and the four searches

    A shallow embedding of the Python sources under [Code_Python/]:
    [Stack.py], [Queue.py], [PriorityQueue.py], [BinaryHeap.py] and
    [GridSearch.py], and the properties proved of them.

    - Part I is the program.  Python exceptions are values of [outcome];
      objects that the code mutates are passed and returned explicitly.  The
      [while] loops of the searches take a fuel argument that counts their
      iterations; the loops inside the containers are given the value of
      their own variant as fuel.
    - Part II is the vocabulary of the properties: predicates on grids,
      invariants of the containers and of the search loop, example grids.
    - Part III holds the proofs: the grid and its validity test, the loop of
      the searches, the containers, and then further properties of the
      containers, of the placement methods and [show], and of the searches
      (paths, reachable cells, shortest paths). *)

From Stdlib Require Import ZArith Lia ZifyNat Ascii String QArith.QArith_base.
From stdpp Require Import base list strings sorting.

Set Default Proof Using "Type*".

(** * Part I: the program *)

(** ** Python values and exceptions *)

Inductive pyexc : Type :=
| IndexError
| KeyError
| TypeError
| ValueError
| SystemExit (msg : string).

(** The result of running a piece of Python: a value, a raised exception, or
    [Diverge] when the fuel given to a [while] loop ran out while the loop
    condition still held. *)
Inductive outcome (A : Type) : Type :=
| Ret (a : A)
| Raise (e : pyexc)
| Diverge.

Arguments Ret {A} a.
Arguments Raise {A} e.
Arguments Diverge {A}.

Definition bind {A B} (m : outcome A) (k : A -> outcome B) : outcome B :=
  match m with
  | Ret a => k a
  | Raise e => Raise e
  | Diverge => Diverge
  end.

Notation "'let*' x ':=' m 'in' k" := (bind m (fun x => k))
  (at level 10, x pattern, m at level 100, k at level 200).

(** [l[i]] for a Python list: a negative index counts from the end, anything
    outside [-len, len) raises [IndexError]. *)
Definition py_norm (len : nat) (i : Z) : option nat :=
  if (0 <=? i)%Z then
    if (i <? Z.of_nat len)%Z then Some (Z.to_nat i) else None
  else
    if (- Z.of_nat len <=? i)%Z then Some (Z.to_nat (Z.of_nat len + i)) else None.

Definition py_get {A} (l : list A) (i : Z) : outcome A :=
  match py_norm (length l) i with
  | Some n => match l !! n with Some x => Ret x | None => Raise IndexError end
  | None => Raise IndexError
  end.

(** [l[i] = x] *)
Definition py_set {A} (l : list A) (i : Z) (x : A) : outcome (list A) :=
  match py_norm (length l) i with
  | Some n => Ret (<[n:=x]> l)
  | None => Raise IndexError
  end.

(** [max(l)] and [min(l)] on a list of integers; [ValueError] when empty. *)
Definition py_max (l : list Z) : outcome Z :=
  match l with
  | [] => Raise ValueError
  | x :: r => Ret (foldl Z.max x r)
  end.

Definition py_min (l : list Z) : outcome Z :=
  match l with
  | [] => Raise ValueError
  | x :: r => Ret (foldl Z.min x r)
  end.

(** [x in l] on a list of integers *)
Definition py_in (x : Z) (l : list Z) : bool := existsb (Z.eqb x) l.


(** ** Stack.py *)

(** The container methods return the value together with the container as the
    call leaves it; when a method raises, its container is lost with it. *)

Module Stack.
Section Stack.
Context {A : Type}.

Record t : Type := mk { items : list A; size : nat }.

Definition init (init_list : option (list A)) : t :=
  match init_list with
  | None => mk [] 0
  | Some l => mk l (length l)
  end.

Definition is_empty (s : t) : bool := size s =? 0.

Definition push (s : t) (item : A) : t :=
  mk (items s ++ [item]) (size s + 1).

(** [self.items.pop()] *)
Definition list_pop (l : list A) : outcome (A * list A) :=
  match last l with
  | Some x => Ret (x, removelast l)
  | None => Raise IndexError
  end.

Definition pop (s : t) : outcome (option A * t) :=
  if size s =? 0 then Ret (None, s)
  else
    let* xl := list_pop (items s) in
    let '(x, l) := xl in
    Ret (Some x, mk l (size s - 1)).

Definition peek (s : t) : outcome (option A) :=
  if size s =? 0 then Ret None
  else let* x := py_get (items s) (-1) in Ret (Some x).

Definition reverse (s : t) : t := mk (rev (items s)) (size s).

Definition clear (s : t) : t := mk [] 0.

End Stack.
Arguments t : clear implicits.
End Stack.

(** ** Queue.py *)

Module Queue.
Section Queue.
Context {A : Type}.

Record t : Type := mk { items : list A; size : nat }.

Definition init (init_list : option (list A)) : t :=
  match init_list with
  | None => mk [] 0
  | Some l => mk l (length l)
  end.

Definition is_empty (q : t) : bool := size q =? 0.

Definition enqueue (q : t) (item : A) : t :=
  mk (items q ++ [item]) (size q + 1).

(** [self.items.pop(0)] *)
Definition list_pop0 (l : list A) : outcome (A * list A) :=
  match l with
  | x :: r => Ret (x, r)
  | [] => Raise IndexError
  end.

Definition dequeue (q : t) : outcome (option A * t) :=
  if size q =? 0 then Ret (None, q)
  else
    let* xl := list_pop0 (items q) in
    let '(x, l) := xl in
    Ret (Some x, mk l (size q - 1)).

Definition peek (q : t) : outcome (option A) :=
  if size q =? 0 then Ret None
  else let* x := py_get (items q) 0 in Ret (Some x).

Definition reverse (q : t) : t := mk (rev (items q)) (size q).

Definition clear (q : t) : t := mk [] 0.

End Queue.
Arguments t : clear implicits.
End Queue.

(** ** PriorityQueue.py *)

Module PriorityQueue.

(** Priorities are numbers; the two dummy entries carry [-inf] and [inf]. *)
Inductive prio : Type :=
| NegInf
| Num (z : Z)
| PosInf.

(** [a <= b] on priorities *)
Definition prio_le (a b : prio) : bool :=
  match a, b with
  | NegInf, _ => true
  | _, PosInf => true
  | Num x, Num y => (x <=? y)%Z
  | _, _ => false
  end.

(** The second component of an entry: the string ['dummy'] of the two
    sentinels, or an item that was put. *)
Inductive slot (A : Type) : Type :=
| Dummy
| Item (a : A).
Arguments Dummy {A}.
Arguments Item {A} a.

Section PriorityQueue.
Context {A : Type}.

Record t : Type := mk {
  queue_type : string;
  items : list (prio * slot A);
  size : nat;
}.

Definition sentinels (queue_type : string) : list (prio * slot A) :=
  if String.eqb queue_type "max" then [(PosInf, Dummy); (NegInf, Dummy)]
  else [(NegInf, Dummy); (PosInf, Dummy)].

Definition is_empty (q : t) : bool := size q =? 0.

(** The binary search of [put]: the loop [while (right > (left + 1))]. *)
Fixpoint search (fuel : nat) (queue_type : string) (its : list (prio * slot A))
    (priority : prio) (left right : nat) : outcome (nat * nat) :=
  if left + 1 <? right then
    match fuel with
    | 0 => Diverge
    | S fuel' =>
        let middle := (left + right) / 2 in
        match its !! middle with
        | None => Raise IndexError
        | Some (p, _) =>
            let flag :=
              if String.eqb queue_type "max" then prio_le priority p
              else prio_le p priority in
            if flag then search fuel' queue_type its priority middle right
            else search fuel' queue_type its priority left middle
        end
    end
  else Ret (left, right).

(** [l.insert(i, x)]: an index past the end appends. *)
Definition list_insert_at {B} (i : nat) (x : B) (l : list B) : list B :=
  take i l ++ x :: drop i l.

(** [put]; the search is given as many iterations as the gap between [left]
    and [right] is wide. *)
Definition put (q : t) (priority : prio) (item : A) : outcome t :=
  let left := 0 in
  let right := size q + 1 in
  let* xl := search (right - left) (queue_type q) (items q) priority left right in
    let '(_, right') := xl in
  Ret (mk (queue_type q)
          (list_insert_at right' (priority, Item item) (items q))
          (size q + 1)).

(** [for priority, item in init_list: self.put(priority, item)] *)
Fixpoint put_all (q : t) (l : list (prio * A)) : outcome t :=
  match l with
  | [] => Ret q
  | (priority, item) :: r => let* q' := put q priority item in put_all q' r
  end.

Definition init (init_list : option (list (prio * A))) (queue_type : string) : outcome t :=
  let q := mk queue_type (sentinels queue_type) 0 in
  match init_list with
  | None => Ret q
  | Some l => put_all q l
  end.

(** [self.items.pop(1)] *)
Definition list_pop1 {B} (l : list B) : outcome (B * list B) :=
  match l with
  | a :: b :: r => Ret (b, a :: r)
  | _ => Raise IndexError
  end.

Definition get (q : t) : outcome (option (prio * slot A) * t) :=
  if size q =? 0 then Ret (None, q)
  else
    let* xl := list_pop1 (items q) in
    let '(x, l) := xl in
    Ret (Some x, mk (queue_type q) l (size q - 1)).

Definition peek (q : t) : outcome (option (prio * slot A)) :=
  if size q =? 0 then Ret None
  else let* x := py_get (items q) 1 in Ret (Some x).

Definition reverse (q : t) : t :=
  mk (if String.eqb (queue_type q) "max" then "min" else "max")
     (rev (items q)) (size q).

Definition clear (q : t) : t :=
  mk (queue_type q) (sentinels (queue_type q)) 0.

End PriorityQueue.
Arguments t : clear implicits.
End PriorityQueue.

(** ** BinaryHeap.py *)

(** The comparison [<] of the items of a heap; [a > b] is [b < a]. *)
Class PyOrd (A : Type) : Type := py_lt : A -> A -> bool.

(** [<] is a strict total order: what Python has on integers and on tuples of
    integers. *)
Class PyOrdLaws (A : Type) `{PyOrd A} : Prop := {
  py_lt_irrefl : forall a : A, py_lt a a = false;
  py_lt_trans : forall a b c : A, py_lt a b = true -> py_lt b c = true -> py_lt a c = true;
  py_lt_total : forall a b : A, py_lt a b = false -> py_lt b a = false -> a = b;
}.

Global Instance Z_PyOrd : PyOrd Z := Z.ltb.

(** Tuples compare by their first components that differ. *)
Global Instance pair_PyOrd {A B} `{EqDecision A} `{PyOrd A} `{PyOrd B} : PyOrd (A * B) :=
  fun x y => if decide (fst x = fst y) then py_lt (snd x) (snd y) else py_lt (fst x) (fst y).

Module BinaryHeap.
Section BinaryHeap.
Context {A : Type} `{PyOrd A}.

(** [items] keeps an unused entry at index 0; the root is at index 1. *)
Record t : Type := mk {
  heap_type : string;
  items : list A;
  size : nat;
}.

(** [l[i]] for an index that is not negative *)
Definition at_index (l : list A) (i : nat) : outcome A :=
  match l !! i with
  | Some x => Ret x
  | None => Raise IndexError
  end.

Definition find_min_max (its : list A) (idx : nat) (heap_type : string) : outcome nat :=
  let size := length its - 1 in
  let left := 2 * idx in
  let right := 2 * idx + 1 in
  if size <? right then Ret left
  else
    let* l := at_index its left in
    let* r := at_index its right in
    let flag :=
      if String.eqb heap_type "max" then py_lt r l
      else py_lt l r in
    Ret (if flag then left else right).

(** [items[i], items[j] = items[j], items[i]] *)
Definition exchange (its : list A) (i j : nat) : outcome (list A) :=
  let* xj := at_index its j in
  let* xi := at_index its i in
  Ret (<[j:=xi]> (<[i:=xj]> its)).

(** The loop of [swap_up]: [while ((ic // 2) > 0)]. *)
Fixpoint swap_up_loop (fuel : nat) (heap_type : string) (its : list A) (ic : nat)
  : outcome (list A) :=
  if 0 <? ic / 2 then
    match fuel with
    | 0 => Diverge
    | S fuel' =>
        let ip := ic / 2 in
        let* c := at_index its ic in
        let* p := at_index its ip in
        let swap :=
          if String.eqb heap_type "max" then py_lt p c
          else py_lt c p in
        let* its' := if swap then exchange its ip ic else Ret its in
        swap_up_loop fuel' heap_type its' ip
    end
  else Ret its.

(** The loop of [swap_down]: [while ((2 * ip) <= self.size)]. *)
Fixpoint swap_down_loop (fuel : nat) (heap_type : string) (its : list A)
    (size ip : nat) : outcome (list A) :=
  if 2 * ip <=? size then
    match fuel with
    | 0 => Diverge
    | S fuel' =>
        let* ic := find_min_max its ip heap_type in
        let* p := at_index its ip in
        let* c := at_index its ic in
        let swap :=
          if String.eqb heap_type "max" then py_lt p c
          else py_lt c p in
        let* its' := if swap then exchange its ip ic else Ret its in
        swap_down_loop fuel' heap_type its' size ic
    end
  else Ret its.

(** [swap_up] and [swap_down] on the object; the index bounds the number of
    iterations of the first, the size that of the second. *)
Definition swap_up (h : t) (ic : nat) : outcome t :=
  let* its := swap_up_loop ic (heap_type h) (items h) ic in
  Ret (mk (heap_type h) its (size h)).

Definition swap_down (h : t) (ip : nat) : outcome t :=
  let* its := swap_down_loop (size h) (heap_type h) (items h) (size h) ip in
  Ret (mk (heap_type h) its (size h)).

(** [idx = self.size // 2; while (idx > 0): self.swap_down(idx); idx -= 1] *)
Fixpoint heapify (idx : nat) (h : t) : outcome t :=
  match idx with
  | 0 => Ret h
  | S idx' => let* h' := swap_down h idx in heapify idx' h'
  end.

(** [__init__]; [zero] is the entry written at index 0. *)
Definition init (zero : A) (init_list : option (list A)) (heap_type : string) : outcome t :=
  match init_list with
  | None => Ret (mk heap_type [zero] 0)
  | Some l =>
      let h := mk heap_type (zero :: l) (length l) in
      heapify (size h / 2) h
  end.

Definition is_empty (h : t) : bool := size h =? 0.

Definition put (h : t) (item : A) : outcome t :=
  let h1 := mk (heap_type h) (items h ++ [item]) (size h + 1) in
  swap_up h1 (size h1).

Definition get (h : t) : outcome (option A * t) :=
  if size h =? 0 then Ret (None, h)
  else
    let* root_item := at_index (items h) 1 in
    let* lst := py_get (items h) (-1) in
    let its1 := <[1:=lst]> (items h) in
    let* xl := Stack.list_pop its1 in
    let '(_, its2) := xl in
    let h1 := mk (heap_type h) its2 (size h - 1) in
    let* h2 := swap_down h1 1 in
    Ret (Some root_item, h2).

Definition peek (h : t) : outcome (option A) :=
  if size h =? 0 then Ret None
  else let* x := at_index (items h) 1 in Ret (Some x).

Definition reverse (h : t) : outcome t :=
  let h1 := mk (if String.eqb (heap_type h) "max" then "min" else "max")
               (items h) (size h) in
  heapify (size h1 / 2) h1.

Definition clear (zero : A) (h : t) : t := mk (heap_type h) [zero] 0.

End BinaryHeap.
Arguments t : clear implicits.
End BinaryHeap.

(** ** GridSearch.py: the grid object *)

Module GridSearch.

Definition cell : Type := Z * Z.

(** The attributes of a [GridSearch] object.  [layout] holds the characters of
    the grid file, [bound] the column indices of the ["*"] characters of each
    row.  [added] and [visited] exist once a search has assigned them. *)
Record t : Type := mk {
  layout : list (list ascii);
  bound : list (list Z);
  start : option cell;
  goal : option cell;
  offset : option (list (Z * Z));
  prob : option (list Q);
  added : option nat;
  visited : option nat;
}.

Definition with_layout (g : t) (l : list (list ascii)) : t :=
  mk l (bound g) (start g) (goal g) (offset g) (prob g) (added g) (visited g).
Definition with_start (g : t) (s : option cell) : t :=
  mk (layout g) (bound g) s (goal g) (offset g) (prob g) (added g) (visited g).
Definition with_goal (g : t) (s : option cell) : t :=
  mk (layout g) (bound g) (start g) s (offset g) (prob g) (added g) (visited g).
Definition with_added (g : t) (n : nat) : t :=
  mk (layout g) (bound g) (start g) (goal g) (offset g) (prob g) (Some n) (visited g).
Definition with_visited (g : t) (n : nat) : t :=
  mk (layout g) (bound g) (start g) (goal g) (offset g) (prob g) (added g) (Some n).

(** The messages of the [SystemExit]s; each starts with a line feed. *)
Definition nl (s : string) : string := String "010"%char s.
Definition bounds_msg : string := nl "The grid bounds are not consistent.".
Definition start_msg : string := nl "The start position is not valid.".
Definition goal_msg : string := nl "The goal position is not valid.".
Definition obstacle_msg : string := nl "The obstacle position is not valid.".
Definition obstacle_msg' : string := nl "the obstacle position is not valid.".

(** [[i for i, x in enumerate(row) if x == "*"]], counting from [i]. *)
Fixpoint stars_from (i : Z) (row : list ascii) : list Z :=
  match row with
  | [] => []
  | x :: r =>
      if Ascii.eqb x "*" then i :: stars_from (i + 1)%Z r
      else stars_from (i + 1)%Z r
  end.

Definition stars (row : list ascii) : list Z := stars_from 0 row.

(** The loop of [__init__] that fills [self.bound]: it stops with
    [SystemExit] at the first row that has at most one ["*"]. *)
Fixpoint build_bound (rows : list (list ascii)) : outcome (list (list Z)) :=
  match rows with
  | [] => Ret []
  | row :: rest =>
      let b := stars row in
      if length b <=? 1 then Raise (SystemExit bounds_msg)
      else let* bs := build_bound rest in Ret (b :: bs)
  end.

(** [__init__], from the lines of the grid file already split in characters. *)
Definition init (rows : list (list ascii)) : outcome t :=
  let* b := build_bound rows in
  Ret (mk rows b None None None None None None).

(** [for i, k in enumerate(self.bound): if (col in k): column.append(i)] *)
Fixpoint column_from (i : Z) (bnd : list (list Z)) (col : Z) : list Z :=
  match bnd with
  | [] => []
  | k :: rest =>
      if py_in col k then i :: column_from (i + 1)%Z rest col
      else column_from (i + 1)%Z rest col
  end.

Definition is_valid (g : t) (row col : Z) : outcome bool :=
  let max_rows := Z.of_nat (length (bound g)) in
  if (row >=? max_rows)%Z || (row <=? 0)%Z then Ret false else
  let* b := py_get (bound g) row in
  let* mx := py_max b in
  if (col >? mx)%Z then Ret false else
  let* mn := py_min b in
  if (col <? mn)%Z then Ret false else
  let column := column_from 0 (bound g) col in
  if length column <=? 1 then Raise (SystemExit bounds_msg) else
  let* rmx := py_max column in
  if (row >? rmx)%Z then Ret false else
  let* rmn := py_min column in
  if (row <? rmn)%Z then Ret false else
  let* r := py_get (layout g) row in
  let* ch := py_get r col in
  if Ascii.eqb ch "*" then Ret false else Ret true.

(** [self.layout[row][col] = ch] *)
Definition layout_set (l : list (list ascii)) (row col : Z) (ch : ascii)
  : outcome (list (list ascii)) :=
  let* r := py_get l row in
  let* r' := py_set r col ch in
  py_set l row r'.

(** [self.layout[row][col]] *)
Definition layout_get (l : list (list ascii)) (c : cell) : outcome ascii :=
  let* r := py_get l (fst c) in
  py_get r (snd c).

(** The placement methods return the raised exception, if any, together with
    the object as the call leaves it. *)
Definition set_start (g : t) (row col : Z) : outcome unit * t :=
  match is_valid g row col with
  | Ret true =>
      let cleared :=
        match start g with
        | Some (r0, c0) => layout_set (layout g) r0 c0 " "
        | None => Ret (layout g)
        end in
      match cleared with
      | Ret l1 =>
          let g1 := with_start (with_layout g l1) (Some (row, col)) in
          match layout_set l1 row col "S" with
          | Ret l2 => (Ret tt, with_layout g1 l2)
          | Raise e => (Raise e, g1)
          | Diverge => (Diverge, g1)
          end
      | Raise e => (Raise e, g)
      | Diverge => (Diverge, g)
      end
  | Ret false => (Raise (SystemExit start_msg), g)
  | Raise e => (Raise e, g)
  | Diverge => (Diverge, g)
  end.

Definition set_goal (g : t) (row col : Z) : outcome unit * t :=
  match is_valid g row col with
  | Ret true =>
      let cleared :=
        match goal g with
        | Some (r0, c0) => layout_set (layout g) r0 c0 " "
        | None => Ret (layout g)
        end in
      match cleared with
      | Ret l1 =>
          let g1 := with_goal (with_layout g l1) (Some (row, col)) in
          match layout_set l1 row col "G" with
          | Ret l2 => (Ret tt, with_layout g1 l2)
          | Raise e => (Raise e, g1)
          | Diverge => (Diverge, g1)
          end
      | Raise e => (Raise e, g)
      | Diverge => (Diverge, g)
      end
  | Ret false => (Raise (SystemExit goal_msg), g)
  | Raise e => (Raise e, g)
  | Diverge => (Diverge, g)
  end.

Definition add_obstacle (g : t) (row col : Z) : outcome unit * t :=
  match is_valid g row col with
  | Ret true =>
      match layout_set (layout g) row col "#" with
      | Ret l1 => (Ret tt, with_layout g l1)
      | Raise e => (Raise e, g)
      | Diverge => (Diverge, g)
      end
  | Ret false => (Raise (SystemExit obstacle_msg), g)
  | Raise e => (Raise e, g)
  | Diverge => (Diverge, g)
  end.

Definition del_obstacle (g : t) (row col : Z) : outcome unit * t :=
  match is_valid g row col with
  | Ret true =>
      match layout_set (layout g) row col " " with
      | Ret l1 => (Ret tt, with_layout g l1)
      | Raise e => (Raise e, g)
      | Diverge => (Diverge, g)
      end
  | Ret false => (Raise (SystemExit obstacle_msg'), g)
  | Raise e => (Raise e, g)
  | Diverge => (Diverge, g)
  end.

(** [set_motion] *)
Definition set_motion (g : t) (offs : list (Z * Z)) (p : option (list Q)) : t :=
  mk (layout g) (bound g) (start g) (goal g) (Some offs) p (added g) (visited g).

(** [show].  The method returns nothing; the second component is the text
    that its [print] calls wrote, the third the object as the call leaves
    it. *)

(** [path[1:-1]] *)
Definition inner {A} (path : list A) : list A := removelast (tail path).

(** [chr(183)] *)
Definition dot : ascii := ascii_of_nat 183.

(** [for row, col in cells: self.layout[row][col] = ch] *)
Fixpoint mark (l : list (list ascii)) (cells : list cell) (ch : ascii)
  : outcome unit * list (list ascii) :=
  match cells with
  | [] => (Ret tt, l)
  | (row, col) :: rest =>
      match layout_set l row col ch with
      | Ret l' => mark l' rest ch
      | Raise e => (Raise e, l)
      | Diverge => (Diverge, l)
      end
  end.

(** [for char in row: print(char, end=' ')] and then [print()] *)
Fixpoint render_row (row : list ascii) : string :=
  match row with
  | [] => String "010"%char EmptyString
  | ch :: r => String ch (String " "%char (render_row r))
  end.

(** [for row in self.layout: ...] *)
Fixpoint render (l : list (list ascii)) : string :=
  match l with
  | [] => EmptyString
  | row :: rest => (render_row row ++ render rest)%string
  end.

Definition show (g : t) (path : option (list cell)) : outcome unit * string * t :=
  match path with
  | None => (Ret tt, render (layout g), g)
  | Some p =>
      match mark (layout g) (inner p) dot with
      | (Ret _, l1) =>
          let printed := render l1 in
          match mark l1 (inner p) " " with
          | (r, l2) => (r, printed, with_layout g l2)
          end
      | (r, l1) => (r, EmptyString, with_layout g l1)
      end
  end.

End GridSearch.

(** ** GridSearch.py: the four searches *)

Module Search.
Import GridSearch.

(** Dictionaries keyed by cells ([previous], [g_values]).  A new key is put in
    front; the code only looks keys up, so the order of the bindings plays no
    part. *)
Section Dict.
Context {V : Type}.

Definition dict : Type := list (cell * V).

Fixpoint dict_get (d : dict) (k : cell) : option V :=
  match d with
  | [] => None
  | (k', v) :: r => if decide (k' = k) then Some v else dict_get r k
  end.

(** [k in d] *)
Definition dict_mem (d : dict) (k : cell) : bool :=
  match dict_get d k with
  | Some _ => true
  | None => false
  end.

Fixpoint dict_replace (d : dict) (k : cell) (v : V) : dict :=
  match d with
  | [] => []
  | (k', v') :: r =>
      if decide (k' = k) then (k', v) :: r else (k', v') :: dict_replace r k v
  end.

(** [d[k] = v] *)
Definition dict_set (d : dict) (k : cell) (v : V) : dict :=
  if dict_mem d k then dict_replace d k v else (k, v) :: d.

End Dict.
Arguments dict : clear implicits.

(** What a search did, newest event first: the positions looked up in the
    layout, the cells pushed on the frontier, the cells popped from it.  The
    code keeps no such record; the searches of the embedding write it next to
    the steps it describes. *)
Record trace : Type := mktrace {
  reads : list cell;
  pushes : list cell;
  pops : list cell;
}.

(** [np.random.choice(idx, size=n, replace=False, p=p)] for [idx] the [n]
    indices.  The library raises [ValueError] unless [p] has as many entries
    as [idx], none of them negative, their sum is 1 within its tolerance (the
    square root of the machine epsilon, 2^-26), and [n] of them are above
    zero, one for every index to draw.  The probabilities are the rationals
    that the floating point numbers stand for, and their sum is taken as
    exact.  [draw] stands for the array that the call returns. *)
Definition sum_to_one (p : list Q) : bool :=
  let total := fold_right Qplus 0%Q p in
  Qle_bool (1 - (1 # 67108864)) total && Qle_bool total (1 + (1 # 67108864)).

Definition choice_accepts (n : nat) (p : list Q) : bool :=
  (length p =? n)
  && forallb (fun x => Qle_bool 0 x) p
  && sum_to_one p
  && (n <=? length (List.filter (fun x => negb (Qle_bool x 0)) p)).

Definition random_choice (n : nat) (p : list Q) (draw : list nat)
  : outcome (list nat) :=
  if choice_accepts n p then Ret draw else Raise ValueError.

(** [order_dir]. [draw] stands for the array that [np.random.choice] returns
    at this call, when it returns one. *)
Definition order_dir (g : t) (draw : list nat) : outcome (list nat) :=
  match offset g with
  | None => Raise TypeError
  | Some offs =>
      let n := length offs in
      let idx := seq 0 n in
      match prob g with
      | None => Ret idx
      | Some p => random_choice n p draw
      end
  end.

(** The loop of [get_path]: [while (current is not None)]. *)
Fixpoint get_path_loop (fuel : nat) (previous : dict (option cell))
    (current : option cell) (path : list cell) : outcome (list cell) :=
  match current with
  | None => Ret path
  | Some c =>
      match fuel with
      | 0 => Diverge
      | S fuel' =>
          match dict_get previous c with
          | None => Raise KeyError
          | Some p => get_path_loop fuel' previous p (path ++ [c])
          end
      end
  end.

Definition get_path (fuel : nat) (g : t) (previous : dict (option cell))
  : outcome (list cell) :=
  let* path := get_path_loop fuel previous (goal g) [] in
  Ret (rev path).

(** The four searches are one loop over a frontier: [f_is_empty] is the loop
    test, [f_take] the pop at the head of the body, [f_add] the push of a
    neighbour together with the bookkeeping of its cost. *)
Section Engine.
Context {F G : Type}.
Variable f_is_empty : F -> bool.
Variable f_take : F -> outcome (cell * F).
Variable f_add : G -> cell -> cell -> F -> outcome (F * G).

Record state : Type := mkst {
  frontier : F;
  costs : G;
  previous : dict (option cell);
  n_added : nat;
  n_visited : nat;
  log : trace;
}.

Definition note_read (st : state) (c : cell) : state :=
  mkst (frontier st) (costs st) (previous st) (n_added st) (n_visited st)
       (mktrace (c :: reads (log st)) (pushes (log st)) (pops (log st))).

(** The body of [for direction in idx] for one direction.  The test reads
    [self.layout[row_neigh][col_neigh]] once or twice, at the same position:
    the lookup is made, and noted, once. *)
Definition visit (g : t) (current : cell) (st : state) (direction : nat)
  : outcome unit * state :=
  match offset g with
  | None => (Raise TypeError, st)
  | Some offs =>
      match offs !! direction with
      | None => (Raise IndexError, st)
      | Some (row_offset, col_offset) =>
          let row_neigh := (fst current + row_offset)%Z in
          let col_neigh := (snd current + col_offset)%Z in
          let neighbour := (row_neigh, col_neigh) in
          let st1 := note_read st neighbour in
          match layout_get (layout g) neighbour with
          | Ret ch =>
              if negb (Ascii.eqb ch "#") && negb (Ascii.eqb ch "*")
                 && negb (dict_mem (previous st) neighbour)
              then
                match f_add (costs st) current neighbour (frontier st) with
                | Ret (f', c') =>
                    (Ret tt,
                     mkst f' c'
                          (dict_set (previous st) neighbour (Some current))
                          (n_added st + 1) (n_visited st)
                          (mktrace (reads (log st1))
                                   (neighbour :: pushes (log st1))
                                   (pops (log st1))))
                | Raise e => (Raise e, st1)
                | Diverge => (Diverge, st1)
                end
              else (Ret tt, st1)
          | Raise e => (Raise e, st1)
          | Diverge => (Diverge, st1)
          end
      end
  end.

Fixpoint expand (g : t) (current : cell) (idx : list nat) (st : state)
  : outcome unit * state :=
  match idx with
  | [] => (Ret tt, st)
  | direction :: rest =>
      match visit g current st direction with
      | (Ret _, st') => expand g current rest st'
      | other => other
      end
  end.

(** The [while] loop of a search.  [fuel] bounds the iterations of this loop
    and of the one in [get_path]; [tick] counts the calls of [order_dir]. *)
Fixpoint loop (rng : nat -> list nat) (g : t) (fuel tick : nat) (st : state)
  : outcome (option (list cell)) * state :=
  if f_is_empty (frontier st) then (Ret None, st)
  else
    match fuel with
    | 0 => (Diverge, st)
    | S fuel' =>
        match f_take (frontier st) with
        | Ret (current, f') =>
            let st1 :=
              mkst f' (costs st) (previous st) (n_added st) (n_visited st + 1)
                   (mktrace (reads (log st)) (pushes (log st))
                            (current :: pops (log st))) in
            if decide (Some current = goal g) then
              (let* path := get_path fuel' g (previous st1) in Ret (Some path), st1)
            else
              match order_dir g (rng tick) with
              | Ret idx =>
                  match expand g current idx st1 with
                  | (Ret _, st2) => loop rng g fuel' (S tick) st2
                  | (Raise e, st2) => (Raise e, st2)
                  | (Diverge, st2) => (Diverge, st2)
                  end
              | Raise e => (Raise e, st1)
              | Diverge => (Diverge, st1)
              end
        | Raise e => (Raise e, st)
        | Diverge => (Diverge, st)
        end
    end.

End Engine.

Arguments state : clear implicits.

(** What a call of a search leaves behind: the returned value or the raised
    exception, the object with [added] and [visited] as assigned, the
    predecessor dictionary and the events of the call, and whether the
    frontier was empty at the end. *)
Record report : Type := mkreport {
  result : outcome (option (list cell));
  object : t;
  predecessors : dict (option cell);
  events : trace;
  exhausted : bool;
}.

Definition finish {F G} (f_is_empty : F -> bool) (g : t)
    (r : outcome (option (list cell)) * state F G) : report :=
  let st := snd r in
  mkreport (fst r)
           (with_visited (with_added g (n_added st)) (n_visited st))
           (previous st) (log st) (f_is_empty (frontier st)).

(** A search called while [self.start] is [None]: [None] is pushed, popped
    and compared with the goal; when the goal is a cell, the first direction
    fails on [current[0]].  The frontier is empty from the pop on. *)
Definition from_unset_start (rng : nat -> list nat) (g : t) : report :=
  let g' := with_visited (with_added g 1) 1 in
  let r :=
    match goal g with
    | None => Ret (Some [])
    | Some _ =>
        match order_dir g (rng 0) with
        | Ret [] => Ret None
        | Ret (direction :: _) =>
            match offset g with
            | Some offs =>
                match offs !! direction with
                | Some _ => Raise TypeError
                | None => Raise IndexError
                end
            | None => Raise TypeError
            end
        | Raise e => Raise e
        | Diverge => Diverge
        end
    end in
  mkreport r g' [] (mktrace [] [] []) true.

(** *** dfs: a stack of cells *)

Definition stack_take (s : Stack.t cell) : outcome (cell * Stack.t cell) :=
  let* xs := Stack.pop s in
  match fst xs with
  | Some c => Ret (c, snd xs)
  | None => Raise TypeError
  end.

Definition stack_add (_ : unit) (current neighbour : cell) (s : Stack.t cell)
  : outcome (Stack.t cell * unit) :=
  Ret (Stack.push s neighbour, tt).

Definition dfs (rng : nat -> list nat) (fuel : nat) (g : t) : report :=
  match start g with
  | None => from_unset_start rng g
  | Some s =>
      let stack := Stack.push (Stack.init None) s in
      let st := mkst stack tt [(s, None)] 1 0 (mktrace [] [s] []) in
      finish Stack.is_empty g
        (loop Stack.is_empty stack_take stack_add rng g fuel 0 st)
  end.

(** *** bfs: a queue of cells *)

Definition queue_take (q : Queue.t cell) : outcome (cell * Queue.t cell) :=
  let* xq := Queue.dequeue q in
  match fst xq with
  | Some c => Ret (c, snd xq)
  | None => Raise TypeError
  end.

Definition queue_add (_ : unit) (current neighbour : cell) (q : Queue.t cell)
  : outcome (Queue.t cell * unit) :=
  Ret (Queue.enqueue q neighbour, tt).

Definition bfs (rng : nat -> list nat) (fuel : nat) (g : t) : report :=
  match start g with
  | None => from_unset_start rng g
  | Some s =>
      let queue := Queue.enqueue (Queue.init None) s in
      let st := mkst queue tt [(s, None)] 1 0 (mktrace [] [s] []) in
      finish Queue.is_empty g
        (loop Queue.is_empty queue_take queue_add rng g fuel 0 st)
  end.

(** *** A_star: a priority queue keyed by f-values *)

(** The inner function [heuristic]; unpacking [None] raises. *)
Definition heuristic (a b : option cell) : outcome Z :=
  match a, b with
  | Some (x1, y1), Some (x2, y2) => Ret (Z.abs (x1 - x2) + Z.abs (y1 - y2))%Z
  | _, _ => Raise TypeError
  end.

(** [f, current = pq.get()] *)
Definition pq_take (q : PriorityQueue.t cell) : outcome (cell * PriorityQueue.t cell) :=
  let* xq := PriorityQueue.get q in
  match fst xq with
  | Some (_, PriorityQueue.Item c) => Ret (c, snd xq)
  | Some (_, PriorityQueue.Dummy) => Raise TypeError
  | None => Raise TypeError
  end.

Definition pq_add (g : t) (g_values : dict Z) (current neighbour : cell)
    (q : PriorityQueue.t cell) : outcome (PriorityQueue.t cell * dict Z) :=
  match dict_get g_values current with
  | None => Raise KeyError
  | Some gc =>
      let gn := (gc + 1)%Z in
      let* h := heuristic (goal g) (Some neighbour) in
      let f := (gn + h)%Z in
      let* q' := PriorityQueue.put q (PriorityQueue.Num f) neighbour in
      Ret (q', dict_set g_values neighbour gn)
  end.

Definition A_star (rng : nat -> list nat) (fuel : nat) (g : t) : report :=
  let started :=
    let* pq := PriorityQueue.init None "min" in
    let gs := 0%Z in
    let* h := heuristic (goal g) (start g) in
    let f := (gs + h)%Z in
    match start g with
    | Some s => let* pq' := PriorityQueue.put pq (PriorityQueue.Num f) s in Ret (s, pq')
    | None => Raise TypeError
    end in
  match started with
  | Ret (s, pq) =>
      let st := mkst pq [(s, 0%Z)] [(s, None)] 1 0 (mktrace [] [s] []) in
      finish PriorityQueue.is_empty g
        (loop PriorityQueue.is_empty pq_take (pq_add g) rng g fuel 0 st)
  | Raise e => mkreport (Raise e) g [] (mktrace [] [] []) true
  | Diverge => mkreport Diverge g [] (mktrace [] [] []) true
  end.

(** *** Dijkstra: a binary heap of (g-value, cell) pairs *)

(** [(g, current) = bh.get()] *)
Definition heap_take (h : BinaryHeap.t (Z * cell)) : outcome (cell * BinaryHeap.t (Z * cell)) :=
  let* xh := BinaryHeap.get h in
  match fst xh with
  | Some (_, c) => Ret (c, snd xh)
  | None => Raise TypeError
  end.

Definition heap_add (g_values : dict Z) (current neighbour : cell)
    (h : BinaryHeap.t (Z * cell)) : outcome (BinaryHeap.t (Z * cell) * dict Z) :=
  match dict_get g_values current with
  | None => Raise KeyError
  | Some gc =>
      let gn := (gc + 1)%Z in
      let* h' := BinaryHeap.put h (gn, neighbour) in
      Ret (h', dict_set g_values neighbour gn)
  end.

(** The entry at index 0 of the heap, the integer 0 in the source, is never
    read; here it is a pair like the others. *)
Definition heap_zero : Z * cell := (0, (0, 0))%Z.

Definition Dijkstra (rng : nat -> list nat) (fuel : nat) (g : t) : report :=
  match start g with
  | None => from_unset_start rng g
  | Some s =>
      let started :=
        let* bh := BinaryHeap.init heap_zero None "min" in
        BinaryHeap.put bh (0%Z, s) in
      match started with
      | Ret bh =>
          let st := mkst bh [(s, 0%Z)] [(s, None)] 1 0 (mktrace [] [s] []) in
          finish BinaryHeap.is_empty g
            (loop BinaryHeap.is_empty heap_take heap_add rng g fuel 0 st)
      | Raise e => mkreport (Raise e) g [] (mktrace [] [] []) true
      | Diverge => mkreport Diverge g [] (mktrace [] [] []) true
      end
  end.

Inductive algorithm : Type := DFS | BFS | ASTAR | DIJKSTRA.

Definition search (a : algorithm) : (nat -> list nat) -> nat -> t -> report :=
  match a with
  | DFS => dfs
  | BFS => bfs
  | ASTAR => A_star
  | DIJKSTRA => Dijkstra
  end.

End Search.

(** * Part II: specification vocabulary *)

(** ** The grid *)

Module GridSpec.
Import GridSearch.

(** The character stored at a position of the layout, for the non-negative
    positions inside it. *)
Definition char_at (l : list (list ascii)) (r c : Z) : option ascii :=
  if (0 <=? r)%Z && (0 <=? c)%Z then
    match l !! Z.to_nat r with
    | Some row => row !! Z.to_nat c
    | None => None
    end
  else None.

Definition is_boundary (g : t) (r c : Z) : Prop :=
  char_at (layout g) r c = Some "*"%char.

Definition is_obstacle (g : t) (r c : Z) : Prop :=
  char_at (layout g) r c = Some "#"%char.

(** The row is one of the rows below the first one. *)
Definition row_in_range (g : t) (row : Z) : Prop :=
  (0 < row < Z.of_nat (length (layout g)))%Z.

(** The column lies between two boundary cells of its row. *)
Definition col_between_walls (g : t) (row col : Z) : Prop :=
  exists c1 c2, (c1 <= col <= c2)%Z /\ is_boundary g row c1 /\ is_boundary g row c2.

(** The row lies between two boundary cells of its column. *)
Definition row_between_walls (g : t) (row col : Z) : Prop :=
  exists r1 r2, (r1 <= row <= r2)%Z /\ is_boundary g r1 col /\ is_boundary g r2 col.

(** Validity as the specification words it: inside the three ranges and
    neither a boundary nor an obstacle. *)
Definition spec_valid (g : t) (row col : Z) : Prop :=
  row_in_range g row /\ col_between_walls g row col /\
  row_between_walls g row col /\
  ~ is_boundary g row col /\ ~ is_obstacle g row col.

(** Validity as [is_valid] decides it: obstacles are not looked at. *)
Definition region_valid (g : t) (row col : Z) : Prop :=
  row_in_range g row /\ col_between_walls g row col /\
  row_between_walls g row col /\ ~ is_boundary g row col.

(** [bound] lists the boundary columns of every row of [layout]: what
    [__init__] establishes. *)
Definition consistent (g : t) : Prop :=
  bound g = map stars (layout g).

(** The cell that a marker names, if any, is a position of the layout that
    holds no boundary. *)
Definition marker_ok (g : t) (o : option cell) : Prop :=
  forall c, o = Some c ->
  exists ch, char_at (layout g) (fst c) (snd c) = Some ch /\ ch <> "*"%char.

(** What [__init__] establishes and the placement methods keep. *)
Definition well_placed (g : t) : Prop :=
  consistent g /\ marker_ok g (start g) /\ marker_ok g (goal g).

(** Number of boundary cells of a row, and of a column. *)
Definition row_boundary_count (row : list ascii) : nat :=
  length (filter (fun x => x = "*"%char) row).

Definition has_star_at (col : Z) (row : list ascii) : Prop :=
  (0 <= col)%Z /\ row !! Z.to_nat col = Some "*"%char.

Global Instance has_star_at_dec col row : Decision (has_star_at col row).
Proof. unfold has_star_at. apply _. Defined.

Definition col_boundary_count (l : list (list ascii)) (col : Z) : nat :=
  length (filter (has_star_at col) l).

Definition width (l : list (list ascii)) : nat :=
  foldr (fun row w => Nat.max (length row) w) 0 l.

(** The load-time claim of the specification: a row or a column of the file
    with fewer than two boundary cells makes [__init__] fail. *)
Definition rejects_rows_and_columns (rows : list (list ascii)) : Prop :=
  (Exists (fun row => row_boundary_count row < 2) rows \/
   exists col, (0 <= col < Z.of_nat (width rows))%Z /\ col_boundary_count rows col < 2) ->
  init rows = Raise (SystemExit bounds_msg).

(** The query-time claim as worded: a queried column with fewer than two
    boundary cells always makes [is_valid] exit. *)
Definition exits_on_short_column (g : t) (row col : Z) : Prop :=
  col_boundary_count (layout g) col < 2 ->
  is_valid g row col = Raise (SystemExit bounds_msg).

(** The outcome of [is_valid] on a grid whose [bound] matches its layout, by
    cases on the tests in the order the method makes them. *)
Inductive verdict (g : t) (row col : Z) : outcome bool -> Prop :=
| V_row : ~ row_in_range g row -> verdict g row col (Ret false)
| V_empty_row : row_in_range g row -> ~ col_between_walls g row col ->
    verdict g row col (Raise ValueError)
| V_col : row_in_range g row -> ~ col_between_walls g row col ->
    verdict g row col (Ret false)
| V_exit : row_in_range g row -> col_between_walls g row col ->
    col_boundary_count (layout g) col < 2 ->
    verdict g row col (Raise (SystemExit bounds_msg))
| V_column : row_in_range g row -> col_between_walls g row col ->
    2 <= col_boundary_count (layout g) col ->
    ~ row_between_walls g row col -> verdict g row col (Ret false)
| V_wall : row_in_range g row -> col_between_walls g row col ->
    2 <= col_boundary_count (layout g) col ->
    row_between_walls g row col -> is_boundary g row col ->
    verdict g row col (Ret false)
| V_inside : row_in_range g row -> col_between_walls g row col ->
    2 <= col_boundary_count (layout g) col ->
    row_between_walls g row col -> ~ is_boundary g row col ->
    verdict g row col (Ret true).

End GridSpec.

(** [x] lies between two members of [l]. *)
Definition within (l : list Z) (x : Z) : Prop :=
  exists a b, a ∈ l /\ b ∈ l /\ (a <= x <= b)%Z.

(** ** The searches *)

Module SearchSpec.
Import GridSearch Search GridSpec.

(** A position of the layout: both indices are in range and not negative. *)
Definition in_bounds (l : list (list ascii)) (c : cell) : Prop :=
  is_Some (char_at l (fst c) (snd c)).

Definition in_boundsb (l : list (list ascii)) (c : cell) : bool :=
  match char_at l (fst c) (snd c) with
  | Some _ => true
  | None => false
  end.

(** The test a neighbour passes before it is pushed. *)
Definition open_char (ch : ascii) : bool :=
  negb (Ascii.eqb ch "#") && negb (Ascii.eqb ch "*").

Definition shift (c : cell) (d : Z * Z) : cell :=
  ((fst c + fst d)%Z, (snd c + snd d)%Z).


(** [d] is an index of the offsets. *)
Definition in_range (g : t) (d : nat) : Prop :=
  forall offs, offset g = Some offs -> d < length offs.

(** The indices that [order_dir] hands out are indices of [offset]. *)
Definition draws_in_range (g : t) (rng : nat -> list nat) : Prop :=
  forall offs, offset g = Some offs ->
  forall k, Forall (fun d => d < length offs) (rng k).

(** Every layout lookup of the call was made at a position of the layout. *)
Definition lookups_in_bounds (g : t) (r : report) : Prop :=
  Forall (in_bounds (layout g)) (reads (events r)).


(** Every position that indexing can reach, negative indices included. *)
Definition zrange (n : nat) : list Z :=
  map (fun k : nat => (Z.of_nat k - Z.of_nat n)%Z) (seq 0 (2 * n)).

Definition universe (l : list (list ascii)) : list cell :=
  flat_map (fun r : Z =>
              match py_get l r with
              | Ret row => map (fun c : Z => (r, c)) (zrange (length row))
              | _ => []
              end)
           (zrange (length l)).

(** Iterations that are enough for any search on the grid. *)
Definition search_fuel (g : t) : nat := 2 * length (universe (layout g)) + 2.

(** The predecessor dictionary of a search from [s]: every other key was
    entered with a predecessor that was a key already. *)
Inductive wf_prev (s : cell) : dict (option cell) -> Prop :=
| wf_start : wf_prev s [(s, None)]
| wf_step d nb cur :
    wf_prev s d -> dict_mem d cur = true -> dict_mem d nb = false ->
    wf_prev s ((nb, Some cur) :: d).

(** What the engine needs from a frontier: [cells] lists the cells it holds,
    [Finv] is the representation invariant of the container, [has] says that
    the cost table knows a cell, [ready] what the push needs from the grid. *)
Record frontier_spec {F G : Type}
    (f_is_empty : F -> bool) (f_take : F -> outcome (cell * F))
    (f_add : G -> cell -> cell -> F -> outcome (F * G))
    (cells : F -> list cell) (Finv : F -> Prop) (has : G -> cell -> Prop)
    (ready : Prop) : Prop := {
  fs_empty : forall f, Finv f -> (f_is_empty f = true <-> cells f = []);
  fs_take : forall f, Finv f -> f_is_empty f = false ->
    exists c f', f_take f = Ret (c, f') /\ Finv f' /\ cells f ≡ₚ c :: cells f';
  fs_add_ret : forall f gv cur nb f' gv', Finv f -> f_add gv cur nb f = Ret (f', gv') ->
    Finv f' /\ cells f' ≡ₚ nb :: cells f /\
    has gv' nb /\ (forall c, has gv c -> has gv' c);
  fs_add_total : forall f gv cur nb, Finv f -> has gv cur -> ready ->
    exists f' gv', f_add gv cur nb f = Ret (f', gv');
  fs_add_halts : forall f gv cur nb, Finv f -> f_add gv cur nb f <> Diverge;
}.

(** The invariant of the loop of a search from [s]. *)
Record basic_inv {F G : Type} (cells : F -> list cell) (Finv : F -> Prop)
    (has : G -> cell -> Prop) (g : t) (s : cell) (st : state F G) : Prop := {
  bi_finv : Finv (frontier st);
  bi_flow : pushes (log st) ≡ₚ pops (log st) ++ cells (frontier st);
  bi_keys : map fst (previous st) = pushes (log st);
  bi_nodup : NoDup (pushes (log st));
  bi_added : n_added st = length (pushes (log st));
  bi_visited : n_visited st = length (pops (log st));
  bi_prev : wf_prev s (previous st);
  bi_costs : forall c, c ∈ pushes (log st) -> has (costs st) c;
  bi_known : forall c, c ∈ pushes (log st) -> c = s \/ c ∈ universe (layout g);
}.

(** What the loop hands back, read against the final state: a path runs from
    the start to the goal, which was popped last; [None] comes with an empty
    frontier and no goal among the cells popped on the way. *)
Definition loop_outcome {F G : Type} (f_is_empty : F -> bool) (g : t) (s : cell)
    (st0 : state F G) (r : outcome (option (list cell))) (st : state F G) : Prop :=
  match r with
  | Ret (Some p) =>
      exists t, goal g = Some t /\ head (pops (log st)) = Some t /\
                head p = Some s /\ last p = Some t
  | Ret None =>
      f_is_empty (frontier st) = true /\
      forall t, goal g = Some t -> t ∈ pops (log st) -> t ∈ pops (log st0)
  | Raise _ => True
  | Diverge => False
  end.

(** The counters against the events: no cell is pushed twice, the keys of
    the predecessor dictionary are the cells pushed, [added] counts the cells
    pushed and [visited] the cells popped. *)
Definition counted (r : report) : Prop :=
  NoDup (pushes (events r)) /\
  map fst (predecessors r) = pushes (events r) /\
  added (object r) = Some (length (pushes (events r))) /\
  visited (object r) = Some (length (pops (events r))) /\
  length (pops (events r)) <= length (pushes (events r)).

(** The call returned as a search should: a path from the start to the goal
    after the goal was popped, or [None] after the frontier emptied with the
    goal never popped. *)
Definition settled (g : t) (r : report) : Prop :=
  match result r with
  | Ret (Some p) =>
      exists t, goal g = Some t /\ head (pops (events r)) = Some t /\
                head p = start g /\ last p = Some t
  | Ret None =>
      exhausted r = true /\ forall t, goal g = Some t -> t ∉ pops (events r)
  | _ => False
  end.

(** The report of a search whose start is the goal. *)
Definition start_is_goal_report (g : t) (s : cell) (r : report) : Prop :=
  result r = Ret (Some [s]) /\
  visited (object r) = Some 1 /\ added (object r) = Some 1 /\
  pops (events r) = [s] /\ pushes (events r) = [s] /\ reads (events r) = [].

End SearchSpec.

(** ** The priority queue *)

Module PQSpec.
Import PriorityQueue.

(** [a] is not after [b] in the order of the queue: ascending for a min
    queue, descending for a max queue. *)
Definition ple (queue_type : string) (a b : prio) : bool :=
  if String.eqb queue_type "max" then prio_le b a else prio_le a b.

(** [a] is strictly before [b]. *)
Definition plt (queue_type : string) (a b : prio) : bool :=
  negb (ple queue_type b a).

Section Shape.
Context {A : Type}.

(** The entries between the two sentinels. *)
Definition shape (q : t A) (lo hi : prio * slot A) (real : list (prio * slot A)) : Prop :=
  items q = lo :: real ++ [hi] /\ size q = length real.

Definition is_item (e : prio * slot A) : Prop :=
  match snd e with
  | Item _ => True
  | Dummy => False
  end.

(** The test of the binary search on the entry at index [i]. *)
Definition flag_at (qt : string) (its : list (prio * slot A)) (priority : prio)
    (i : nat) : bool :=
  match its !! i with
  | Some (p, _) => ple qt p priority
  | None => false
  end.

End Shape.

(** A run of [put] and [get] calls.  The item of every [put] is the number
    of puts made before it, so that the items tell the order of insertion. *)
Inductive op : Type :=
| Put (priority : prio)
| Get.

Fixpoint run (ops : list op) (n : nat) (q : t nat)
  : outcome (t nat * list (prio * slot nat)) :=
  match ops with
  | [] => Ret (q, [])
  | Put priority :: rest =>
      let* q' := put q priority n in
      run rest (S n) q'
  | Get :: rest =>
      let* xq := get q in
      let* r := run rest n (snd xq) in
      Ret (fst r, match fst xq with Some x => x :: snd r | None => snd r end)
  end.

(** The entries that a run puts, in the order of the puts. *)
Fixpoint puts_of (ops : list op) (n : nat) : list (prio * slot nat) :=
  match ops with
  | [] => []
  | Put priority :: rest => (priority, Item n) :: puts_of rest (S n)
  | Get :: rest => puts_of rest n
  end.

(** [get] until it returns [None]. *)
Fixpoint drain (fuel : nat) (q : t nat) : outcome (list (prio * slot nat)) :=
  let* xq := get q in
  match fst xq with
  | None => Ret []
  | Some x =>
      match fuel with
      | 0 => Diverge
      | S fuel' => let* r := drain fuel' (snd xq) in Ret (x :: r)
      end
  end.

Definition stamp (e : prio * slot nat) : nat :=
  match snd e with
  | Item n => n
  | Dummy => 0
  end.

(** The order in which entries must come out: by priority, and by insertion
    among equal priorities. *)
Definition comes_before (queue_type : string) (e1 e2 : prio * slot nat) : Prop :=
  plt queue_type (fst e1) (fst e2) = true \/
  (fst e1 = fst e2 /\ stamp e1 < stamp e2).

(** An entry that a run put before its [n]-th put. *)
Definition stamped (n : nat) (e : prio * slot nat) : Prop :=
  is_item e /\ stamp e < n.

End PQSpec.

(** ** The binary heap *)

Module HeapSpec.
Import BinaryHeap.

Section Spec.
Context {A : Type} `{PyOrd A}.

(** [a] is strictly nearer the root than [b] may be: greater in a max heap,
    smaller in a min heap. *)
Definition before (heap_type : string) (a b : A) : bool :=
  if String.eqb heap_type "max" then py_lt b a else py_lt a b.

(** The items of the heap: everything but the entry at index 0. *)
Definition contents (h : t A) : list A := drop 1 (items h).

Definition shape (h : t A) : Prop := length (items h) = size h + 1.

(** The entry at [i] is not strictly before its parent. *)
Definition in_order (heap_type : string) (its : list A) (i : nat) : Prop :=
  forall p c, its !! (i / 2) = Some p -> its !! i = Some c ->
              before heap_type c p = false.

(** The heap property for every parent at index [k] or more. *)
Definition ordered_from (heap_type : string) (k : nat) (its : list A) : Prop :=
  forall i, k <= i / 2 -> in_order heap_type its i.

Definition heap_ok (h : t A) : Prop :=
  shape h /\ ordered_from (heap_type h) 1 (items h).

(** The state in the middle of [swap_up]: only the entry at [ic] may be out
    of order with its parent, and the children of [ic] are in order with the
    parent of [ic]. *)
Definition up_inv (heap_type : string) (its : list A) (ic : nat) : Prop :=
  (forall i, 1 <= i / 2 -> i <> ic -> in_order heap_type its i) /\
  (forall i g c, i / 2 = ic -> 1 <= ic / 2 ->
     its !! (ic / 2) = Some g -> its !! i = Some c -> before heap_type c g = false).

(** The state in the middle of [swap_down], for the parents from [k] on: only
    the children of [ip] may be out of order with it, and they are in order
    with the parent of [ip]. *)
Definition down_inv (heap_type : string) (k : nat) (its : list A) (ip : nat) : Prop :=
  (forall i, k <= i / 2 -> i / 2 <> ip -> in_order heap_type its i) /\
  (forall i g c, i / 2 = ip -> k <= ip / 2 ->
     its !! (ip / 2) = Some g -> its !! i = Some c -> before heap_type c g = false).

(** A run of [put] and [get] calls, with the items that the gets returned. *)
Inductive op : Type :=
| Put (item : A)
| Get.

Fixpoint run (ops : list op) (h : t A) : outcome (t A * list A) :=
  match ops with
  | [] => Ret (h, [])
  | Put item :: rest =>
      let* h' := put h item in
      run rest h'
  | Get :: rest =>
      let* xh := get h in
      let* r := run rest (snd xh) in
      Ret (fst r, match fst xh with Some x => x :: snd r | None => snd r end)
  end.

Fixpoint puts_of (ops : list op) : list A :=
  match ops with
  | [] => []
  | Put item :: rest => item :: puts_of rest
  | Get :: rest => puts_of rest
  end.

(** What [peek] returns is an item of the heap that no item is strictly
    before: the minimum of a min heap, the maximum of a max heap. *)
Definition root_is_extreme (h : t A) : Prop :=
  match peek h with
  | Ret (Some r) =>
      r ∈ contents h /\ forall x, x ∈ contents h -> before (heap_type h) x r = false
  | Ret None => contents h = []
  | _ => False
  end.

End Spec.
End HeapSpec.

(** ** The containers as frontiers: cells held and representation invariants *)

Module FrontierSpec.
Import GridSearch Search.

(** [size] is the length of [items]. *)
Definition stack_inv (s : Stack.t cell) : Prop :=
  Stack.size s = length (Stack.items s).

Definition queue_inv (q : Queue.t cell) : Prop :=
  Queue.size q = length (Queue.items q).

(** The cell of an entry of the priority queue; the sentinels have none. *)
Definition slot_cell (e : PriorityQueue.prio * PriorityQueue.slot cell) : option cell :=
  match snd e with
  | PriorityQueue.Item c => Some c
  | PriorityQueue.Dummy => None
  end.

Definition pq_cells (q : PriorityQueue.t cell) : list cell :=
  omap slot_cell (PriorityQueue.items q).

(** The two sentinels bracket entries that all carry a cell. *)
Definition pq_inv (q : PriorityQueue.t cell) : Prop :=
  exists lo hi real, PQSpec.shape q lo hi real /\
    slot_cell lo = None /\ slot_cell hi = None /\
    Forall (fun e => is_Some (slot_cell e)) real.

(** [c in g_values] *)
Definition knows (g_values : dict Z) (c : cell) : Prop :=
  is_Some (dict_get g_values c).

(** The cells of the (g-value, cell) pairs of the heap. *)
Definition heap_cells (h : BinaryHeap.t (Z * cell)) : list cell :=
  map snd (HeapSpec.contents h).

End FrontierSpec.

(** ** Example grids *)

Module Examples.
Import GridSearch Search.

(** The lines of a grid file as lists of characters. *)
Definition rows_of (lines : list string) : list (list ascii) :=
  map list_ascii_of_string lines.

(** A 3x3 grid whose only inner cell holds an obstacle. *)
Definition obstacle_rows : list (list ascii) := rows_of ["***"; "*#*"; "***"]%string.
Definition obstacle_grid : t :=
  mk obstacle_rows (map stars obstacle_rows) None None None None None None.

(** A grid whose middle column has a single boundary cell. *)
Definition open_column_rows : list (list ascii) := rows_of ["* *"; "* *"; "***"]%string.
Definition open_column_grid : t :=
  mk open_column_rows (map stars open_column_rows) None None None None None None.

(** The four directions of the test file, from north and clockwise. *)
Definition offset4 : list (Z * Z) := [(-1, 0); (0, 1); (1, 0); (0, -1)]%Z.

(** The object after [__init__], [set_start], [set_goal] and [set_motion]. *)
Definition place (rows : list string) (s e : cell) (offs : list (Z * Z)) : t :=
  match init (map list_ascii_of_string rows) with
  | Ret g0 =>
      let g1 := snd (set_start g0 (fst s) (snd s)) in
      let g2 := snd (set_goal g1 (fst e) (snd e)) in
      set_motion g2 offs None
  | _ => mk [] [] None None None None None None
  end.

(** The 5x5 grid of the specification: open inside, start (1,1), goal (3,3). *)
Definition open_rows : list string :=
  ["*****"; "*   *"; "*   *"; "*   *"; "*****"]%string.
Definition open_grid : t := place open_rows (1, 1)%Z (3, 3)%Z offset4.

(** The same grid with the start on the goal. *)
Definition single_grid : t := place open_rows (2, 2)%Z (2, 2)%Z offset4.

(** A grid whose third row is shorter than the others.  Every row and every
    column has two boundary cells or more; the cell under (1,2) is missing. *)
Definition jagged_rows : list string :=
  ["****"; "*  *"; "**"; "****"]%string.
Definition jagged_grid : t := place jagged_rows (1, 2)%Z (1, 1)%Z offset4.


(** [simple.txt] as the comments of [test_GridSearch.py] draw it, with the
    start, the goal and the offsets of its first example. *)
Definition simple_rows : list string :=
  ["   ***********  ***";
   "   *         **** *";
   "****  ##          *";
   "*          ***  ***";
   "*    ##    * *  *";
   "*          * *  *";
   "*          * ****";
   "*          *";
   "************"]%string.
Definition simple_grid : t := place simple_rows (6, 2)%Z (2, 12)%Z offset4.

(** The grid of the second example of the test file: [simple.txt] with the
    probabilities 0.1, 0.1, 0.4 and 0.4 for the four directions. *)
Definition prob4 : list Q := [1 # 10; 1 # 10; 2 # 5; 2 # 5]%Q.
Definition chance_grid : t := set_motion simple_grid offset4 (Some prob4).

(** [diagonal.txt] as the comments of the test file draw it, with the start,
    the goal and the eight offsets of its third example. *)
Definition offset8 : list (Z * Z) :=
  [(-1, 0); (-1, 1); (0, 1); (1, 1); (1, 0); (1, -1); (0, -1); (-1, -1)]%Z.
Definition diagonal_rows : list string :=
  ["*****************";
   "*               *";
   "*  ##           *";
   "*  ###          *";
   "*   ###         *";
   "*    ###        *";
   "*     ###       *";
   "*      ###      *";
   "*       ###     *";
   "*        ###    *";
   "*         ###   *";
   "*          ###  *";
   "*               *";
   "*****************"]%string.
Definition diagonal_grid : t := place diagonal_rows (11, 2)%Z (4, 8)%Z offset8.

(** The steps of the path, [visited] and [added], as the test file prints
    them. *)
Definition summary (r : report) : option nat * option nat * option nat :=
  (match result r with
   | Ret (Some p) => Some (length p - 1)
   | _ => None
   end,
   visited (object r), added (object r)).

End Examples.

(** ** Runs of the stack and of the queue *)

Module StackSpec.
Section Spec.
Context {A : Type}.

(** [size] counts the items: what the constructor and the methods keep. *)
Definition wf (s : Stack.t A) : Prop := Stack.size s = length (Stack.items s).

(** [for x in l: s.push(x)] *)
Definition push_all (s : Stack.t A) (l : list A) : Stack.t A :=
  foldl Stack.push s l.

(** [n] calls of [pop] with what they returned, the first call first. *)
Fixpoint pop_n (n : nat) (s : Stack.t A) : outcome (list (option A) * Stack.t A) :=
  match n with
  | 0 => Ret ([], s)
  | S n' =>
      let* xs := Stack.pop s in
      let* r := pop_n n' (snd xs) in
      Ret (fst xs :: fst r, snd r)
  end.

End Spec.
End StackSpec.

Module QueueSpec.
Section Spec.
Context {A : Type}.

Definition wf (q : Queue.t A) : Prop := Queue.size q = length (Queue.items q).

(** [for x in l: q.enqueue(x)] *)
Definition enqueue_all (q : Queue.t A) (l : list A) : Queue.t A :=
  foldl Queue.enqueue q l.

(** [n] calls of [dequeue] with what they returned, the first call first. *)
Fixpoint dequeue_n (n : nat) (q : Queue.t A) : outcome (list (option A) * Queue.t A) :=
  match n with
  | 0 => Ret ([], q)
  | S n' =>
      let* xq := Queue.dequeue q in
      let* r := dequeue_n n' (snd xq) in
      Ret (fst xq :: fst r, snd r)
  end.

End Spec.
End QueueSpec.


(** ** The order of the priority queue, for entries of any type *)

Module PQOrder.
Import PriorityQueue PQSpec.

Global Instance prio_eq_dec : EqDecision prio.
Proof. solve_decision. Defined.

Section Order.
Context {A : Type}.

(** The entry that [put] inserts for a pair of the initial list. *)
Definition entry (x : prio * A) : prio * slot A := (fst x, Item (snd x)).

(** The entries are in the order of the queue; equal priorities may follow
    each other. *)
Definition ordered (qt : string) (real : list (prio * slot A)) : Prop :=
  StronglySorted (fun a b => ple qt (fst a) (fst b) = true) real.

(** The entries of priority [p], in the order they have in the list. *)
Definition at_priority (p : prio) (real : list (prio * slot A)) : list (prio * slot A) :=
  filter (fun e => fst e = p) real.

End Order.

(** The type that [reverse] assigns. *)
Definition flip (qt : string) : string :=
  if String.eqb qt "max" then "min"%string else "max"%string.

End PQOrder.


(** ** The order in which a heap hands out its items *)

Module HeapOrder.
Import BinaryHeap HeapSpec.

Section Order.
Context {A : Type} `{PyOrd A}.

(** [get] until it returns [None]. *)
Fixpoint drain (fuel : nat) (h : t A) : outcome (list A) :=
  let* xh := get h in
  match fst xh with
  | None => Ret []
  | Some x =>
      match fuel with
      | 0 => Diverge
      | S fuel' => let* r := drain fuel' (snd xh) in Ret (x :: r)
      end
  end.

(** [a] may come out before [b]: [b] is not strictly before [a]. *)
Definition in_turn (heap_type : string) (a b : A) : Prop :=
  before heap_type b a = false.

End Order.
End HeapOrder.


(** ** The objects that the methods build *)

Module GridBuilt.
Import GridSearch Search GridSpec.

(** The representation invariant of a grid object: [bound] lists the
    boundary columns of the rows of [layout], two or more in every row, and
    the markers name positions of the layout that hold no boundary. *)
Definition loaded (g : t) : Prop :=
  well_placed g /\ Forall (fun b : list Z => 2 <= length b) (bound g).

(** The objects that a caller can get: from the constructor, by calls of the
    placement methods and of [set_motion], and from the searches. *)
Inductive built : t -> Prop :=
| built_init rows g : init rows = Ret g -> built g
| built_set_start g row col : built g -> built (snd (set_start g row col))
| built_set_goal g row col : built g -> built (snd (set_goal g row col))
| built_add_obstacle g row col : built g -> built (snd (add_obstacle g row col))
| built_del_obstacle g row col : built g -> built (snd (del_obstacle g row col))
| built_set_motion g offs p : built g -> built (set_motion g offs p)
| built_search g a rng fuel : built g -> built (object (search a rng fuel g)).

End GridBuilt.


(** ** Paths and reachable cells *)

Module PathSpec.
Import GridSearch Search GridSpec SearchSpec.

(** The lookup that a search makes at the cell succeeds and finds neither an
    obstacle nor a boundary. *)
Definition passable (g : t) (c : cell) : Prop :=
  exists ch, layout_get (layout g) c = Ret ch /\ open_char ch = true.

(** One move: [b] is [a] shifted by one of the offsets. *)
Definition move (g : t) (a b : cell) : Prop :=
  exists offs d, offset g = Some offs /\ d ∈ offs /\ b = shift a d.

(** A walk from [a] through [rest]: every next cell is one move away from
    the cell before it and is passable. *)
Fixpoint walk (g : t) (a : cell) (rest : list cell) : Prop :=
  match rest with
  | [] => True
  | b :: r => move g a b /\ passable g b /\ walk g b r
  end.

(** A path from the start to the goal: a walk that visits no cell twice. *)
Definition valid_path (g : t) (p : list cell) : Prop :=
  head p = start g /\ last p = goal g /\ NoDup p /\
  match p with
  | [] => True
  | a :: rest => walk g a rest
  end.

(** The cells that the walks from the start lead to. *)
Inductive reach (g : t) : cell -> Prop :=
| reach_start s : start g = Some s -> reach g s
| reach_move a b : reach g a -> move g a b -> passable g b -> reach g b.

(** Every direction is tried at every expansion: no probabilities are set,
    or every draw holds all the indices of the offsets. *)
Definition all_directions (g : t) (rng : nat -> list nat) : Prop :=
  prob g = None \/
  forall offs k d, offset g = Some offs -> d < length offs -> d ∈ rng k.

(** Every binding of the predecessor dictionary records a move to a passable
    cell. *)
Definition linked (g : t) (d : dict (option cell)) : Prop :=
  forall nb cur, (nb, Some cur) ∈ d -> move g cur nb /\ passable g nb.

(** [p] lists the cells that [get_path] meets from [cur] on. *)
Fixpoint chain (d : dict (option cell)) (cur : option cell) (p : list cell) : Prop :=
  match p with
  | [] => cur = None
  | c :: r => cur = Some c /\ exists nxt, dict_get d c = Some nxt /\ chain d nxt r
  end.

(** Every passable cell one move away from [c] is among the cells pushed. *)
Definition closed (g : t) (pushed : list cell) (c : cell) : Prop :=
  forall b, move g c b -> passable g b -> b ∈ pushed.

(** Every cell popped so far was expanded in all directions. *)
Definition closed_inv {F G : Type} (g : t) (st : state F G) : Prop :=
  forall c, c ∈ pops (log st) -> closed g (pushes (log st)) c.

(** What a search that returned [None] has done: it pushed exactly the cells
    that can be reached from the start, popped every one of them, and the
    goal is not among them. *)
Definition swept (g : t) (r : report) : Prop :=
  (forall c, reach g c <-> c ∈ pushes (events r)) /\
  pops (events r) ≡ₚ pushes (events r) /\
  visited (object r) = added (object r) /\
  forall t, goal g = Some t -> ~ reach g t.

End PathSpec.


(** ** Grids that keep a search inside the layout *)

Module FenceSpec.
Import GridSearch Search GridSpec SearchSpec PathSpec.

(** The layout holds every neighbour that a search can look up: from every
    cell that a walk from the start reaches, each offset leads to a position
    of the layout. *)
Definition fenced (g : t) : Prop :=
  forall c offs d, reach g c -> offset g = Some offs -> d ∈ offs ->
                   in_bounds (layout g) (shift c d).

(** A test that shows a grid fenced.  [region] holds the start, and from
    each of its cells every offset leads to a position of the layout that
    holds an obstacle or a boundary, or else belongs to [region] too. *)
Definition fence_check (g : t) (region : list cell) : bool :=
  match offset g with
  | None => true
  | Some offs =>
      match start g with
      | Some s => bool_decide (s ∈ region)
      | None => true
      end &&
      forallb (fun c =>
                 forallb (fun d =>
                            match char_at (layout g) (fst (shift c d)) (snd (shift c d)) with
                            | Some ch =>
                                implb (open_char ch) (bool_decide (shift c d ∈ region))
                            | None => false
                            end)
                         offs)
              region
  end.

(** [order_dir] has what it needs to return: the offsets are set, and the
    probabilities, when set, are such that [np.random.choice] accepts
    them. *)
Definition motion_ok (g : t) : bool :=
  match offset g with
  | Some offs =>
      match prob g with
      | Some p => choice_accepts (length offs) p
      | None => true
      end
  | None => false
  end.

(** Every pushed cell is reached by a walk from the start, and every lookup
    was made at a position of the layout. *)
Record safe_inv {F G : Type} (g : t) (st : state F G) : Prop := {
  si_pushes : forall c, c ∈ pushes (log st) -> reach g c;
  si_reads : Forall (in_bounds (layout g)) (reads (log st));
}.

(** What the engine gives for the report of a search on [g]: the counters
    agree with the events; enough fuel ends the loops; on a fenced grid the
    lookups stay in the layout and, when the grid is [ready] for the push,
    [order_dir] has what it needs and the directions are in range, the
    search returns. *)
Definition engine_facts (g : t) (ready : Prop) (rng : nat -> list nat) (fuel : nat)
    (r : report) : Prop :=
  counted r /\
  (search_fuel g <= fuel -> result r <> Diverge) /\
  (fenced g -> lookups_in_bounds g r) /\
  (fenced g -> ready -> motion_ok g = true -> draws_in_range g rng ->
   search_fuel g <= fuel -> settled g r).

End FenceSpec.


(** A corridor cut by an obstacle: from the start (1,1) the goal (1,3)
    cannot be reached. *)
Module Blocked.
Import GridSearch Search Examples.

Definition blocked_rows : list string := ["*****"; "* # *"; "*****"]%string.
Definition blocked_grid : t := place blocked_rows (1, 1)%Z (1, 3)%Z offset4.

End Blocked.


(** ** Shortest paths *)

Module ShortestSpec.
Import GridSearch Search SearchSpec PathSpec.

(** The number of moves from the start to a key of the predecessor
    dictionary, along the predecessors. *)
Fixpoint dep (d : dict (option cell)) (c : cell) : nat :=
  match d with
  | [] => 0
  | (k, v) :: r =>
      if decide (k = c) then
        match v with
        | None => 0
        | Some p => S (dep r p)
        end
      else dep r c
  end.

(** No walk from [s] to a pushed cell has fewer moves than the cell is
    deep. *)
Definition short (g : t) (s : cell) (d : dict (option cell)) (pushed : list cell) : Prop :=
  forall c w, c ∈ pushed -> walk g s w -> last (s :: w) = Some c -> dep d c <= length w.

(** No walk from the start to the goal visits fewer cells than [p] has. *)
Definition shortest (g : t) (p : list cell) : Prop :=
  forall s w, start g = Some s -> walk g s w -> last (s :: w) = goal g ->
              length p <= length (s :: w).

(** What a frontier that serves the shallowest cell first keeps, for the
    depths [depth] of the cells [known]: the queue of [bfs] holds its cells
    in the order of their depths; the heap of [Dijkstra] is a heap whose
    entries carry the depths of their cells, as [g_values] does. *)
Definition queue_ordered (depth : cell -> nat) (known : list cell)
    (q : Queue.t cell) (_ : unit) : Prop :=
  (forall y, y ∈ Queue.items q -> y ∈ known) /\
  StronglySorted (fun a b => depth a <= depth b) (Queue.items q).

Definition heap_ordered (depth : cell -> nat) (known : list cell)
    (h : BinaryHeap.t (Z * cell)) (g_values : dict Z) : Prop :=
  HeapSpec.heap_ok h /\ BinaryHeap.heap_type h = "min"%string /\
  (forall x c, (x, c) ∈ HeapSpec.contents h -> c ∈ known /\ x = Z.of_nat (depth c)) /\
  (forall c, c ∈ known -> dict_get g_values c = Some (Z.of_nat (depth c))).

(** The invariant of a search that serves the shallowest cell first, at
    level [k]: the frontier is in order and holds cells of depth [k] or
    [k + 1]; no popped cell is deeper than [k]; the depths are the lengths
    of shortest walks; and every popped cell but the one being expanded, if
    any, has all its passable neighbours pushed. *)
Record level_inv {F G : Type} (cells : F -> list cell)
    (ordered : (cell -> nat) -> list cell -> F -> G -> Prop)
    (g : t) (s : cell) (k : nat) (cur : option cell) (st : state F G) : Prop := {
  li_ord : ordered (dep (previous st)) (pushes (log st)) (frontier st) (costs st);
  li_band : forall y, y ∈ cells (frontier st) ->
            k <= dep (previous st) y /\ dep (previous st) y <= S k;
  li_pops : forall x, x ∈ pops (log st) -> dep (previous st) x <= k;
  li_cur : forall c, cur = Some c -> dep (previous st) c = k;
  li_short : short g s (previous st) (pushes (log st));
  li_closed : forall x, x ∈ pops (log st) -> cur <> Some x ->
              closed g (pushes (log st)) x;
}.

End ShortestSpec.


(** * Part III: proofs *)

Lemma py_norm_Some len i n :
  py_norm len i = Some n -> n < len.
Proof.
  unfold py_norm. intros H.
  destruct (0 <=? i)%Z eqn:E0.
  - destruct (i <? Z.of_nat len)%Z eqn:E1; [|discriminate].
    inversion H; subst. lia.
  - destruct (- Z.of_nat len <=? i)%Z eqn:E1; [|discriminate].
    inversion H; subst. lia.
Qed.

Lemma py_norm_nonneg len i :
  (0 <= i < Z.of_nat len)%Z -> py_norm len i = Some (Z.to_nat i).
Proof.
  intros H. unfold py_norm.
  destruct (0 <=? i)%Z eqn:E0; [|lia].
  destruct (i <? Z.of_nat len)%Z eqn:E1; [done|lia].
Qed.

Lemma foldl_max_ge (l : list Z) (x : Z) :
  (x <= foldl Z.max x l)%Z /\ Forall (fun y => (y <= foldl Z.max x l)%Z) l.
Proof.
  revert x. induction l as [|a l IH]; intros x; simpl.
  - split; [lia|constructor].
  - destruct (IH (Z.max x a)) as [H1 H2]. split; [lia|].
    constructor; [lia|done].
Qed.

Lemma foldl_max_in (l : list Z) (x : Z) :
  foldl Z.max x l = x \/ foldl Z.max x l ∈ l.
Proof.
  revert x. induction l as [|a l IH]; intros x; simpl; [by left|].
  destruct (IH (Z.max x a)) as [H|H].
  - rewrite H. destruct (Z.max_spec x a) as [[_ ->]|[_ ->]].
    + right. left.
    + by left.
  - right. by right.
Qed.

Lemma foldl_min_le (l : list Z) (x : Z) :
  (foldl Z.min x l <= x)%Z /\ Forall (fun y => (foldl Z.min x l <= y)%Z) l.
Proof.
  revert x. induction l as [|a l IH]; intros x; simpl.
  - split; [lia|constructor].
  - destruct (IH (Z.min x a)) as [H1 H2]. split; [lia|].
    constructor; [lia|done].
Qed.

Lemma foldl_min_in (l : list Z) (x : Z) :
  foldl Z.min x l = x \/ foldl Z.min x l ∈ l.
Proof.
  revert x. induction l as [|a l IH]; intros x; simpl; [by left|].
  destruct (IH (Z.min x a)) as [H|H].
  - rewrite H. destruct (Z.min_spec x a) as [[_ ->]|[_ ->]].
    + by left.
    + right. left.
  - right. by right.
Qed.

Lemma py_in_true x l : py_in x l = true <-> x ∈ l.
Proof.
  unfold py_in. rewrite existsb_exists. split.
  - intros (y & Hy & E). apply Z.eqb_eq in E. subst. by apply list_elem_of_In.
  - intros H. exists x. split; [by apply list_elem_of_In|apply Z.eqb_refl].
Qed.

(** ** Integer lists: [max], [min] and range tests *)

Lemma py_max_Ret l m :
  py_max l = Ret m -> m ∈ l /\ Forall (fun y => (y <= m)%Z) l.
Proof.
  destruct l as [|x r]; simpl; [discriminate|].
  intros [= <-]. destruct (foldl_max_ge r x) as [H1 H2]. split.
  - destruct (foldl_max_in r x) as [->|H]; [left|by right].
  - by constructor.
Qed.

Lemma py_min_Ret l m :
  py_min l = Ret m -> m ∈ l /\ Forall (fun y => (m <= y)%Z) l.
Proof.
  destruct l as [|x r]; simpl; [discriminate|].
  intros [= <-]. destruct (foldl_min_le r x) as [H1 H2]. split.
  - destruct (foldl_min_in r x) as [->|H]; [left|by right].
  - by constructor.
Qed.

Lemma py_max_nonempty l : l <> [] -> exists m, py_max l = Ret m.
Proof. destruct l; [done|]. intros _. simpl. eauto. Qed.

Lemma py_min_nonempty l : l <> [] -> exists m, py_min l = Ret m.
Proof. destruct l; [done|]. intros _. simpl. eauto. Qed.

Lemma within_max_min l x mx mn :
  py_max l = Ret mx -> py_min l = Ret mn ->
  within l x <-> (mn <= x <= mx)%Z.
Proof.
  intros Hmx Hmn.
  apply py_max_Ret in Hmx as [Hmx1 Hmx2].
  apply py_min_Ret in Hmn as [Hmn1 Hmn2].
  rewrite Forall_forall in Hmx2, Hmn2. split.
  - intros (a & b & Ha & Hb & Hab).
    specialize (Hmn2 a Ha). specialize (Hmx2 b Hb). lia.
  - intros H. exists mn, mx. done.
Qed.

Lemma within_nonempty l x : within l x -> l <> [].
Proof. intros (a & _ & Ha & _) ->. by apply elem_of_nil in Ha. Qed.

Lemma short_list_eq (l : list Z) a b :
  length l <= 1 -> a ∈ l -> b ∈ l -> a = b.
Proof.
  destruct l as [|x [|y r]]; simpl; intros Hl Ha Hb; try lia.
  - by apply elem_of_nil in Ha.
  - apply list_elem_of_singleton in Ha, Hb. congruence.
Qed.

(** ** Indexing *)

Lemma py_get_nonneg {A} (l : list A) i x :
  (0 <= i)%Z -> py_get l i = Ret x <-> l !! Z.to_nat i = Some x.
Proof.
  intros Hi. unfold py_get, py_norm.
  destruct (0 <=? i)%Z eqn:E0; [|lia].
  destruct (i <? Z.of_nat (length l))%Z eqn:E1.
  - destruct (l !! Z.to_nat i) eqn:E; split; congruence.
  - split; [discriminate|]. intros H. apply lookup_lt_Some in H. lia.
Qed.

Lemma py_get_in_range {A} (l : list A) i :
  (0 <= i < Z.of_nat (length l))%Z -> exists x, py_get l i = Ret x /\ l !! Z.to_nat i = Some x.
Proof.
  intros Hi. destruct (lookup_lt_is_Some_2 l (Z.to_nat i)) as [x Hx]; [lia|].
  exists x. split; [|done]. apply py_get_nonneg; [lia|done].
Qed.

Lemma py_get_Ret_lookup {A} (l : list A) i x :
  py_get l i = Ret x -> exists n, py_norm (length l) i = Some n /\ l !! n = Some x.
Proof.
  unfold py_get. destruct (py_norm (length l) i) as [n|]; [|discriminate].
  destruct (l !! n) eqn:E; [|discriminate]. intros [= <-]. eauto.
Qed.

(** ** The grid: what [bound] and the column list contain *)

Module GridFacts.
Import GridSearch GridSpec.

Lemma elem_of_stars_from row i x :
  x ∈ stars_from i row <-> exists n : nat, x = (i + Z.of_nat n)%Z /\ row !! n = Some "*"%char.
Proof.
  revert i. induction row as [|ch row IH]; intros i; simpl.
  - split; [intros H; by apply elem_of_nil in H|]. intros (n & _ & H). done.
  - destruct (Ascii.eqb ch "*") eqn:E.
    + apply Ascii.eqb_eq in E. subst ch. rewrite elem_of_cons, IH. split.
      * intros [->|(n & -> & Hn)].
        -- exists 0. split; [lia|done].
        -- exists (S n). split; [lia|done].
      * intros ([|n] & -> & Hn).
        -- left. lia.
        -- right. exists n. split; [lia|done].
    + apply Ascii.eqb_neq in E. rewrite IH. split.
      * intros (n & -> & Hn). exists (S n). split; [lia|done].
      * intros ([|n] & -> & Hn).
        -- simpl in Hn. congruence.
        -- exists n. split; [lia|done].
Qed.

Lemma elem_of_stars row x :
  x ∈ stars row <-> has_star_at x row.
Proof.
  unfold stars, has_star_at. rewrite elem_of_stars_from. split.
  - intros (n & -> & Hn). split; [lia|]. by rewrite Z.add_0_l, Nat2Z.id.
  - intros [H0 H]. exists (Z.to_nat x). split; [lia|done].
Qed.

Lemma length_stars_from row i :
  length (stars_from i row) = row_boundary_count row.
Proof.
  unfold row_boundary_count. revert i.
  induction row as [|ch row IH]; intros i; simpl; [done|].
  rewrite filter_cons. destruct (Ascii.eqb ch "*") eqn:E.
  - apply Ascii.eqb_eq in E. rewrite decide_True by done. simpl. by rewrite IH.
  - apply Ascii.eqb_neq in E. rewrite decide_False by done. apply IH.
Qed.

Lemma elem_of_column_from lay col i x :
  x ∈ column_from i (map stars lay) col <->
  exists n : nat, x = (i + Z.of_nat n)%Z /\
    exists row, lay !! n = Some row /\ has_star_at col row.
Proof.
  revert i. induction lay as [|r lay IH]; intros i; simpl.
  - split; [intros H; by apply elem_of_nil in H|]. intros (n & _ & row & H & _). done.
  - destruct (py_in col (stars r)) eqn:E.
    + apply py_in_true, elem_of_stars in E. rewrite elem_of_cons, IH. split.
      * intros [->|(n & -> & row & Hn & Hs)].
        -- exists 0. split; [lia|]. exists r. done.
        -- exists (S n). split; [lia|]. exists row. done.
      * intros ([|n] & -> & row & Hn & Hs).
        -- left. lia.
        -- right. exists n. split; [lia|]. exists row. done.
    + assert (~ has_star_at col r) as Hno.
      { intros H. apply elem_of_stars, py_in_true in H. congruence. }
      rewrite IH. split.
      * intros (n & -> & row & Hn & Hs). exists (S n). split; [lia|]. exists row. done.
      * intros ([|n] & -> & row & Hn & Hs).
        -- simpl in Hn. inversion Hn; subst. done.
        -- exists n. split; [lia|]. exists row. done.
Qed.

Lemma length_column_from lay col i :
  length (column_from i (map stars lay) col) = col_boundary_count lay col.
Proof.
  unfold col_boundary_count. revert i.
  induction lay as [|r lay IH]; intros i; simpl; [done|].
  rewrite filter_cons. destruct (py_in col (stars r)) eqn:E.
  - apply py_in_true, elem_of_stars in E. rewrite decide_True by done.
    simpl. by rewrite IH.
  - rewrite decide_False; [apply IH|].
    intros H. apply elem_of_stars, py_in_true in H. congruence.
Qed.

Lemma char_at_star lay r c :
  char_at lay r c = Some "*"%char <->
  (0 <= r)%Z /\ exists row, lay !! Z.to_nat r = Some row /\ has_star_at c row.
Proof.
  unfold char_at, has_star_at. split.
  - destruct (0 <=? r)%Z eqn:Er; [|discriminate].
    destruct (0 <=? c)%Z eqn:Ec; [|discriminate]. simpl.
    destruct (lay !! Z.to_nat r) as [row|] eqn:E; [|discriminate].
    intros H. split; [lia|]. exists row. repeat split; [lia|done].
  - intros (Hr & row & Hrow & Hc & H).
    destruct (0 <=? r)%Z eqn:Er; [|lia].
    destruct (0 <=? c)%Z eqn:Ec; [|lia]. simpl. by rewrite Hrow.
Qed.

Lemma elem_of_column lay col x :
  x ∈ column_from 0 (map stars lay) col <-> char_at lay x col = Some "*"%char.
Proof.
  rewrite elem_of_column_from, char_at_star. split.
  - intros (n & -> & row & Hn & Hs). split; [lia|].
    exists row. by rewrite Z.add_0_l, Nat2Z.id.
  - intros (Hx & row & Hn & Hs). exists (Z.to_nat x). split; [lia|]. eauto.
Qed.

Lemma within_column g row col :
  consistent g ->
  within (column_from 0 (bound g) col) row <-> row_between_walls g row col.
Proof.
  intros Hc. rewrite Hc. unfold within, row_between_walls, is_boundary. split.
  - intros (a & b & Ha & Hb & Hab). exists a, b.
    apply elem_of_column in Ha, Hb. done.
  - intros (a & b & Hab & Ha & Hb). exists a, b.
    apply elem_of_column in Ha, Hb. done.
Qed.

Lemma within_stars g row col lrow :
  (0 <= row)%Z -> layout g !! Z.to_nat row = Some lrow ->
  within (stars lrow) col <-> col_between_walls g row col.
Proof.
  intros Hrow Hl. unfold within, col_between_walls, is_boundary. split.
  - intros (a & b & Ha & Hb & Hab). exists a, b. split; [done|].
    rewrite !char_at_star. rewrite elem_of_stars in Ha, Hb. eauto 10.
  - intros (a & b & Hab & Ha & Hb). exists a, b.
    rewrite char_at_star in Ha, Hb.
    destruct Ha as (_ & ra & Hra & Ha). destruct Hb as (_ & rb & Hrb & Hb).
    rewrite Hl in Hra, Hrb. inversion Hra; inversion Hrb; subst.
    rewrite !elem_of_stars. done.
Qed.

End GridFacts.

Module GridValid.
Import GridSearch GridSpec GridFacts.

Lemma lookup_map {A B} (f : A -> B) (l : list A) (i : nat) :
  map f l !! i = f <$> (l !! i).
Proof. revert i. induction l as [|x l IH]; intros [|i]; simpl; auto. Qed.

Lemma consistent_length g : consistent g -> length (bound g) = length (layout g).
Proof. intros ->. apply length_map. Qed.

Lemma col_between_in_row g row col lrow :
  (0 <= row)%Z -> layout g !! Z.to_nat row = Some lrow ->
  col_between_walls g row col ->
  (0 <= col < Z.of_nat (length lrow))%Z.
Proof.
  intros Hrow Hl (c1 & c2 & Hc & H1 & H2).
  apply char_at_star in H1 as (_ & r1 & Hr1 & H01 & _).
  apply char_at_star in H2 as (_ & r2 & Hr2 & H02 & Hs2).
  rewrite Hl in Hr2. inversion Hr2; subst r2.
  apply lookup_lt_Some in Hs2. lia.
Qed.


Lemma is_valid_verdict g row col :
  consistent g -> verdict g row col (is_valid g row col).
Proof.
  intros Hc. pose proof (consistent_length g Hc) as Hlen.
  unfold is_valid. rewrite Hlen.
  destruct ((row >=? Z.of_nat (length (layout g)))%Z || (row <=? 0)%Z) eqn:E.
  { apply V_row. unfold row_in_range. apply orb_true_iff in E as [E|E]; lia. }
  apply orb_false_iff in E as [E1 E2].
  assert (row_in_range g row) as Hrow by (unfold row_in_range; lia).
  assert (0 <= row < Z.of_nat (length (layout g)))%Z as Hrow' by lia.
  destruct (py_get_in_range (layout g) row) as (lrow & _ & Hl); [done|].
  assert (py_get (bound g) row = Ret (stars lrow)) as ->.
  { apply py_get_nonneg; [lia|].
    rewrite Hc, lookup_map, Hl. done. }
  simpl bind.
  pose proof (within_stars g row col lrow) as Hws.
  destruct (decide (stars lrow = [])) as [Es|Es].
  { rewrite Es. simpl. apply V_empty_row; [done|].
    rewrite <- Hws; [|lia|done].
    intros H. apply within_nonempty in H. done. }
  destruct (py_max_nonempty _ Es) as [mx Hmx].
  destruct (py_min_nonempty _ Es) as [mn Hmn].
  pose proof (within_max_min _ col _ _ Hmx Hmn) as Hw.
  rewrite Hws in Hw by (try done; lia).
  rewrite Hmx. simpl bind.
  destruct (col >? mx)%Z eqn:E3.
  { apply V_col; [done|]. rewrite Hw. lia. }
  rewrite Hmn. simpl bind.
  destruct (col <? mn)%Z eqn:E4.
  { apply V_col; [done|]. rewrite Hw. lia. }
  assert (col_between_walls g row col) as Hcol by (apply Hw; lia).
  pose proof (length_column_from (layout g) col 0) as Hcnt.
  rewrite <- Hc in Hcnt.
  destruct (length (column_from 0 (bound g) col) <=? 1) eqn:E5.
  { apply V_exit; try done. apply Nat.leb_le in E5. lia. }
  apply Nat.leb_gt in E5.
  pose proof (within_column g row col Hc) as Hwc.
  assert (column_from 0 (bound g) col <> []) as Ene.
  { intros H. rewrite H in E5. simpl in E5. lia. }
  destruct (py_max_nonempty _ Ene) as [rmx Hrmx].
  destruct (py_min_nonempty _ Ene) as [rmn Hrmn].
  pose proof (within_max_min _ row _ _ Hrmx Hrmn) as Hw2.
  rewrite Hwc in Hw2.
  rewrite Hrmx. simpl bind.
  destruct (row >? rmx)%Z eqn:E6.
  { apply V_column; try done; [lia|]. rewrite Hw2. lia. }
  rewrite Hrmn. simpl bind.
  destruct (row <? rmn)%Z eqn:E7.
  { apply V_column; try done; [lia|]. rewrite Hw2. lia. }
  assert (row_between_walls g row col) as Hrb by (apply Hw2; lia).
  assert (py_get (layout g) row = Ret lrow) as ->.
  { apply py_get_nonneg; [lia|done]. }
  simpl bind.
  assert (0 <= col < Z.of_nat (length lrow))%Z as Hin.
  { apply (col_between_in_row g row col lrow); try done. lia. }
  destruct (py_get_in_range lrow col) as (ch & -> & Hch); [done|].
  simpl bind.
  assert (char_at (layout g) row col = Some ch) as Hat.
  { unfold char_at.
    destruct (0 <=? row)%Z eqn:Er; [|lia].
    destruct (0 <=? col)%Z eqn:Ec; [|lia]. simpl. by rewrite Hl. }
  destruct (Ascii.eqb ch "*") eqn:E8.
  - apply Ascii.eqb_eq in E8. subst ch. apply V_wall; try done. lia.
  - apply Ascii.eqb_neq in E8. apply V_inside; try done; [lia|].
    unfold is_boundary. rewrite Hat. congruence.
Qed.

End GridValid.

(** ** The grid: validity, loading and placement *)

Module GridClaims.
Import GridSearch GridSpec GridFacts GridValid Examples.


Lemma init_consistent rows g : init rows = Ret g -> consistent g.
Proof.
  unfold init, consistent. intros H.
  assert (forall rs bs, build_bound rs = Ret bs -> bs = map stars rs) as Hb.
  { induction rs as [|r rs IH]; simpl; intros bs Hbs; [by inversion Hbs|].
    destruct (length (stars r) <=? 1); [discriminate|].
    destruct (build_bound rs) as [bs'| |]; simpl in Hbs; try discriminate.
    inversion Hbs; subst. f_equal. by apply IH. }
  destruct (build_bound rows) as [bs| |] eqn:E; simpl in H; try discriminate.
  inversion H; subst; simpl. by apply Hb.
Qed.

Lemma build_bound_outcome rows :
  (Exists (fun row => row_boundary_count row < 2) rows /\
   build_bound rows = Raise (SystemExit bounds_msg)) \/
  (Forall (fun row => 2 <= row_boundary_count row) rows /\
   build_bound rows = Ret (map stars rows)).
Proof.
  induction rows as [|r rows IH]; simpl.
  - right. split; [constructor|done].
  - change (length (stars r)) with (length (stars_from 0 r)).
    rewrite length_stars_from.
    destruct (row_boundary_count r <=? 1) eqn:E.
    + apply Nat.leb_le in E. left. split; [|done]. apply Exists_cons_hd. lia.
    + apply Nat.leb_gt in E. destruct IH as [[H1 ->]|[H1 ->]]; simpl.
      * left. split; [|done]. by apply Exists_cons_tl.
      * right. split; [|done]. constructor; [lia|done].
Qed.

(** C1, as amended: on a grid whose [bound] matches its layout, [is_valid]
    returns [True] exactly for the cells that lie on a row below the first
    one, between two boundary cells of their row, between two boundary cells
    of their column, and that are not boundary cells themselves.  Whether the
    cell holds an obstacle plays no part. *)
Theorem is_valid_true_iff g row col :
  consistent g ->
  is_valid g row col = Ret true <-> region_valid g row col.
Proof.
  intros Hc. pose proof (is_valid_verdict g row col Hc) as Hv.
  unfold region_valid. split.
  - intros E. rewrite E in Hv. inversion Hv. done.
  - intros (H1 & H2 & H3 & H4).
    inversion Hv; try done.
    assert (2 <= col_boundary_count (layout g) col); [|lia].
    destruct H3 as (r1 & r2 & Hr & Hb1 & Hb2).
    destruct (decide (r1 = r2)) as [->|Hne].
    { assert (row = r2) as -> by lia. done. }
    rewrite <- (length_column_from _ _ 0).
    apply elem_of_column in Hb1, Hb2.
    destruct (decide (length (column_from 0 (map stars (layout g)) col) <= 1)) as [Hle|]; [|lia].
    exfalso. apply Hne. by apply (short_list_eq _ _ _ Hle).
Qed.

Lemma is_valid_true_iff_witness :
  consistent obstacle_grid /\
  (is_valid obstacle_grid 1 1 = Ret true <-> region_valid obstacle_grid 1 1).
Proof.
  split; [reflexivity|].
  apply (is_valid_true_iff obstacle_grid 1 1). reflexivity.
Defined.

(** C1, as the specification words it, fails on a loaded grid: the inner
    cell of [obstacle_grid] holds ["#"] and [is_valid] returns [True]. *)
Lemma is_valid_obstacle_counterexample :
  init obstacle_rows = Ret obstacle_grid /\
  is_obstacle obstacle_grid 1 1 /\
  is_valid obstacle_grid 1 1 = Ret true /\
  ~ (is_valid obstacle_grid 1 1 = Ret true <-> spec_valid obstacle_grid 1 1).
Proof.
  split; [reflexivity|]. split; [reflexivity|]. split; [reflexivity|].
  intros [H _]. destruct (H eq_refl) as (_ & _ & _ & _ & Hno).
  apply Hno. reflexivity.
Qed.

(** C3, as amended: [__init__] exits with the bounds message exactly when
    some row of the file has fewer than two boundary cells; when every row has
    two or more it returns the grid, whatever the columns hold. *)
Theorem init_checks_rows_only rows :
  (init rows = Raise (SystemExit bounds_msg) <->
   Exists (fun row => row_boundary_count row < 2) rows) /\
  (init rows = Ret (mk rows (map stars rows) None None None None None None) <->
   Forall (fun row => 2 <= row_boundary_count row) rows).
Proof.
  unfold init.
  destruct (build_bound_outcome rows) as [[H ->]|[H ->]]; simpl.
  - split; split; try done.
    intros HF. exfalso. rewrite Exists_exists in H. rewrite Forall_forall in HF.
    destruct H as (r & Hr & Hlt). specialize (HF r Hr). lia.
  - split; split; try done.
    intros HE. exfalso. rewrite Exists_exists in HE. rewrite Forall_forall in H.
    destruct HE as (r & Hr & Hlt). specialize (H r Hr). lia.
Qed.

(** C3, as worded, fails: the middle column of [open_column_rows] has one
    boundary cell and [__init__] returns the grid. *)
Lemma init_open_column_counterexample :
  col_boundary_count open_column_rows 1 = 1 /\
  init open_column_rows = Ret open_column_grid /\
  ~ rejects_rows_and_columns open_column_rows.
Proof.
  split; [reflexivity|]. split; [reflexivity|].
  intros H. assert (init open_column_rows = Raise (SystemExit bounds_msg)) as E.
  { apply H. right. exists 1%Z. split; [vm_compute; split; congruence|].
    vm_compute. lia. }
  discriminate E.
Qed.

(** C4: when [is_valid] returns [False] for the cell, each placement method
    raises its own [SystemExit], an exception that reaches the caller with the
    message of the method, before any assignment: the layout, the start and
    the goal of the object are left exactly as they were. *)
Theorem placement_invalid_is_noop g row col :
  is_valid g row col = Ret false ->
  set_start g row col = (Raise (SystemExit start_msg), g) /\
  set_goal g row col = (Raise (SystemExit goal_msg), g) /\
  add_obstacle g row col = (Raise (SystemExit obstacle_msg), g) /\
  del_obstacle g row col = (Raise (SystemExit obstacle_msg'), g).
Proof.
  intros H. unfold set_start, set_goal, add_obstacle, del_obstacle.
  rewrite H. done.
Qed.

Lemma placement_invalid_is_noop_witness :
  is_valid obstacle_grid 0 1 = Ret false /\
  set_start obstacle_grid 0 1 = (Raise (SystemExit start_msg), obstacle_grid) /\
  set_goal obstacle_grid 0 1 = (Raise (SystemExit goal_msg), obstacle_grid) /\
  add_obstacle obstacle_grid 0 1 = (Raise (SystemExit obstacle_msg), obstacle_grid) /\
  del_obstacle obstacle_grid 0 1 = (Raise (SystemExit obstacle_msg'), obstacle_grid).
Proof.
  split; [reflexivity|].
  apply (placement_invalid_is_noop obstacle_grid 0 1). reflexivity.
Defined.

(** C10, as amended: on a grid whose [bound] matches its layout, [is_valid]
    exits with the bounds message exactly when the row is below the first
    one, the column lies between two boundary cells of that row, and the
    column holds fewer than two boundary cells; the four placement methods
    then end with the same exit and leave the object as it was. *)
Theorem is_valid_exit_iff g row col :
  consistent g ->
  (is_valid g row col = Raise (SystemExit bounds_msg) <->
   row_in_range g row /\ col_between_walls g row col /\
   col_boundary_count (layout g) col < 2) /\
  (is_valid g row col = Raise (SystemExit bounds_msg) ->
   set_start g row col = (Raise (SystemExit bounds_msg), g) /\
   set_goal g row col = (Raise (SystemExit bounds_msg), g) /\
   add_obstacle g row col = (Raise (SystemExit bounds_msg), g) /\
   del_obstacle g row col = (Raise (SystemExit bounds_msg), g)).
Proof.
  intros Hc. pose proof (is_valid_verdict g row col Hc) as Hv. split.
  - split.
    + intros E. rewrite E in Hv. inversion Hv. done.
    + intros (H1 & H2 & H3). inversion Hv; try done; lia.
  - intros E. unfold set_start, set_goal, add_obstacle, del_obstacle.
    rewrite E. done.
Qed.

Lemma is_valid_exit_iff_witness :
  consistent open_column_grid /\
  is_valid open_column_grid 1 1 = Raise (SystemExit bounds_msg) /\
  set_start open_column_grid 1 1 = (Raise (SystemExit bounds_msg), open_column_grid).
Proof.
  split; [reflexivity|].
  destruct (is_valid_exit_iff open_column_grid 1 1 eq_refl) as [_ H].
  split; [reflexivity|]. apply H. reflexivity.
Defined.

(** C10, as worded, fails: the queried column of [open_column_grid] has one
    boundary cell, yet on row 0 [is_valid] returns [False]. *)
Lemma is_valid_short_column_counterexample :
  init open_column_rows = Ret open_column_grid /\
  col_boundary_count (layout open_column_grid) 1 = 1 /\
  is_valid open_column_grid 0 1 = Ret false /\
  ~ exits_on_short_column open_column_grid 0 1.
Proof.
  split; [reflexivity|]. split; [reflexivity|]. split; [reflexivity|].
  intros H. assert (is_valid open_column_grid 0 1 = Raise (SystemExit bounds_msg)) as E.
  { apply H. vm_compute. lia. }
  discriminate E.
Qed.

End GridClaims.

(** ** The grid: the placement methods keep [bound] in step with the layout *)

Module GridReach.
Import GridSearch GridSpec GridFacts GridValid.

Lemma stars_from_insert row : forall i c ch old,
  row !! c = Some old -> old <> "*"%char -> ch <> "*"%char ->
  stars_from i (<[c:=ch]> row) = stars_from i row.
Proof.
  induction row as [|x row IH]; intros i [|c] ch old Hc Hold Hch; simpl in *; try done.
  - injection Hc as ->.
    rewrite (proj2 (Ascii.eqb_neq _ _) Hch), (proj2 (Ascii.eqb_neq _ _) Hold). done.
  - rewrite (IH _ c ch old Hc Hold Hch). done.
Qed.

Lemma char_at_nonneg l r c x :
  char_at l r c = Some x ->
  (0 <= r)%Z /\ (0 <= c)%Z /\
  exists row, l !! Z.to_nat r = Some row /\ row !! Z.to_nat c = Some x.
Proof.
  unfold char_at.
  destruct (0 <=? r)%Z eqn:Er; [|done]. destruct (0 <=? c)%Z eqn:Ec; [|done]. simpl.
  destruct (l !! Z.to_nat r) as [row|] eqn:E; [|done].
  intros Hx. split; [lia|]. split; [lia|]. by exists row.
Qed.

Lemma char_at_lookup l r c row :
  (0 <= r)%Z -> (0 <= c)%Z -> l !! Z.to_nat r = Some row ->
  char_at l r c = row !! Z.to_nat c.
Proof.
  intros Hr Hc Hrow. unfold char_at.
  destruct (0 <=? r)%Z eqn:Er; [|lia]. destruct (0 <=? c)%Z eqn:Ec; [|lia]. simpl.
  by rewrite Hrow.
Qed.

(** Writing a character that is not ["*"] over one that is not ["*"]. *)
Lemma layout_set_ok l r c ch old :
  char_at l r c = Some old -> old <> "*"%char -> ch <> "*"%char ->
  exists l', layout_set l r c ch = Ret l' /\
    map stars l' = map stars l /\
    char_at l' r c = Some ch /\
    forall r' c' x, char_at l r' c' = Some x -> x <> "*"%char ->
                    exists y, char_at l' r' c' = Some y /\ y <> "*"%char.
Proof.
  intros Hat Hold Hch.
  destruct (char_at_nonneg _ _ _ _ Hat) as (Hr & Hc & row & Hrow & Hx).
  pose proof (lookup_lt_Some _ _ _ Hrow) as Hrlt.
  pose proof (lookup_lt_Some _ _ _ Hx) as Hclt.
  unfold layout_set.
  assert (py_get l r = Ret row) as -> by (apply py_get_nonneg; [lia|done]).
  simpl. unfold py_set. rewrite !py_norm_nonneg by lia. simpl.
  eexists. split; [done|].
  assert (forall r', <[Z.to_nat r:=<[Z.to_nat c:=ch]> row]> l !! r'
            = if decide (r' = Z.to_nat r) then Some (<[Z.to_nat c:=ch]> row) else l !! r')
    as Hlook.
  { intros r'. destruct (decide (r' = Z.to_nat r)) as [->|Hne].
    - by rewrite list_lookup_insert_eq.
    - by rewrite list_lookup_insert_ne. }
  split; [|split].
  - apply list_eq. intros i. rewrite !lookup_map, Hlook.
    destruct (decide (i = Z.to_nat r)) as [->|]; [|done].
    rewrite Hrow. simpl. f_equal. unfold stars. by apply (stars_from_insert _ _ _ _ old).
  - rewrite (char_at_lookup _ r c (<[Z.to_nat c:=ch]> row)); try done.
    + by rewrite list_lookup_insert_eq.
    + rewrite Hlook. by rewrite decide_True.
  - intros r' c' x Hat' Hx'.
    destruct (char_at_nonneg _ _ _ _ Hat') as (Hr' & Hc' & row' & Hrow' & Hx2).
    destruct (decide (Z.to_nat r' = Z.to_nat r)) as [Er|Er].
    + rewrite Er, Hrow in Hrow'. injection Hrow' as <-.
      rewrite (char_at_lookup _ r' c' (<[Z.to_nat c:=ch]> row)); try done.
      * destruct (decide (Z.to_nat c' = Z.to_nat c)) as [Ec|Ec].
        -- rewrite Ec, list_lookup_insert_eq by done. by exists ch.
        -- rewrite list_lookup_insert_ne by done. by exists x.
      * rewrite Hlook. by rewrite decide_True.
    + rewrite (char_at_lookup _ r' c' row'); try done.
      * by exists x.
      * rewrite Hlook. by rewrite decide_False.
Qed.

Lemma region_valid_char g row col :
  consistent g -> is_valid g row col = Ret true ->
  exists ch, char_at (layout g) row col = Some ch /\ ch <> "*"%char.
Proof.
  intros Hc Hv. pose proof (is_valid_verdict g row col Hc) as Hvd.
  rewrite Hv in Hvd. inversion Hvd as [| | | | | |Hrow Hcol _ _ Hnb].
  unfold row_in_range in Hrow.
  destruct (lookup_lt_is_Some_2 (layout g) (Z.to_nat row)) as [lrow Hl]; [lia|].
  pose proof (col_between_in_row g row col lrow ltac:(lia) Hl Hcol) as Hin.
  destruct (lookup_lt_is_Some_2 lrow (Z.to_nat col)) as [ch Hch]; [lia|].
  exists ch. rewrite (char_at_lookup _ row col lrow) by (try done; lia).
  split; [done|]. intros ->. apply Hnb. unfold is_boundary.
  by rewrite (char_at_lookup _ row col lrow) by (try done; lia).
Qed.

Lemma init_well_placed rows g : init rows = Ret g -> well_placed g.
Proof.
  intros Hinit. split; [by apply (GridClaims.init_consistent rows)|].
  unfold init in Hinit. destruct (build_bound rows); simpl in Hinit; try done.
  injection Hinit as <-. split; intros c Hc; done.
Qed.

Lemma marker_ok_kept g l' o :
  marker_ok g o ->
  (forall r' c' x, char_at (layout g) r' c' = Some x -> x <> "*"%char ->
                   exists y, char_at l' r' c' = Some y /\ y <> "*"%char) ->
  forall c, o = Some c -> exists ch, char_at l' (fst c) (snd c) = Some ch /\ ch <> "*"%char.
Proof.
  intros Hm Hkeep c Hc. destruct (Hm c Hc) as (ch & Hch & Hne). by apply (Hkeep _ _ ch).
Qed.

(** The two obstacle methods: one write at a valid cell. *)
Lemma write_well_placed g row col ch :
  well_placed g -> is_valid g row col = Ret true -> ch <> "*"%char ->
  exists l', layout_set (layout g) row col ch = Ret l' /\ well_placed (with_layout g l').
Proof.
  intros (Hc & Hs & Hg) Hv Hch.
  destruct (region_valid_char g row col Hc Hv) as (old & Hold & Hne).
  destruct (layout_set_ok _ _ _ ch old Hold Hne Hch) as (l' & Hset & Hstars & _ & Hkeep).
  exists l'. split; [done|]. split; [|split].
  - unfold consistent in *. simpl. by rewrite Hstars.
  - intros c. simpl. by apply (marker_ok_kept g l' (start g)).
  - intros c. simpl. by apply (marker_ok_kept g l' (goal g)).
Qed.

Lemma add_obstacle_well_placed g row col o g' :
  well_placed g -> add_obstacle g row col = (o, g') -> well_placed g'.
Proof.
  intros Hw. unfold add_obstacle.
  destruct (is_valid g row col) as [[]|e|] eqn:Hv; try (intros [= <- <-]; done).
  destruct (write_well_placed g row col "#" Hw Hv) as (l' & -> & Hw'); [done|].
  intros [= <- <-]. done.
Qed.

Lemma del_obstacle_well_placed g row col o g' :
  well_placed g -> del_obstacle g row col = (o, g') -> well_placed g'.
Proof.
  intros Hw. unfold del_obstacle.
  destruct (is_valid g row col) as [[]|e|] eqn:Hv; try (intros [= <- <-]; done).
  destruct (write_well_placed g row col " " Hw Hv) as (l' & -> & Hw'); [done|].
  intros [= <- <-]. done.
Qed.

(** [set_start] and [set_goal]: the old marker is cleared, the new one
    written. *)
Lemma set_start_well_placed g row col o g' :
  well_placed g -> set_start g row col = (o, g') -> well_placed g'.
Proof.
  intros Hw. pose proof Hw as (Hc & Hs & Hg). unfold set_start.
  destruct (is_valid g row col) as [[]|e|] eqn:Hv; try (intros [= <- <-]; done).
  destruct (region_valid_char g row col Hc Hv) as (old & Hold & Hne).
  assert (exists l1, match start g with
                     | Some (r0, c0) => layout_set (layout g) r0 c0 " "
                     | None => Ret (layout g)
                     end = Ret l1 /\
            map stars l1 = map stars (layout g) /\
            forall r' c' x, char_at (layout g) r' c' = Some x -> x <> "*"%char ->
                            exists y, char_at l1 r' c' = Some y /\ y <> "*"%char)
    as (l1 & -> & Hst1 & Hk1).
  { destruct (start g) as [[r0 c0]|] eqn:Es.
    - destruct (Hs (r0, c0) eq_refl) as (ch0 & Hch0 & Hne0). simpl in Hch0.
      destruct (layout_set_ok _ _ _ " " ch0 Hch0 Hne0) as (l1 & -> & H1 & _ & H2); [done|].
      by exists l1.
    - exists (layout g). repeat split; try done. intros r' c' x Hx Hn. by exists x. }
  destruct (Hk1 _ _ _ Hold Hne) as (old1 & Hold1 & Hne1).
  destruct (layout_set_ok l1 row col "S" old1 Hold1 Hne1) as (l2 & -> & Hst2 & Hat2 & Hk2); [done|].
  intros [= <- <-]. split; [|split].
  - unfold consistent in *. simpl. by rewrite Hst2, Hst1.
  - intros c. simpl. intros [= <-]. simpl. by exists "S"%char.
  - intros c. simpl. intros Hgc. destruct (Hg c Hgc) as (x & Hx & Hn).
    destruct (Hk1 _ _ _ Hx Hn) as (y & Hy & Hny). by apply (Hk2 _ _ y).
Qed.

Lemma set_goal_well_placed g row col o g' :
  well_placed g -> set_goal g row col = (o, g') -> well_placed g'.
Proof.
  intros Hw. pose proof Hw as (Hc & Hs & Hg). unfold set_goal.
  destruct (is_valid g row col) as [[]|e|] eqn:Hv; try (intros [= <- <-]; done).
  destruct (region_valid_char g row col Hc Hv) as (old & Hold & Hne).
  assert (exists l1, match goal g with
                     | Some (r0, c0) => layout_set (layout g) r0 c0 " "
                     | None => Ret (layout g)
                     end = Ret l1 /\
            map stars l1 = map stars (layout g) /\
            forall r' c' x, char_at (layout g) r' c' = Some x -> x <> "*"%char ->
                            exists y, char_at l1 r' c' = Some y /\ y <> "*"%char)
    as (l1 & -> & Hst1 & Hk1).
  { destruct (goal g) as [[r0 c0]|] eqn:Es.
    - destruct (Hg (r0, c0) eq_refl) as (ch0 & Hch0 & Hne0). simpl in Hch0.
      destruct (layout_set_ok _ _ _ " " ch0 Hch0 Hne0) as (l1 & -> & H1 & _ & H2); [done|].
      by exists l1.
    - exists (layout g). repeat split; try done. intros r' c' x Hx Hn. by exists x. }
  destruct (Hk1 _ _ _ Hold Hne) as (old1 & Hold1 & Hne1).
  destruct (layout_set_ok l1 row col "G" old1 Hold1 Hne1) as (l2 & -> & Hst2 & Hat2 & Hk2); [done|].
  intros [= <- <-]. split; [|split].
  - unfold consistent in *. simpl. by rewrite Hst2, Hst1.
  - intros c. simpl. intros Hsc. destruct (Hs c Hsc) as (x & Hx & Hn).
    destruct (Hk1 _ _ _ Hx Hn) as (y & Hy & Hny). by apply (Hk2 _ _ y).
  - intros c. simpl. intros [= <-]. simpl. by exists "G"%char.
Qed.

End GridReach.

(** ** Dictionaries and the predecessor chain *)

Module SearchFacts.
Import GridSearch Search GridSpec SearchSpec FenceSpec.

Section DictFacts.
Context {V : Type}.
Implicit Types (d : dict V) (k : cell).

Lemma dict_get_None d k : dict_get d k = None <-> k ∉ map fst d.
Proof.
  induction d as [|[k' v] d IH]; simpl.
  - split; [intros _ H; by apply elem_of_nil in H|done].
  - destruct (decide (k' = k)) as [->|Hne].
    + split; [done|]. intros H. exfalso. apply H. left.
    + rewrite IH, not_elem_of_cons. split; [intros; split; congruence|by intros []].
Qed.

Lemma dict_mem_true d k : dict_mem d k = true <-> k ∈ map fst d.
Proof.
  unfold dict_mem. destruct (dict_get d k) eqn:E.
  - split; [|done]. intros _.
    destruct (decide (k ∈ map fst d)) as [|Hn]; [done|].
    apply dict_get_None in Hn. congruence.
  - apply dict_get_None in E. split; [done|]. intros H. done.
Qed.

Lemma dict_mem_false d k : dict_mem d k = false <-> k ∉ map fst d.
Proof.
  rewrite <- dict_mem_true. destruct (dict_mem d k); split; done.
Qed.

Lemma dict_set_fresh d k v : dict_mem d k = false -> dict_set d k v = (k, v) :: d.
Proof. unfold dict_set. by intros ->. Qed.

Lemma dict_get_is_Some d k : is_Some (dict_get d k) <-> k ∈ map fst d.
Proof.
  rewrite <- dict_mem_true. unfold dict_mem.
  destruct (dict_get d k); split; try done; try (by eexists).
Qed.

Lemma dict_get_replace d k k' v :
  is_Some (dict_get d k') -> is_Some (dict_get (dict_replace d k v) k').
Proof.
  induction d as [|[k0 v0] d IH]; simpl; [done|].
  destruct (decide (k0 = k)) as [->|Hne]; simpl.
  - destruct (decide (k = k')); [by eexists|done].
  - destruct (decide (k0 = k')); [by eexists|done].
Qed.

Lemma dict_get_set d k k' v :
  is_Some (dict_get d k') \/ k = k' -> is_Some (dict_get (dict_set d k v) k').
Proof.
  unfold dict_set. destruct (dict_mem d k) eqn:E.
  - intros [H| <-].
    + by apply dict_get_replace.
    + apply dict_get_replace. unfold dict_mem in E.
      destruct (dict_get d k); [by eexists|done].
  - simpl. destruct (decide (k = k')); [by eexists|]. intros [H|H]; done.
Qed.

End DictFacts.

(** Walking back from a key of a well-formed predecessor dictionary ends at
    the start, within as many steps as the dictionary has keys. *)

Lemma wf_prev_start s d : wf_prev s d -> s ∈ map fst d.
Proof.
  induction 1; simpl.
  - left.
  - by right.
Qed.

Lemma get_path_loop_extend fuel d nb v c acc r :
  dict_mem d nb = false ->
  get_path_loop fuel d (Some c) acc = Ret r ->
  get_path_loop fuel ((nb, v) :: d) (Some c) acc = Ret r.
Proof.
  intros Hnb. revert c acc. induction fuel as [|fuel IH]; intros c acc; simpl; [done|].
  destruct (dict_get d c) as [p|] eqn:E; [|done].
  destruct (decide (nb = c)) as [->|Hne].
  { unfold dict_mem in Hnb. rewrite E in Hnb. done. }
  destruct p as [c'|]; [apply IH|by destruct fuel].
Qed.

Lemma get_path_loop_chain s d :
  wf_prev s d ->
  forall c, c ∈ map fst d ->
  forall fuel acc, length d <= fuel ->
  exists p, get_path_loop fuel d (Some c) acc = Ret (acc ++ p) /\
            head p = Some c /\ last p = Some s /\ length p <= length d.
Proof.
  induction 1 as [|d nb cur Hwf IH Hcur Hnb]; intros c Hc fuel acc Hfuel.
  - simpl in Hc. apply list_elem_of_singleton in Hc. subst c.
    destruct fuel as [|fuel]; [simpl in Hfuel; lia|]. simpl.
    rewrite decide_True by done. exists [s].
    destruct fuel; simpl; repeat split; try done; lia.
  - simpl in Hfuel. destruct fuel as [|fuel]; [lia|].
    simpl in Hc. apply elem_of_cons in Hc as [->|Hc].
    + simpl. rewrite decide_True by done.
      apply dict_mem_true in Hcur.
      destruct (IH cur Hcur fuel (acc ++ [nb])) as (p & Hp & Hh & Hl & Hlen); [lia|].
      exists (nb :: p). split.
      { rewrite (get_path_loop_extend _ _ _ _ _ _ _ Hnb Hp).
        by rewrite <- app_assoc. }
      split; [done|]. split; [|simpl; lia].
      destruct p; [done|]. by rewrite last_cons_cons.
    + destruct (IH c Hc (S fuel) acc) as (p & Hp & Hh & Hl & Hlen); [lia|].
      exists p. split; [|repeat split; try done; simpl; lia].
      by apply get_path_loop_extend.
Qed.

Lemma rev_is_reverse {A} (l : list A) : rev l = reverse l.
Proof. by rewrite rev_alt. Qed.

Lemma get_path_wf s c d fuel g :
  wf_prev s d -> goal g = Some c -> c ∈ map fst d -> length d <= fuel ->
  exists p, get_path fuel g d = Ret p /\ head p = Some s /\ last p = Some c.
Proof.
  intros Hwf Hg Hc Hfuel. unfold get_path. rewrite Hg.
  destruct (get_path_loop_chain s d Hwf c Hc fuel [] Hfuel) as (p & -> & Hh & Hl & _).
  simpl. exists (rev p). split; [done|].
  rewrite rev_is_reverse, head_reverse, last_reverse. done.
Qed.

(** ** Positions that indexing can reach *)

Lemma py_norm_range len i n :
  py_norm len i = Some n -> (- Z.of_nat len <= i < Z.of_nat len)%Z.
Proof.
  unfold py_norm. intros H.
  destruct (0 <=? i)%Z eqn:E0.
  - destruct (i <? Z.of_nat len)%Z eqn:E1; [lia|discriminate].
  - destruct (- Z.of_nat len <=? i)%Z eqn:E1; [lia|discriminate].
Qed.

Lemma elem_of_zrange n x :
  x ∈ zrange n <-> (- Z.of_nat n <= x < Z.of_nat n)%Z.
Proof.
  unfold zrange. rewrite list_elem_of_In, in_map_iff. split.
  - intros (k & <- & Hk). apply in_seq in Hk. lia.
  - intros H. exists (Z.to_nat (x + Z.of_nat n)). split; [lia|].
    apply in_seq. lia.
Qed.

Lemma layout_get_universe l c ch :
  layout_get l c = Ret ch -> c ∈ universe l.
Proof.
  destruct c as [r k]. unfold layout_get, universe. simpl.
  destruct (py_get l r) as [row| |] eqn:E; simpl; try discriminate.
  intros Hk. rewrite list_elem_of_In, in_flat_map. exists r. split.
  - apply list_elem_of_In, elem_of_zrange.
    apply py_get_Ret_lookup in E as (n & Hn & _). by apply py_norm_range in Hn.
  - rewrite E. apply in_map, list_elem_of_In, elem_of_zrange.
    apply py_get_Ret_lookup in Hk as (n & Hn & _). by apply py_norm_range in Hn.
Qed.

Lemma layout_get_in_bounds l c :
  in_bounds l c -> exists ch, layout_get l c = Ret ch /\ char_at l (fst c) (snd c) = Some ch.
Proof.
  destruct c as [r k]. unfold in_bounds, char_at, layout_get. simpl.
  destruct (0 <=? r)%Z eqn:Er; [|by intros [? ?]].
  destruct (0 <=? k)%Z eqn:Ek; [|by intros [? ?]]. simpl.
  destruct (l !! Z.to_nat r) as [row|] eqn:Erow; [|by intros [? ?]].
  intros [ch Hch]. exists ch. split; [|done].
  assert (py_get l r = Ret row) as -> by (apply py_get_nonneg; [lia|done]).
  simpl. apply py_get_nonneg; [lia|done].
Qed.

(** ** The loop of a search *)

Lemma order_dir_halts g draw : order_dir g draw <> Diverge.
Proof.
  unfold order_dir, random_choice.
  destruct (offset g); [|done]. destruct (prob g) as [p|]; [|done].
  by destruct (choice_accepts _ p).
Qed.

(** With the offsets set and probabilities that the library accepts,
    [order_dir] returns. *)
Lemma order_dir_returns g draw :
  motion_ok g = true -> exists idx, order_dir g draw = Ret idx.
Proof.
  unfold motion_ok, order_dir, random_choice.
  destruct (offset g) as [offs|]; [|done].
  destruct (prob g) as [p|]; [|by eexists].
  intros ->. by eexists.
Qed.

Section EngineFacts.
Context {F G : Type}.
Context (f_is_empty : F -> bool) (f_take : F -> outcome (cell * F))
        (f_add : G -> cell -> cell -> F -> outcome (F * G)).
Context (cells : F -> list cell) (Finv : F -> Prop) (has : G -> cell -> Prop)
        (ready : Prop).
Context (FS : frontier_spec f_is_empty f_take f_add cells Finv has ready).
Context (g : t) (s : cell).

Local Abbreviation binv := (basic_inv cells Finv has g s).
Local Abbreviation visit' := (visit f_add g).
Local Abbreviation expand' := (expand f_add g).
Local Abbreviation loop' := (loop f_is_empty f_take f_add).

Lemma basic_inv_note_read st c : binv st -> binv (note_read st c).
Proof. intros []. by constructor. Qed.

Lemma visit_basic cur st d r st' :
  binv st -> cur ∈ pushes (log st) -> visit' cur st d = (r, st') ->
  binv st' /\ r <> Diverge /\ pops (log st') = pops (log st) /\
  (forall c, c ∈ pushes (log st) -> c ∈ pushes (log st')).
Proof.
  intros HI Hcur. unfold visit.
  destruct (offset g) as [offs|]; [|intros [= <- <-]; done].
  destruct (offs !! d) as [[dr dc]|]; [|intros [= <- <-]; done].
  set (nb := ((cur.1 + dr)%Z, (cur.2 + dc)%Z)).
  destruct (layout_get (layout g) nb) as [ch| |] eqn:Ech.
  2:{ intros [= <- <-]. split; [by apply basic_inv_note_read|done]. }
  2:{ exfalso. unfold layout_get in Ech.
      destruct (py_get (layout g) nb.1) as [row| |] eqn:E1; simpl in Ech; try done.
      - unfold py_get in Ech. destruct (py_norm _ _); [destruct (_ !! _)|]; done.
      - unfold py_get in E1. destruct (py_norm _ _); [destruct (_ !! _)|]; done. }
  destruct (negb (Ascii.eqb ch "#") && negb (Ascii.eqb ch "*")
            && negb (dict_mem (previous st) nb)) eqn:Etest.
  2:{ intros [= <- <-]. split; [by apply basic_inv_note_read|done]. }
  apply andb_true_iff in Etest as [_ Hfresh]. apply negb_true_iff in Hfresh.
  destruct (f_add (costs st) cur nb (frontier st)) as [[f' c']| |] eqn:Eadd.
  2:{ intros [= <- <-]. split; [by apply basic_inv_note_read|done]. }
  2:{ exfalso. by apply (fs_add_halts _ _ _ _ _ _ _ FS _ _ _ _ (bi_finv _ _ _ _ _ _ HI)) in Eadd. }
  intros [= <- <-]. simpl.
  destruct HI as [Hf Hflow Hkeys Hnd Hadd Hvis Hprev Hcosts Hknown].
  destruct (fs_add_ret _ _ _ _ _ _ _ FS _ _ _ _ _ _ Hf Eadd) as (Hf' & Hcells & Hhas & Hmono).
  assert (nb ∉ pushes (log st)) as Hnotin.
  { rewrite <- Hkeys. by apply dict_mem_false. }
  split; [|split; [done|split; [done|intros c Hc; by right]]].
  constructor; simpl.
  - done.
  - rewrite Hcells, Hflow. by rewrite Permutation_middle.
  - rewrite dict_set_fresh by done. simpl. by rewrite Hkeys.
  - by constructor.
  - lia.
  - done.
  - rewrite dict_set_fresh by done. apply wf_step; [done| |done].
    apply dict_mem_true. by rewrite Hkeys.
  - intros c [->|Hc]%elem_of_cons; [done|]. apply Hmono. by apply Hcosts.
  - intros c [->|Hc]%elem_of_cons; [|by apply Hknown].
    right. by apply (layout_get_universe _ _ ch).
Qed.

Lemma expand_basic cur idx st r st' :
  binv st -> cur ∈ pushes (log st) -> expand' cur idx st = (r, st') ->
  binv st' /\ r <> Diverge /\ pops (log st') = pops (log st) /\
  (forall c, c ∈ pushes (log st) -> c ∈ pushes (log st')).
Proof.
  revert st. induction idx as [|d idx IH]; intros st HI Hcur; simpl.
  - intros [= <- <-]. done.
  - destruct (visit' cur st d) as [r1 st1] eqn:Ev.
    destruct (visit_basic _ _ _ _ _ HI Hcur Ev) as (HI1 & Hr1 & Hp1 & Hs1).
    destruct r1 as [[]| |].
    + intros He. destruct (IH st1 HI1 (Hs1 _ Hcur) He) as (HI2 & Hr2 & Hp2 & Hs2).
      split; [done|]. split; [done|]. split; [congruence|]. auto.
    + intros [= <- <-]. done.
    + done.
Qed.

Lemma pushes_bounded st :
  binv st -> length (pushes (log st)) <= S (length (universe (layout g))).
Proof.
  intros HI.
  change (S (length (universe (layout g)))) with (length (s :: universe (layout g))).
  apply submseteq_length, NoDup_submseteq; [by destruct HI|].
  intros c Hc. destruct (bi_known _ _ _ _ _ _ HI c Hc) as [->|H]; [left|by right].
Qed.

Lemma popped_was_pushed st c f' :
  binv st -> cells (frontier st) ≡ₚ c :: cells f' ->
  c ∈ pushes (log st) /\
  pushes (log st) ≡ₚ (c :: pops (log st)) ++ cells f' /\
  length (pops (log st)) < length (pushes (log st)).
Proof.
  intros HI Hc. pose proof (bi_flow _ _ _ _ _ _ HI) as Hflow.
  rewrite Hc in Hflow. rewrite <- Permutation_middle in Hflow.
  split; [|split].
  - rewrite Hflow. left.
  - done.
  - rewrite Hflow. simpl. rewrite length_app. lia.
Qed.

Lemma loop_basic rng fuel : forall tick st r st',
  binv st -> search_fuel g <= fuel + length (pops (log st)) ->
  loop' rng g fuel tick st = (r, st') ->
  binv st' /\ loop_outcome f_is_empty g s st r st'.
Proof.
  unfold search_fuel.
  induction fuel as [|fuel IH]; intros tick st r st' HI Hfuel; simpl.
  - destruct (f_is_empty (frontier st)) eqn:Eempty; intros [= <- <-].
    { split; [done|]. simpl. done. }
    exfalso.
    destruct (fs_take _ _ _ _ _ _ _ FS _ (bi_finv _ _ _ _ _ _ HI) Eempty)
      as (c & f' & _ & _ & Hc).
    destruct (popped_was_pushed _ _ _ HI Hc) as (_ & _ & Hlt).
    pose proof (pushes_bounded _ HI). lia.
  - destruct (f_is_empty (frontier st)) eqn:Eempty.
    { intros [= <- <-]. split; [done|]. simpl. done. }
    destruct (fs_take _ _ _ _ _ _ _ FS _ (bi_finv _ _ _ _ _ _ HI) Eempty)
      as (c & f' & -> & Hf' & Hc).
    destruct (popped_was_pushed _ _ _ HI Hc) as (Hin & Hflow & Hlt).
    pose proof (pushes_bounded _ HI) as Hbound.
    set (st1 := mkst f' (costs st) (previous st) (n_added st) (n_visited st + 1)
                     (mktrace (reads (log st)) (pushes (log st)) (c :: pops (log st)))).
    assert (binv st1) as HI1.
    { destruct HI. constructor; simpl; try done. lia. }
    destruct (decide (Some c = goal g)) as [Hgoal|Hgoal].
    { destruct (get_path_wf s c (previous st) fuel g) as (p & -> & Hh & Hl).
      - by destruct HI.
      - done.
      - by rewrite (bi_keys _ _ _ _ _ _ HI).
      - rewrite <- (length_map fst), (bi_keys _ _ _ _ _ _ HI). lia.
      - simpl. intros [= <- <-]. split; [done|]. simpl. exists c. done. }
    destruct (order_dir g (rng tick)) as [idx| |] eqn:Eidx.
    2:{ intros [= <- <-]. done. }
    2:{ exfalso. by apply order_dir_halts in Eidx. }
    destruct (expand' c idx st1) as [r2 st2] eqn:Eexp.
    destruct (expand_basic _ _ _ _ _ HI1 Hin Eexp) as (HI2 & Hr2 & Hp2 & _).
    destruct r2 as [[]| |]; [|intros [= <- <-]; done|done].
    intros Hloop.
    destruct (IH (S tick) st2 r st' HI2) as [HI' Hout]; [rewrite Hp2; simpl; lia|done|].
    split; [done|].
    destruct r as [[p|]| |]; simpl in *; try done.
    destruct Hout as [He Hno]. split; [done|].
    intros t Ht Hin'. specialize (Hno t Ht Hin'). rewrite Hp2 in Hno.
    apply elem_of_cons in Hno as [->|Hno]; [congruence|done].
Qed.

Lemma loop_inv rng fuel : forall tick st r st',
  binv st -> loop' rng g fuel tick st = (r, st') -> binv st'.
Proof.
  induction fuel as [|fuel IH]; intros tick st r st' HI; simpl.
  - destruct (f_is_empty (frontier st)); intros [= <- <-]; done.
  - destruct (f_is_empty (frontier st)) eqn:Eempty; [intros [= <- <-]; done|].
    destruct (fs_take _ _ _ _ _ _ _ FS _ (bi_finv _ _ _ _ _ _ HI) Eempty)
      as (c & f' & -> & Hf' & Hc).
    destruct (popped_was_pushed _ _ _ HI Hc) as (Hin & Hflow & Hlt).
    set (st1 := mkst f' (costs st) (previous st) (n_added st) (n_visited st + 1)
                     (mktrace (reads (log st)) (pushes (log st)) (c :: pops (log st)))).
    assert (binv st1) as HI1.
    { destruct HI. constructor; simpl; try done. lia. }
    destruct (decide (Some c = goal g)); [intros [= <- <-]; done|].
    destruct (order_dir g (rng tick)) as [idx| |]; try (intros [= <- <-]; done).
    destruct (expand' c idx st1) as [r2 st2] eqn:Eexp.
    destruct (expand_basic _ _ _ _ _ HI1 Hin Eexp) as (HI2 & _).
    destruct r2 as [[]| |]; try (intros [= <- <-]; done).
    by apply IH.
Qed.

End EngineFacts.

(** *** On a fenced grid *)

Lemma in_boundsb_true l c : in_boundsb l c = true <-> in_bounds l c.
Proof.
  unfold in_boundsb, in_bounds.
  destruct (char_at l c.1 c.2); split; try done; try (by eexists); by intros [? ?].
Qed.

(** What [fence_check] accepts is fenced: the walks from the start stay in
    the region. *)
Lemma fence_check_fenced g region : fence_check g region = true -> fenced g.
Proof.
  unfold fence_check. intros Hcheck c offs d Hreach Hoffs Hd.
  rewrite Hoffs in Hcheck. apply andb_true_iff in Hcheck as [Hs Hall].
  rewrite forallb_forall in Hall.
  assert (forall a e, a ∈ region -> e ∈ offs ->
            exists ch, char_at (layout g) (shift a e).1 (shift a e).2 = Some ch /\
                       (open_char ch = true -> shift a e ∈ region)) as Hstep.
  { intros a e Ha He. apply list_elem_of_In, Hall in Ha.
    rewrite forallb_forall in Ha. apply list_elem_of_In, Ha in He.
    destruct (char_at (layout g) (shift a e).1 (shift a e).2) as [ch|]; [|done].
    exists ch. split; [done|]. intros Hopen. rewrite Hopen in He.
    by apply bool_decide_eq_true in He. }
  assert (c ∈ region) as Hc.
  { clear Hd. induction Hreach as [s Hstart|a b _ IH (offs' & e & Ho & He & ->) (ch & Hget & Hopen)].
    - rewrite Hstart in Hs. by apply bool_decide_eq_true in Hs.
    - rewrite Hoffs in Ho. injection Ho as <-.
      destruct (Hstep a e IH He) as (ch' & Hch' & Hin).
      destruct (layout_get_in_bounds (layout g) (shift a e)) as (ch'' & Hget' & Hch'');
        [by eexists|].
      apply Hin. congruence. }
  destruct (Hstep c d Hc Hd) as (ch & Hch & _). by eexists.
Qed.

Section EngineSafe.
Context {F G : Type}.
Context (f_is_empty : F -> bool) (f_take : F -> outcome (cell * F))
        (f_add : G -> cell -> cell -> F -> outcome (F * G)).
Context (cells : F -> list cell) (Finv : F -> Prop) (has : G -> cell -> Prop)
        (ready : Prop).
Context (FS : frontier_spec f_is_empty f_take f_add cells Finv has ready).
Context (g : t) (s : cell).
Context (Hfen : fenced g).

Local Abbreviation binv := (basic_inv cells Finv has g s).
Local Abbreviation sinv := (safe_inv g).
Local Abbreviation visit' := (visit f_add g).
Local Abbreviation expand' := (expand f_add g).
Local Abbreviation loop' := (loop f_is_empty f_take f_add).


Lemma visit_safe cur st d r st' :
  binv st -> sinv st -> cur ∈ pushes (log st) -> visit' cur st d = (r, st') ->
  sinv st' /\ (ready -> motion_ok g = true -> in_range g d -> r = Ret tt).
Proof.
  intros HI HS Hcur. unfold visit.
  destruct (offset g) as [offs|] eqn:Hoffs.
  2:{ intros [= <- <-]. split; [done|]. intros _ Hm. unfold motion_ok in Hm.
      by rewrite Hoffs in Hm. }
  destruct (offs !! d) as [[dr dc]|] eqn:Ed.
  2:{ intros [= <- <-]. split; [done|]. intros _ _ Hd.
      apply lookup_ge_None in Ed. specialize (Hd offs Hoffs). lia. }
  set (nb := ((cur.1 + dr)%Z, (cur.2 + dc)%Z)).
  pose proof (si_pushes _ _ HS cur Hcur) as Hreach.
  assert ((dr, dc) ∈ offs) as Hd by (by apply list_elem_of_lookup_2 in Ed).
  assert (in_bounds (layout g) nb) as Hnb.
  { by apply (Hfen cur offs (dr, dc)). }
  destruct (layout_get_in_bounds _ _ Hnb) as (ch & Hget & Hch). rewrite Hget.
  assert (sinv (note_read st nb)) as HS1.
  { destruct HS as [Hp Hr]. constructor; simpl; [done|by constructor]. }
  destruct (negb (Ascii.eqb ch "#") && negb (Ascii.eqb ch "*")
            && negb (dict_mem (previous st) nb)) eqn:Etest.
  2:{ intros [= <- <-]. done. }
  apply andb_true_iff in Etest as [Hopen _].
  destruct (f_add (costs st) cur nb (frontier st)) as [[f' c']| |] eqn:Eadd.
  - intros [= <- <-]. split; [|done].
    destruct HS1 as [Hp Hr]. constructor; simpl in *; [|done].
    intros c [->|Hc]%elem_of_cons; [|by apply Hp].
    apply (PathSpec.reach_move g cur nb Hreach).
    + by exists offs, (dr, dc).
    + by exists ch.
  - intros [= <- <-]. split; [done|]. intros Hready _ _. exfalso.
    destruct (fs_add_total _ _ _ _ _ _ _ FS (frontier st) (costs st) cur nb)
      as (f' & gv' & E); try done.
    + by destruct HI.
    + by apply (bi_costs _ _ _ _ _ _ HI).
    + congruence.
  - intros [= <- <-]. split; [done|]. intros _ _ _. exfalso.
    by apply (fs_add_halts _ _ _ _ _ _ _ FS _ _ _ _ (bi_finv _ _ _ _ _ _ HI)) in Eadd.
Qed.

Lemma expand_safe cur idx st r st' :
  binv st -> sinv st -> cur ∈ pushes (log st) -> expand' cur idx st = (r, st') ->
  sinv st' /\ (ready -> motion_ok g = true -> Forall (in_range g) idx -> r = Ret tt).
Proof.
  revert st. induction idx as [|d idx IH]; intros st HI HS Hcur; simpl.
  - intros [= <- <-]. done.
  - destruct (visit' cur st d) as [r1 st1] eqn:Ev.
    destruct (visit_basic _ _ _ _ _ _ _ FS _ _ _ _ _ _ _ HI Hcur Ev) as (HI1 & _ & _ & Hs1).
    destruct (visit_safe _ _ _ _ _ HI HS Hcur Ev) as [HS1 Hr1].
    destruct r1 as [[]| |].
    + intros He. destruct (IH st1 HI1 HS1 (Hs1 _ Hcur) He) as [HS2 Hr2].
      split; [done|]. intros Hready Hm Hall. apply Hr2; [done|done|].
      by apply Forall_cons in Hall as [_ ?].
    + intros [= <- <-]. split; [done|]. intros Hready Hm Hall.
      apply Forall_cons in Hall as [Hd _]. by apply Hr1.
    + intros [= <- <-]. split; [done|]. intros Hready Hm Hall.
      apply Forall_cons in Hall as [Hd _]. by apply Hr1.
Qed.

Lemma order_dir_in_range rng tick idx :
  draws_in_range g rng -> order_dir g (rng tick) = Ret idx -> Forall (in_range g) idx.
Proof.
  intros Hrng. unfold order_dir, random_choice.
  destruct (offset g) as [offs|] eqn:Eo; [|done].
  destruct (prob g) as [p|].
  - destruct (choice_accepts _ p); [|done]. intros [= <-]. specialize (Hrng offs Eo tick).
    eapply Forall_impl; [exact Hrng|]. intros d Hd offs' Ho.
    rewrite Eo in Ho. by inversion Ho; subst.
  - intros [= <-]. apply Forall_forall. intros d Hd offs' Ho.
    rewrite Eo in Ho. inversion Ho; subst.
    apply list_elem_of_In, in_seq in Hd. lia.
Qed.

Lemma loop_safe rng fuel : forall tick st r st',
  binv st -> sinv st ->
  loop' rng g fuel tick st = (r, st') ->
  sinv st' /\
  (ready -> motion_ok g = true -> draws_in_range g rng ->
   search_fuel g <= fuel + length (pops (log st)) ->
   forall e, r <> Raise e).
Proof.
  induction fuel as [|fuel IH]; intros tick st r st' HI HS; simpl.
  - destruct (f_is_empty (frontier st)) eqn:Eempty; intros [= <- <-]; done.
  - destruct (f_is_empty (frontier st)) eqn:Eempty.
    { intros [= <- <-]. done. }
    destruct (fs_take _ _ _ _ _ _ _ FS _ (bi_finv _ _ _ _ _ _ HI) Eempty)
      as (c & f' & -> & Hf' & Hc).
    destruct (popped_was_pushed _ _ _ _ _ _ _ FS _ _ _ _ _ HI Hc) as (Hin & Hflow & Hlt).
    pose proof (pushes_bounded _ _ _ _ _ _ _ FS _ _ _ HI) as Hbound.
    set (st1 := mkst f' (costs st) (previous st) (n_added st) (n_visited st + 1)
                     (mktrace (reads (log st)) (pushes (log st)) (c :: pops (log st)))).
    assert (binv st1) as HI1.
    { destruct HI. constructor; simpl; try done. lia. }
    assert (sinv st1) as HS1.
    { destruct HS. by constructor. }
    destruct (decide (Some c = goal g)) as [Hgoal|Hgoal].
    { intros [= <- <-]. split; [done|]. intros _ _ _ Hfuel e.
      destruct (get_path_wf s c (previous st) fuel g) as (p & Hp & _).
      - by destruct HI.
      - done.
      - by rewrite (bi_keys _ _ _ _ _ _ HI).
      - rewrite <- (length_map fst), (bi_keys _ _ _ _ _ _ HI).
        unfold search_fuel in Hfuel. lia.
      - simpl. rewrite Hp. done. }
    destruct (order_dir g (rng tick)) as [idx| |] eqn:Eidx.
    2:{ intros [= <- <-]. split; [done|]. intros _ Hm _ _ e' _.
        destruct (order_dir_returns g (rng tick) Hm) as [idx Hidx]. congruence. }
    2:{ intros [= <- <-]. done. }
    destruct (expand' c idx st1) as [r2 st2] eqn:Eexp.
    destruct (expand_basic _ _ _ _ _ _ _ FS _ _ _ _ _ _ _ HI1 Hin Eexp)
      as (HI2 & Hr2 & Hp2 & _).
    destruct (expand_safe _ _ _ _ _ HI1 HS1 Hin Eexp) as [HS2 Hok].
    destruct r2 as [[]|e|].
    + intros Hloop. destruct (IH (S tick) st2 r st' HI2 HS2 Hloop) as [HS' Hnr].
      split; [done|]. intros Hready Hm Hrng Hfuel. apply Hnr; try done.
      rewrite Hp2. simpl. lia.
    + intros [= <- <-]. split; [done|]. intros Hready Hm Hrng _ e' _.
      assert (@Raise unit e = Ret tt) as Habs; [|done].
      apply Hok; [done|done|]. by apply (order_dir_in_range rng tick).
    + done.
Qed.

End EngineSafe.

End SearchFacts.

(** ** The containers as frontiers *)

Module FrontierFacts.
Import GridSearch Search SearchSpec SearchFacts FrontierSpec.

(** *** Stack *)


Lemma list_pop_snoc {A} (l : list A) :
  l <> [] -> exists x l', l = l' ++ [x] /\ Stack.list_pop l = Ret (x, l').
Proof.
  intros Hne. destruct (last l) as [x|] eqn:E.
  - apply last_Some in E as [l' ->]. exists x, l'. split; [done|].
    unfold Stack.list_pop. by rewrite last_snoc, removelast_last.
  - by apply last_None in E.
Qed.

Lemma stack_frontier :
  frontier_spec Stack.is_empty stack_take stack_add Stack.items stack_inv
                (fun _ _ => True) True.
Proof.
  constructor.
  - intros [its n]. unfold stack_inv, Stack.is_empty. simpl. intros ->.
    rewrite Nat.eqb_eq. by destruct its.
  - intros [its n]. unfold stack_inv, Stack.is_empty, stack_take, Stack.pop.
    simpl. intros -> Hne. rewrite Hne. apply Nat.eqb_neq in Hne.
    destruct (list_pop_snoc its) as (x & l' & -> & ->); [by destruct its|].
    simpl. exists x, (Stack.mk l' (length (l' ++ [x]) - 1)). split; [done|].
    split; simpl.
    + rewrite length_app. simpl. lia.
    + by rewrite Permutation_app_comm.
  - intros [its n] gv cur nb f' gv'. unfold stack_inv, stack_add, Stack.push.
    simpl. intros -> [= <- <-]. simpl. split; [|split; [|done]].
    + rewrite length_app. simpl. lia.
    + by rewrite Permutation_app_comm.
  - intros. unfold stack_add. eauto.
  - intros. unfold stack_add. done.
Qed.

(** *** Queue *)


Lemma queue_frontier :
  frontier_spec Queue.is_empty queue_take queue_add Queue.items queue_inv
                (fun _ _ => True) True.
Proof.
  constructor.
  - intros [its n]. unfold queue_inv, Queue.is_empty. simpl. intros ->.
    rewrite Nat.eqb_eq. by destruct its.
  - intros [its n]. unfold queue_inv, Queue.is_empty, queue_take, Queue.dequeue.
    simpl. intros -> Hne. rewrite Hne. apply Nat.eqb_neq in Hne.
    destruct its as [|x l']; [done|]. simpl.
    exists x, (Queue.mk l' (S (length l') - 1)). split; [done|].
    split; simpl; [lia|done].
  - intros [its n] gv cur nb f' gv'. unfold queue_inv, queue_add, Queue.enqueue.
    simpl. intros -> [= <- <-]. simpl. split; [|split; [|done]].
    + rewrite length_app. simpl. lia.
    + by rewrite Permutation_app_comm.
  - intros. unfold queue_add. eauto.
  - intros. unfold queue_add. done.
Qed.

End FrontierFacts.

(** From here on [lia] also decides goals with [/] by a constant. *)
Ltac Zify.zify_post_hook ::= Z.to_euclidean_division_equations.
Arguments Nat.div : simpl never.

(** ** The priority queue: where [put] inserts *)

Module PQFacts.
Import PriorityQueue PQSpec.

Lemma prio_le_refl a : prio_le a a = true.
Proof. destruct a; simpl; try done. lia. Qed.

Lemma prio_le_trans a b c :
  prio_le a b = true -> prio_le b c = true -> prio_le a c = true.
Proof. destruct a, b, c; simpl; try done. lia. Qed.

Lemma prio_le_total a b : prio_le a b = false -> prio_le b a = true.
Proof. destruct a, b; simpl; try done. lia. Qed.

Lemma prio_le_antisym a b :
  prio_le a b = true -> prio_le b a = true -> a = b.
Proof.
  destruct a, b; simpl; try done. intros H1 H2. f_equal. lia.
Qed.

Lemma ple_refl qt a : ple qt a a = true.
Proof. unfold ple. destruct (String.eqb qt "max"); apply prio_le_refl. Qed.

Lemma ple_trans qt a b c :
  ple qt a b = true -> ple qt b c = true -> ple qt a c = true.
Proof.
  unfold ple. destruct (String.eqb qt "max"); intros H1 H2.
  - by apply (prio_le_trans c b a).
  - by apply (prio_le_trans a b c).
Qed.

Lemma ple_total qt a b : ple qt a b = false -> ple qt b a = true.
Proof. unfold ple. destruct (String.eqb qt "max"); apply prio_le_total. Qed.

Lemma ple_antisym qt a b :
  ple qt a b = true -> ple qt b a = true -> a = b.
Proof.
  unfold ple. destruct (String.eqb qt "max"); intros H1 H2.
  - by apply prio_le_antisym.
  - by apply prio_le_antisym.
Qed.

Section Facts.
Context {A : Type}.
Implicit Types (q : t A) (its real : list (prio * slot A)).


Lemma search_spec qt its priority : forall fuel left right,
  left < right -> right < length its -> right - left <= fuel ->
  exists l, search fuel qt its priority left right = Ret (l, l + 1) /\
            left <= l /\ l + 1 <= right /\
            (l = left \/ flag_at qt its priority l = true) /\
            (l + 1 = right \/ flag_at qt its priority (l + 1) = false).
Proof.
  induction fuel as [|fuel IH]; intros left right Hlr Hlen Hfuel; [lia|].
  simpl. destruct (left + 1 <? right) eqn:E.
  - apply Nat.ltb_lt in E.
    set (middle := (left + right) / 2).
    assert (left < middle < right) as Hm by (subst middle; lia).
    destruct (lookup_lt_is_Some_2 its middle) as [[p x] Hp]; [lia|].
    rewrite Hp.
    change (if String.eqb qt "max" then prio_le priority p else prio_le p priority)
      with (ple qt p priority).
    destruct (ple qt p priority) eqn:Eflag.
    + destruct (IH middle right) as (l & -> & H1 & H2 & H3 & H4); [lia|lia|lia|].
      exists l. split; [done|]. split; [lia|]. split; [lia|]. split; [|done].
      right. destruct H3 as [->|H3]; [|done].
      unfold flag_at. by rewrite Hp.
    + destruct (IH left middle) as (l & -> & H1 & H2 & H3 & H4); [lia|lia|lia|].
      exists l. split; [done|]. split; [lia|]. split; [lia|]. split; [done|].
      right. destruct H4 as [->|H4]; [|done].
      unfold flag_at. by rewrite Hp.
  - apply Nat.ltb_ge in E. assert (right = left + 1) as -> by lia.
    exists left. repeat split; try lia; by left.
Qed.

Lemma list_insert_at_shape lo hi real (x : prio * slot A) l :
  l <= length real ->
  list_insert_at (l + 1) x (lo :: real ++ [hi])
  = lo :: (take l real ++ x :: drop l real) ++ [hi].
Proof.
  intros Hl. unfold list_insert_at.
  replace (l + 1) with (S l) by lia. simpl.
  rewrite take_app_le, drop_app_le by lia.
  by rewrite <- app_assoc.
Qed.

Lemma put_shape q lo hi real priority item :
  shape q lo hi real ->
  exists l, l <= length real /\
    put q priority item
    = Ret (mk (queue_type q)
              (lo :: (take l real ++ (priority, Item item) :: drop l real) ++ [hi])
              (size q + 1)) /\
    (l = 0 \/ exists e, real !! (l - 1) = Some e /\ ple (queue_type q) (fst e) priority = true) /\
    (l = length real \/ exists e, real !! l = Some e /\ ple (queue_type q) (fst e) priority = false).
Proof.
  intros [Hits Hsize]. unfold put.
  destruct (search_spec (queue_type q) (items q) priority (size q + 1 - 0) 0 (size q + 1))
    as (l & -> & _ & Hl & Hlo & Hhi); [lia| |lia|].
  { rewrite Hits. simpl. rewrite length_app. simpl. lia. }
  simpl. exists l. split; [lia|]. split.
  { rewrite Hits. rewrite list_insert_at_shape by lia. done. }
  unfold flag_at in Hlo, Hhi. rewrite Hits in Hlo, Hhi. split.
  - destruct Hlo as [->|Hlo]; [by left|]. destruct l as [|l]; [by left|]. right.
    simpl in Hlo. rewrite lookup_app_l in Hlo by lia.
    replace (S l - 1) with l by lia.
    destruct (real !! l) as [[p x]|]; [|done]. by exists (p, x).
  - destruct Hhi as [Hhi|Hhi]; [left; lia|].
    destruct (decide (l = length real)) as [|Hne]; [by left|]. right.
    replace (l + 1) with (S l) in Hhi by lia. simpl in Hhi.
    rewrite lookup_app_l in Hhi by lia.
    destruct (real !! l) as [[p x]|] eqn:E.
    + by exists (p, x).
    + apply lookup_ge_None in E. lia.
Qed.

Lemma get_shape q lo hi real :
  shape q lo hi real ->
  match real with
  | [] => get q = Ret (None, q)
  | x :: rest => get q = Ret (Some x, mk (queue_type q) (lo :: rest ++ [hi]) (size q - 1))
  end.
Proof.
  intros [Hits Hsize]. unfold get. rewrite Hsize.
  destruct real as [|x rest]; simpl; [done|]. by rewrite Hits.
Qed.

Lemma init_shape qt :
  exists lo hi, init (A:=A) None qt = Ret (mk qt [lo; hi] 0) /\
    shape (mk (A:=A) qt [lo; hi] 0) lo hi [].
Proof.
  unfold init, sentinels. destruct (String.eqb qt "max"); eexists _, _; done.
Qed.

End Facts.

(** *** Sorted by priority, first in first out among equals *)


Lemma comes_before_ple qt e1 e2 :
  comes_before qt e1 e2 -> ple qt (fst e1) (fst e2) = true.
Proof.
  intros [H|[-> _]]; [|apply ple_refl].
  unfold plt in H. apply negb_true_iff in H. by apply ple_total.
Qed.

Lemma sorted_insert qt n (real : list (prio * slot nat)) priority l :
  StronglySorted (comes_before qt) real ->
  Forall (stamped n) real ->
  (l = 0 \/ exists e, real !! (l - 1) = Some e /\ ple qt (fst e) priority = true) ->
  (l = length real \/ exists e, real !! l = Some e /\ ple qt (fst e) priority = false) ->
  StronglySorted (comes_before qt) (take l real ++ (priority, Item n) :: drop l real).
Proof.
  intros Hs Hst Hlo Hhi.
  rewrite <- (take_drop l real) in Hs.
  apply StronglySorted_app in Hs as (Hcross & Hs1 & Hs2).
  assert (forall x, x ∈ take l real -> ple qt (fst x) priority = true) as Hbefore.
  { intros x Hx. destruct Hlo as [->|(e & He & Hple)].
    { rewrite take_0 in Hx. by apply elem_of_nil in Hx. }
    assert (0 < l) as Hl0.
    { destruct l; [|lia]. rewrite take_0 in Hx. by apply elem_of_nil in Hx. }
    replace l with (S (l - 1)) in Hx, Hs1 by lia.
    rewrite (take_S_r _ _ _ He) in Hx, Hs1.
    apply elem_of_app in Hx as [Hx|Hx].
    - apply (ple_trans qt _ (fst e)); [|done]. apply comes_before_ple.
      apply (StronglySorted_app_1_elem_of _ _ _ _ _ Hs1 Hx). left.
    - apply list_elem_of_singleton in Hx. by subst. }
  assert (forall x, x ∈ drop l real -> ple qt (fst x) priority = false) as Hafter.
  { intros x Hx. destruct Hhi as [->|(e & He & Hple)].
    { rewrite drop_all in Hx. by apply elem_of_nil in Hx. }
    rewrite (drop_S _ _ _ He) in Hx, Hs2.
    apply StronglySorted_cons in Hs2 as [Hall _].
    destruct (ple qt (fst x) priority) eqn:E; [|done].
    apply elem_of_cons in Hx as [->|Hx]; [congruence|].
    rewrite Forall_forall in Hall. specialize (Hall x Hx).
    apply comes_before_ple in Hall.
    rewrite (ple_trans qt _ _ _ Hall E) in Hple. done. }
  apply StronglySorted_app. split; [|split; [done|]].
  - intros x1 x2 Hx1 Hx2. apply elem_of_cons in Hx2 as [->|Hx2]; [|by apply Hcross].
    specialize (Hbefore x1 Hx1). unfold comes_before, plt. simpl.
    destruct (ple qt priority (fst x1)) eqn:E; [|by left]. right.
    split; [by apply (ple_antisym qt)|].
    rewrite Forall_forall in Hst. destruct (Hst x1) as [_ Hlt]; [|done].
    apply elem_of_take in Hx1 as (i & Hi & _). by apply list_elem_of_lookup_2 in Hi.
  - apply StronglySorted_cons. split; [|done].
    apply Forall_forall. intros x Hx. left. unfold plt. simpl.
    by rewrite (Hafter x Hx).
Qed.

End PQFacts.

(** *** Runs of [put] and [get] *)

Module PQClaims.
Import PriorityQueue PQSpec PQFacts.

Lemma stamped_mono n m e : n <= m -> stamped n e -> stamped m e.
Proof. intros Hnm [H1 H2]. split; [done|lia]. Qed.

Lemma run_sorted qt : forall ops n q lo hi real,
  shape q lo hi real -> queue_type q = qt ->
  StronglySorted (comes_before qt) real -> Forall (stamped n) real ->
  exists q' outs real',
    run ops n q = Ret (q', outs) /\ shape q' lo hi real' /\
    StronglySorted (comes_before qt) real' /\
    outs ++ real' ≡ₚ real ++ puts_of ops n.
Proof.
  induction ops as [|[priority|] ops IH]; intros n q lo hi real Hsh Hqt Hs Hst; simpl.
  - exists q, [], real. rewrite app_nil_r. done.
  - destruct (put_shape q lo hi real priority n Hsh) as (l & Hl & -> & Hlo & Hhi).
    simpl. rewrite Hqt in Hlo, Hhi.
    set (real1 := take l real ++ (priority, Item n) :: drop l real).
    destruct (IH (S n) (mk (PriorityQueue.queue_type q) (lo :: real1 ++ [hi]) (size q + 1))
                 lo hi real1) as (q' & outs & real' & -> & Hsh' & Hs' & Hperm).
    + destruct Hsh as [_ Hsize]. split; [done|]. simpl. subst real1.
      rewrite length_app. simpl. rewrite length_take, length_drop. lia.
    + done.
    + by apply sorted_insert.
    + subst real1. apply Forall_app. split.
      * apply Forall_take. eapply Forall_impl; [done|]. intros e. apply stamped_mono. lia.
      * constructor; [unfold stamped, is_item, stamp; simpl; split; [done|lia]|].
        apply Forall_drop. eapply Forall_impl; [done|]. intros e. apply stamped_mono. lia.
    + exists q', outs, real'. repeat split; try done; try apply Hsh'.
      rewrite Hperm. subst real1. rewrite <- Permutation_middle.
      rewrite <- (Permutation_middle real). by rewrite take_drop.
  - pose proof (get_shape q lo hi real Hsh) as Hget.
    destruct real as [|x rest].
    + rewrite Hget. simpl.
      destruct (IH n q lo hi [] Hsh Hqt Hs Hst) as (q' & outs & real' & -> & Hsh' & Hs' & Hperm).
      simpl. exists q', outs, real'. done.
    + rewrite Hget. simpl.
      apply StronglySorted_cons in Hs as [_ Hs]. apply Forall_cons in Hst as [_ Hst].
      destruct (IH n (mk (PriorityQueue.queue_type q) (lo :: rest ++ [hi]) (size q - 1))
                   lo hi rest) as (q' & outs & real' & -> & Hsh' & Hs' & Hperm); try done.
      { destruct Hsh as [_ Hsize]. split; [done|]. simpl in *. lia. }
      simpl. exists q', (x :: outs), real'. repeat split; try done; try apply Hsh'.
      simpl. by rewrite Hperm.
Qed.

Lemma drain_shape : forall real fuel q lo hi,
  shape q lo hi real -> length real <= fuel -> drain fuel q = Ret real.
Proof.
  induction real as [|x rest IH]; intros fuel q lo hi Hsh Hfuel;
    pose proof (get_shape q lo hi _ Hsh) as Hget.
  - destruct fuel; simpl; rewrite Hget; done.
  - destruct fuel as [|fuel]; [simpl in Hfuel; lia|]. simpl. rewrite Hget. simpl.
    rewrite (IH fuel _ lo hi); [done| |simpl in Hfuel; lia].
    destruct Hsh as [_ Hsize]. split; [done|]. simpl in *. lia.
Qed.

(** C6: on a queue of either type, after any run of [put] and [get] calls,
    getting until the queue is empty yields the entries still stored in the
    order of the queue type (not decreasing for a min queue, not increasing
    for a max queue), entries of equal priority in the order they were put;
    the entries got during the run and at the end are those that were put. *)
Theorem pq_sorted_fifo (queue_type : string) (ops : list op) :
  exists q0 q outs rest,
    init None queue_type = Ret q0 /\
    run ops 0 q0 = Ret (q, outs) /\
    drain (size q) q = Ret rest /\
    StronglySorted (comes_before queue_type) rest /\
    outs ++ rest ≡ₚ puts_of ops 0.
Proof.
  destruct (init_shape (A:=nat) queue_type) as (lo & hi & Hinit & Hsh).
  destruct (run_sorted queue_type ops 0 _ lo hi [] Hsh eq_refl)
    as (q & outs & rest & Hrun & Hsh' & Hs & Hperm); [constructor|constructor|].
  exists (mk queue_type [lo; hi] 0), q, outs, rest.
  repeat split; try done.
  apply (drain_shape rest _ q lo hi Hsh'). destruct Hsh' as [_ ->]. done.
Qed.

(** The run at the end of [PriorityQueue.py], with integer priorities. *)
Example pq_equal_priorities :
  let ops := [Put (Num 3); Put (Num 6); Put (Num 1); Put (Num 4); Put (Num 3); Put (Num 3)] in
  (let* q0 := init None "min" in
   let* r := run ops 0 q0 in drain (size (fst r)) (fst r))
  = Ret [(Num 1, Item 2); (Num 3, Item 0); (Num 3, Item 4); (Num 3, Item 5);
         (Num 4, Item 3); (Num 6, Item 1)].
Proof. reflexivity. Qed.

End PQClaims.

(** ** The binary heap: the two sifting loops *)

Module HeapFacts.
Import BinaryHeap HeapSpec.

Local Arguments Nat.mul : simpl never.

Global Instance Z_PyOrdLaws : PyOrdLaws Z.
Proof.
  split; unfold py_lt, Z_PyOrd.
  - intros a. apply Z.ltb_irrefl.
  - intros a b c. rewrite !Z.ltb_lt. lia.
  - intros a b. rewrite !Z.ltb_ge. lia.
Qed.

Global Instance pair_PyOrdLaws {A B} `{EqDecision A} `{PyOrdLaws A} `{PyOrdLaws B} :
  PyOrdLaws (A * B).
Proof.
  split; unfold py_lt, pair_PyOrd.
  - intros [a b]. simpl. rewrite decide_True by done. apply py_lt_irrefl.
  - intros [a1 b1] [a2 b2] [a3 b3]. simpl.
    destruct (decide (a1 = a2)) as [->|H12]; destruct (decide (a2 = a3)) as [->|H23].
    + apply py_lt_trans.
    + done.
    + rewrite decide_False by done. done.
    + intros Ha Hb. pose proof (py_lt_trans _ _ _ Ha Hb) as Hac.
      destruct (decide (a1 = a3)) as [->|]; [|done].
      pose proof (py_lt_trans _ _ _ Hb Ha) as Habs.
      by rewrite py_lt_irrefl in Habs.
  - intros [a1 b1] [a2 b2]. simpl.
    destruct (decide (a1 = a2)) as [->|H12].
    + rewrite decide_True by done. intros Hx Hy. f_equal. by apply py_lt_total.
    + rewrite decide_False by done. intros Hx Hy. exfalso. apply H12.
      by apply py_lt_total.
Qed.

Lemma list_pop_snoc_inv {B} (l : list B) :
  l <> [] -> exists x l', l = l' ++ [x].
Proof.
  intros Hne. destruct (last l) as [x|] eqn:E.
  - apply last_Some in E as [l' ->]. by exists x, l'.
  - by apply last_None in E.
Qed.

Section Facts.
Context {A : Type} `{PyOrdLaws A}.
Implicit Types (its : list A) (ht : string).

Lemma before_irrefl ht a : before ht a a = false.
Proof. unfold before. destruct (String.eqb ht "max"); apply py_lt_irrefl. Qed.

Lemma before_trans ht a b c :
  before ht a b = true -> before ht b c = true -> before ht a c = true.
Proof.
  unfold before. destruct (String.eqb ht "max"); intros H1 H2.
  - by apply (py_lt_trans c b a).
  - by apply (py_lt_trans a b c).
Qed.

Lemma before_total ht a b :
  before ht a b = false -> before ht b a = false -> a = b.
Proof.
  unfold before. destruct (String.eqb ht "max"); intros H1 H2.
  - by apply py_lt_total.
  - by apply py_lt_total.
Qed.

Lemma before_asym ht a b : before ht a b = true -> before ht b a = false.
Proof.
  intros Hab. destruct (before ht b a) eqn:E; [|done].
  pose proof (before_trans _ _ _ _ Hab E) as Haa.
  by rewrite before_irrefl in Haa.
Qed.

Lemma before_negtrans ht a b c :
  before ht a b = false -> before ht b c = false -> before ht a c = false.
Proof.
  intros Hab Hbc. destruct (before ht a c) eqn:Eac; [|done].
  destruct (before ht c b) eqn:Ecb.
  - by rewrite (before_trans _ _ _ _ Eac Ecb) in Hab.
  - assert (b = c) as -> by (by apply (before_total ht)). congruence.
Qed.

Lemma before_le_lt ht a b c :
  before ht a b = false -> before ht c b = true -> before ht a c = false.
Proof.
  intros Hab Hcb. destruct (before ht a c) eqn:Eac; [|done].
  by rewrite (before_trans _ _ _ _ Eac Hcb) in Hab.
Qed.

(** The tests of the source are [before]. *)
Lemma swap_test ht (p c : A) :
  (if String.eqb ht "max" then py_lt p c else py_lt c p) = before ht c p.
Proof. done. Qed.

Lemma at_index_Some its i x : its !! i = Some x -> at_index its i = Ret x.
Proof. unfold at_index. by intros ->. Qed.

Lemma exchange_Ret its i j xi xj :
  its !! i = Some xi -> its !! j = Some xj ->
  exchange its i j = Ret (<[j:=xi]> (<[i:=xj]> its)).
Proof.
  intros Hi Hj. unfold exchange.
  by rewrite (at_index_Some _ _ _ Hj), (at_index_Some _ _ _ Hi).
Qed.

Lemma exchanged_lookup its i j xi xj k :
  its !! i = Some xi -> its !! j = Some xj -> i <> j ->
  <[j:=xi]> (<[i:=xj]> its) !! k
  = if decide (k = j) then Some xi else if decide (k = i) then Some xj else its !! k.
Proof.
  intros Hi Hj Hne.
  pose proof (lookup_lt_Some _ _ _ Hi). pose proof (lookup_lt_Some _ _ _ Hj).
  destruct (decide (k = j)) as [->|Hkj].
  - rewrite list_lookup_insert_eq; [done|]. by rewrite length_insert.
  - rewrite list_lookup_insert_ne by done.
    destruct (decide (k = i)) as [->|Hki].
    + by rewrite list_lookup_insert_eq.
    + by rewrite list_lookup_insert_ne.
Qed.

Lemma insert_swap_perm its : forall i a b,
  its !! i = Some b -> a :: its ≡ₚ b :: <[i:=a]> its.
Proof.
  induction its as [|x its IH]; intros [|i] a b Hi; simpl in *; try done.
  - inversion Hi; subst. apply perm_swap.
  - rewrite (perm_swap x a). rewrite (IH i a b Hi).
    rewrite (perm_swap b x). done.
Qed.

Lemma exchanged_perm its : forall i j xi xj,
  its !! i = Some xi -> its !! j = Some xj -> i <> j ->
  <[j:=xi]> (<[i:=xj]> its) ≡ₚ its.
Proof.
  induction its as [|x its IH]; intros [|i] [|j] xi xj Hi Hj Hne; simpl in *; try done.
  - inversion Hi; subst. symmetry. by apply insert_swap_perm.
  - inversion Hj; subst. symmetry. by apply insert_swap_perm.
  - f_equiv. apply IH; try done. lia.
Qed.

Lemma find_min_max_spec ht its size ip :
  length its = size + 1 -> 1 <= ip -> 2 * ip <= size ->
  exists ic c, find_min_max its ip ht = Ret ic /\ its !! ic = Some c /\
    ic / 2 = ip /\ ip < ic /\
    forall i o, i / 2 = ip -> its !! i = Some o -> before ht o c = false.
Proof.
  intros Hlen Hip Hsize. unfold find_min_max. rewrite Hlen.
  replace (size + 1 - 1) with size by lia.
  destruct (lookup_lt_is_Some_2 its (2 * ip)) as [l Hl]; [lia|].
  destruct (size <? 2 * ip + 1) eqn:E.
  - apply Nat.ltb_lt in E. exists (2 * ip), l. repeat split; try done; try lia.
    intros i o Hi Ho. apply lookup_lt_Some in Ho as Hlt.
    assert (i = 2 * ip) as -> by lia.
    rewrite Hl in Ho. inversion Ho; subst. apply before_irrefl.
  - apply Nat.ltb_ge in E.
    destruct (lookup_lt_is_Some_2 its (2 * ip + 1)) as [r Hr]; [lia|].
    rewrite (at_index_Some _ _ _ Hl), (at_index_Some _ _ _ Hr). simpl.
    change (if String.eqb ht "max" then py_lt r l else py_lt l r) with (before ht l r).
    destruct (before ht l r) eqn:Eb.
    + exists (2 * ip), l. repeat split; try done; try lia.
      intros i o Hi Ho. assert (i = 2 * ip \/ i = 2 * ip + 1) as [->| ->] by lia.
      * rewrite Hl in Ho. inversion Ho; subst. apply before_irrefl.
      * rewrite Hr in Ho. inversion Ho; subst. by apply before_asym.
    + exists (2 * ip + 1), r. repeat split; try done; try lia.
      intros i o Hi Ho. assert (i = 2 * ip \/ i = 2 * ip + 1) as [->| ->] by lia.
      * rewrite Hl in Ho. inversion Ho; subst. done.
      * rewrite Hr in Ho. inversion Ho; subst. apply before_irrefl.
Qed.

Lemma swap_down_loop_spec ht size : forall fuel its ip,
  length its = size + 1 -> 1 <= ip -> size < fuel + ip ->
  exists its', swap_down_loop fuel ht its size ip = Ret its' /\
    its' ≡ₚ its /\ length its' = length its /\ its' !! 0 = its !! 0 /\
    (forall k, 1 <= k -> k <= ip -> down_inv ht k its ip -> ordered_from ht k its').
Proof.
  assert (forall its ip, length its = size + 1 -> (2 * ip <=? size) = false ->
            forall k, down_inv ht k its ip -> ordered_from ht k its) as Hexit.
  { intros its ip Hlen E k [Ha Hb] i Hi p c Hp Hc.
    apply Nat.leb_gt in E. destruct (decide (i / 2 = ip)) as [Heq|Hne].
    - apply lookup_lt_Some in Hc. lia.
    - by apply (Ha i Hi Hne p c). }
  induction fuel as [|fuel IH]; intros its ip Hlen Hip Hfuel.
  { simpl. destruct (2 * ip <=? size) eqn:E; [apply Nat.leb_le in E; lia|].
    exists its. do 4 (split; [done|]). intros k _ _. by apply (Hexit its ip). }
  simpl. destruct (2 * ip <=? size) eqn:E.
  2:{ exists its. do 4 (split; [done|]). intros k _ _. by apply (Hexit its ip). }
  apply Nat.leb_le in E.
  destruct (find_min_max_spec ht its size ip Hlen Hip E)
    as (ic & c & -> & Hc & Hic & Hlt & Hbest).
  destruct (lookup_lt_is_Some_2 its ip) as [p Hp]; [lia|].
  simpl. rewrite (at_index_Some _ _ _ Hp), (at_index_Some _ _ _ Hc). simpl.
  rewrite swap_test. assert (ip <> ic) as Hne by lia.
  destruct (before ht c p) eqn:Eb.
  - rewrite (exchange_Ret _ _ _ _ _ Hp Hc). simpl.
    set (its1 := <[ic:=p]> (<[ip:=c]> its)).
    destruct (IH its1 ic) as (its' & -> & Hperm & Hlen' & Hz & Hord);
      [subst its1; by rewrite !length_insert|lia|lia|].
    exists its'. split; [done|]. split.
    { rewrite Hperm. by apply exchanged_perm. }
    split; [subst its1; by rewrite Hlen', !length_insert|]. split.
    { rewrite Hz. subst its1. rewrite (exchanged_lookup _ _ _ _ _ _ Hp Hc Hne).
      rewrite !decide_False by lia. done. }
    intros k Hk1 Hk [Ha Hb]. apply Hord; [done|lia|]. subst its1. split.
    + intros i Hki Hnic P C HP HC.
      rewrite (exchanged_lookup _ _ _ _ _ _ Hp Hc Hne) in HP.
      rewrite (exchanged_lookup _ _ _ _ _ _ Hp Hc Hne) in HC.
      rewrite decide_False in HP by done.
      destruct (decide (i / 2 = ip)) as [Hpar|Hpar].
      * injection HP as <-. rewrite (decide_False (P:=i = ip)) in HC by lia.
        destruct (decide (i = ic)) as [Hi|Hi].
        -- injection HC as <-. by apply before_asym.
        -- by apply (Hbest i C).
      * rewrite decide_False in HC by lia.
        destruct (decide (i = ip)) as [Hi|Hi].
        -- injection HC as <-. rewrite Hi in HP, Hki. by apply (Hb ic P c).
        -- by apply (Ha i Hki Hpar P C).
    + intros i g C Hi Hkic Hg HC.
      rewrite (exchanged_lookup _ _ _ _ _ _ Hp Hc Hne) in Hg.
      rewrite (exchanged_lookup _ _ _ _ _ _ Hp Hc Hne) in HC.
      rewrite decide_False in Hg by lia. rewrite decide_True in Hg by lia.
      injection Hg as <-. rewrite !decide_False in HC by lia.
      apply (Ha i ltac:(lia) ltac:(lia) c C); [by rewrite Hi|done].
  - simpl. destruct (IH its ic) as (its' & -> & Hperm & Hlen' & Hz & Hord); [done|lia|lia|].
    exists its'. do 4 (split; [done|]).
    intros k Hk1 Hk [Ha Hb]. apply Hord; [done|lia|]. split.
    + intros i Hki Hnic P C HP HC. destruct (decide (i / 2 = ip)) as [Heq|Hn].
      * rewrite Heq, Hp in HP. injection HP as <-.
        apply (before_negtrans ht C c p); [by apply (Hbest i C)|done].
      * by apply (Ha i Hki Hn P C).
    + intros i g C Hi Hkic Hg HC. rewrite Hic, Hp in Hg. injection Hg as <-.
      apply (before_negtrans ht C c p); [|done].
      apply (Ha i ltac:(lia) ltac:(lia) c C); [by rewrite Hi|done].
Qed.

Lemma swap_up_loop_spec ht : forall fuel its ic,
  ic < length its -> ic <= fuel ->
  exists its', swap_up_loop fuel ht its ic = Ret its' /\
    its' ≡ₚ its /\ length its' = length its /\ its' !! 0 = its !! 0 /\
    (up_inv ht its ic -> ordered_from ht 1 its').
Proof.
  assert (forall its ic, (0 <? ic / 2) = false ->
            up_inv ht its ic -> ordered_from ht 1 its) as Hexit.
  { intros its ic E [Ha Hb] i Hi. apply Nat.ltb_ge in E. apply Ha; [done|lia]. }
  induction fuel as [|fuel IH]; intros its ic Hlen Hfuel.
  { simpl. destruct (0 <? ic / 2) eqn:E; [apply Nat.ltb_lt in E; lia|].
    exists its. do 4 (split; [done|]). by apply (Hexit its ic). }
  simpl. destruct (0 <? ic / 2) eqn:E.
  2:{ exists its. do 4 (split; [done|]). by apply (Hexit its ic). }
  apply Nat.ltb_lt in E.
  assert (exists ip, ip = ic / 2) as [ip Hip] by eauto. rewrite <- Hip.
  destruct (lookup_lt_is_Some_2 its ic) as [c Hc]; [lia|].
  destruct (lookup_lt_is_Some_2 its ip) as [p Hp]; [lia|].
  rewrite (at_index_Some _ _ _ Hc), (at_index_Some _ _ _ Hp). simpl.
  rewrite swap_test. assert (ip <> ic) as Hne by lia.
  destruct (before ht c p) eqn:Eb.
  - rewrite (exchange_Ret _ _ _ _ _ Hp Hc). simpl.
    set (its1 := <[ic:=p]> (<[ip:=c]> its)).
    destruct (IH its1 ip) as (its' & -> & Hperm & Hlen' & Hz & Hord);
      [subst its1; rewrite !length_insert; lia|lia|].
    exists its'. split; [done|]. split.
    { rewrite Hperm. by apply exchanged_perm. }
    split; [subst its1; by rewrite Hlen', !length_insert|]. split.
    { rewrite Hz. subst its1. rewrite (exchanged_lookup _ _ _ _ _ _ Hp Hc Hne).
      rewrite !decide_False by lia. done. }
    intros [Ha Hb]. apply Hord. subst its1. split.
    + intros i Hi Hnip P C HP HC.
      rewrite (exchanged_lookup _ _ _ _ _ _ Hp Hc Hne) in HP.
      rewrite (exchanged_lookup _ _ _ _ _ _ Hp Hc Hne) in HC.
      rewrite (decide_False (P:=i = ip)) in HC by done.
      destruct (decide (i = ic)) as [Hiic|Hiic].
      * injection HC as <-. rewrite decide_False in HP by lia.
        rewrite decide_True in HP by lia. injection HP as <-. by apply before_asym.
      * destruct (decide (i / 2 = ic)) as [Hpar|Hpar].
        -- injection HP as <-. apply (Hb i p C); try done; try lia.
           by rewrite <- Hip.
        -- destruct (decide (i / 2 = ip)) as [Hpar'|Hpar'].
           ++ injection HP as <-. apply (before_le_lt ht C p c); [|done].
              apply (Ha i Hi Hiic p C); [by rewrite Hpar'|done].
           ++ by apply (Ha i Hi Hiic P C).
    + intros i g C Hi Hkip Hg HC.
      rewrite (exchanged_lookup _ _ _ _ _ _ Hp Hc Hne) in Hg.
      rewrite (exchanged_lookup _ _ _ _ _ _ Hp Hc Hne) in HC.
      rewrite !decide_False in Hg by lia.
      rewrite (decide_False (P:=i = ip)) in HC by lia.
      destruct (decide (i = ic)) as [Hiic|Hiic].
      * injection HC as <-. by apply (Ha ip Hkip Hne g p).
      * apply (before_negtrans ht C p g).
        -- apply (Ha i ltac:(lia) Hiic p C); [by rewrite Hi|done].
        -- by apply (Ha ip Hkip Hne g p).
  - simpl. destruct (IH its ip) as (its' & -> & Hperm & Hlen' & Hz & Hord); [lia|lia|].
    exists its'. do 4 (split; [done|]).
    intros [Ha Hb]. apply Hord.
    assert (forall i, 1 <= i / 2 -> in_order ht its i) as Hall.
    { intros i Hi. destruct (decide (i = ic)) as [->|Hn]; [|by apply Ha].
      intros P C HP HC. rewrite <- Hip, Hp in HP. rewrite Hc in HC.
      injection HP as <-. injection HC as <-. done. }
    split.
    + intros i Hi _. by apply Hall.
    + intros i g C Hi Hkip Hg HC.
      apply (before_negtrans ht C p g).
      * apply (Hall i ltac:(lia) p C); [by rewrite Hi|done].
      * by apply (Hall ip Hkip g p).
Qed.

(** *** The methods *)

Lemma perm_tail (l l' : list A) :
  l' ≡ₚ l -> l' !! 0 = l !! 0 -> drop 1 l' ≡ₚ drop 1 l.
Proof.
  destruct l as [|x l], l' as [|x' l']; simpl; intros Hperm Hz; try done.
  injection Hz as ->. by apply Permutation_cons_inv in Hperm.
Qed.

Lemma put_spec (h : t A) (item : A) :
  shape h ->
  exists h', put h item = Ret h' /\ shape h' /\
    heap_type h' = heap_type h /\ size h' = size h + 1 /\
    contents h' ≡ₚ item :: contents h /\
    (ordered_from (heap_type h) 1 (items h) ->
     ordered_from (heap_type h) 1 (items h')).
Proof.
  intros Hsh. unfold shape in Hsh. unfold put, swap_up. simpl.
  destruct (swap_up_loop_spec (heap_type h) (size h + 1) (items h ++ [item]) (size h + 1))
    as (its' & -> & Hperm & Hlen & Hz & Hord);
    [rewrite length_app; simpl; lia|lia|].
  simpl. eexists. split; [done|]. unfold shape, contents. simpl.
  rewrite length_app in Hlen. simpl in Hlen.
  split; [lia|]. split; [done|]. split; [done|]. split.
  - rewrite (perm_tail _ _ Hperm Hz).
    destruct (items h) as [|z body]; [simpl in Hsh; lia|]. simpl.
    by rewrite Permutation_app_comm.
  - intros Hok. apply Hord. split.
    + intros i Hi Hne p c Hp Hc.
      assert (i < length (items h)) as Hlt.
      { apply lookup_lt_Some in Hc. rewrite length_app in Hc. simpl in Hc. lia. }
      rewrite lookup_app_l in Hp, Hc by lia. by apply (Hok i Hi p c).
    + intros i g c Hi _ _ Hc. apply lookup_lt_Some in Hc.
      rewrite length_app in Hc. simpl in Hc. lia.
Qed.

Lemma get_empty (h : t A) : size h = 0 -> get h = Ret (None, h).
Proof. intros E. unfold get. by rewrite E. Qed.

Lemma get_spec (h : t A) :
  shape h -> size h <> 0 ->
  exists root h', get h = Ret (Some root, h') /\ items h !! 1 = Some root /\
    shape h' /\ heap_type h' = heap_type h /\ size h' + 1 = size h /\
    contents h ≡ₚ root :: contents h' /\
    (ordered_from (heap_type h) 1 (items h) ->
     ordered_from (heap_type h) 1 (items h')).
Proof.
  intros Hsh Hne. unfold shape in Hsh. unfold get.
  rewrite (proj2 (Nat.eqb_neq _ _) Hne).
  destruct (lookup_lt_is_Some_2 (items h) 1) as [root Hroot]; [lia|].
  destruct (lookup_lt_is_Some_2 (items h) (size h)) as [lst Hlst]; [lia|].
  rewrite (at_index_Some _ _ _ Hroot). simpl.
  assert (py_get (items h) (-1) = Ret lst) as ->.
  { unfold py_get, py_norm. simpl.
    destruct (- Z.of_nat (length (items h)) <=? -1)%Z eqn:E; [|lia].
    replace (Z.to_nat (Z.of_nat (length (items h)) + -1)) with (size h) by lia.
    by rewrite Hlst. }
  simpl. set (its1 := <[1:=lst]> (items h)).
  assert (length its1 = size h + 1) as Hlen1 by (subst its1; by rewrite length_insert).
  assert (exists its2 x, its1 = its2 ++ [x]) as (its2 & x & Hits1).
  { destruct (list_pop_snoc_inv its1) as (x & its2 & Hx); [|by exists its2, x].
    intros E. rewrite E in Hlen1. simpl in Hlen1. lia. }
  assert (Stack.list_pop its1 = Ret (x, its2)) as ->.
  { rewrite Hits1. unfold Stack.list_pop. by rewrite last_snoc, removelast_last. }
  simpl.
  assert (length its2 = size h) as Hlen2.
  { rewrite Hits1, length_app in Hlen1. simpl in Hlen1. lia. }
  assert (forall j v, its2 !! j = Some v -> j <> 1 -> items h !! j = Some v) as Hsame.
  { intros j v Hj Hj1. pose proof (lookup_lt_Some _ _ _ Hj) as Hlt.
    assert (its1 !! j = Some v) as Hj' by (rewrite Hits1; by apply lookup_app_l_Some).
    subst its1. by rewrite list_lookup_insert_ne in Hj' by done. }
  unfold swap_down. simpl.
  destruct (swap_down_loop_spec (heap_type h) (size h - 1) (size h - 1) its2 1)
    as (its' & -> & Hperm & Hlen' & Hz & Hord); [lia|lia|lia|].
  simpl. exists root. eexists. split; [done|]. split; [done|].
  unfold shape, contents. simpl.
  split; [lia|]. split; [done|]. split; [lia|]. split.
  - rewrite (perm_tail _ _ Hperm Hz).
    assert (x = lst) as ->.
    { assert (its1 !! size h = Some x) as Hx.
      { rewrite Hits1, <- Hlen2. by rewrite list_lookup_middle. }
      subst its1. destruct (decide (size h = 1)) as [E1|E1].
      - rewrite E1, list_lookup_insert_eq in Hx by lia. by injection Hx.
      - rewrite list_lookup_insert_ne in Hx by lia. congruence. }
    pose proof (insert_swap_perm (items h) 1 lst root Hroot) as Hp1.
    fold its1 in Hp1. rewrite Hits1 in Hp1.
    rewrite (Permutation_app_comm its2 [lst]) in Hp1. simpl in Hp1.
    rewrite (perm_swap lst root) in Hp1. apply Permutation_cons_inv in Hp1.
    assert (its2 !! 0 = items h !! 0) as Hz2.
    { destruct (lookup_lt_is_Some_2 its2 0) as [v Hv]; [lia|].
      rewrite Hv. symmetry. by apply Hsame. }
    destruct (items h) as [|z body]; [simpl in Hsh; lia|].
    destruct its2 as [|z2 t2]; [simpl in Hlen2; lia|].
    simpl in Hz2. injection Hz2 as ->. simpl.
    rewrite (perm_swap z root) in Hp1. by apply Permutation_cons_inv in Hp1.
  - intros Hok. apply Hord; [done|done|]. split.
    + intros i Hi Hn p c Hp Hc.
      apply (Hok i Hi p c); apply Hsame; try done; lia.
    + intros i g c _ Hk. lia.
Qed.


Lemma heapify_spec : forall idx (h : t A),
  shape h -> ordered_from (heap_type h) (idx + 1) (items h) ->
  exists h', heapify idx h = Ret h' /\ shape h' /\
    heap_type h' = heap_type h /\ size h' = size h /\
    contents h' ≡ₚ contents h /\
    ordered_from (heap_type h) 1 (items h').
Proof.
  induction idx as [|idx IH]; intros h Hsh Hok; simpl.
  { exists h. done. }
  unfold swap_down.
  destruct (swap_down_loop_spec (heap_type h) (size h) (size h) (items h) (S idx))
    as (its' & -> & Hperm & Hlen & Hz & Hord); [done|lia|lia|].
  simpl.
  destruct (IH (mk (heap_type h) its' (size h))) as (h' & -> & Hsh' & Ht & Hs & Hc & Ho).
  - unfold shape in *. simpl. lia.
  - simpl. replace (idx + 1) with (S idx) by lia. apply Hord; [lia|lia|]. split.
    + intros i Hi Hne. apply Hok. lia.
    + intros i g c _ Hk. lia.
  - exists h'. repeat split; try done.
    rewrite Hc. unfold contents. simpl. by apply perm_tail.
Qed.

Lemma init_spec (zero : A) (init_list : option (list A)) (ht : string) :
  exists h, init zero init_list ht = Ret h /\ heap_ok h /\ heap_type h = ht /\
    size h = length (default [] init_list) /\
    contents h ≡ₚ default [] init_list.
Proof.
  unfold init. destruct init_list as [l|]; simpl.
  - destruct (heapify_spec (length l / 2) (mk ht (zero :: l) (length l)))
      as (h & -> & Hsh & Ht & Hs & Hc & Ho).
    + unfold shape. simpl. lia.
    + simpl. intros i Hi p c _ Hc. apply lookup_lt_Some in Hc. simpl in Hc. lia.
    + simpl in *. exists h. split; [done|]. split; [split; [done|by rewrite Ht]|].
      done.
  - eexists. split; [done|]. split; [|done]. split; [done|].
    intros i Hi p c _ Hc. apply lookup_lt_Some in Hc. simpl in Hc. lia.
Qed.

Lemma root_is_extreme_ok (h : t A) : heap_ok h -> root_is_extreme h.
Proof.
  intros [Hsh Hok]. unfold root_is_extreme, peek, contents. unfold shape in Hsh.
  destruct (size h =? 0) eqn:E.
  - apply Nat.eqb_eq in E. destruct (items h) as [|z [|]]; simpl in *; try done; lia.
  - apply Nat.eqb_neq in E.
    destruct (lookup_lt_is_Some_2 (items h) 1) as [r Hr]; [lia|].
    rewrite (at_index_Some _ _ _ Hr). simpl. split.
    + apply list_elem_of_lookup. exists 0. by rewrite lookup_drop.
    + assert (forall n i x, i <= n -> 1 <= i -> items h !! i = Some x ->
                before (heap_type h) x r = false) as Hall.
      { induction n as [|n IH]; intros i x Hin Hi Hx; [lia|].
        destruct (decide (i = 1)) as [->|Hne].
        - rewrite Hr in Hx. injection Hx as <-. apply before_irrefl.
        - destruct (lookup_lt_is_Some_2 (items h) (i / 2)) as [p Hp].
          { apply lookup_lt_Some in Hx. lia. }
          apply (before_negtrans _ x p r).
          + apply (Hok i ltac:(lia) p x); done.
          + apply (IH (i / 2) p); [lia|lia|done]. }
      intros x Hx. apply list_elem_of_lookup in Hx as [i Hi].
      rewrite lookup_drop in Hi. apply (Hall (1 + i) (1 + i) x); [lia|lia|done].
Qed.

Lemma run_spec : forall ops (h : t A),
  heap_ok h ->
  exists h' outs, run ops h = Ret (h', outs) /\ heap_ok h' /\
    heap_type h' = heap_type h /\
    size h' + length outs = size h + length (puts_of ops) /\
    outs ++ contents h' ≡ₚ contents h ++ puts_of ops.
Proof.
  induction ops as [|[item|] ops IH]; intros h [Hsh Hok]; simpl.
  - exists h, []. rewrite app_nil_r. repeat split; try done.
  - destruct (put_spec h item Hsh) as (h1 & -> & Hsh1 & Ht1 & Hs1 & Hc1 & Ho1).
    simpl. destruct (IH h1) as (h' & outs & -> & Hok' & Ht' & Hs' & Hc').
    { split; [done|]. rewrite Ht1. by apply Ho1. }
    exists h', outs. split; [done|]. split; [done|]. split; [congruence|].
    split; [simpl; lia|]. rewrite Hc', Hc1. simpl.
    by rewrite <- Permutation_middle.
  - destruct (decide (size h = 0)) as [E|E].
    + rewrite (get_empty h E). simpl.
      destruct (IH h) as (h' & outs & -> & Hok' & Ht' & Hs' & Hc'); [done|].
      simpl. exists h', outs. done.
    + destruct (get_spec h Hsh E) as (root & h1 & -> & _ & Hsh1 & Ht1 & Hs1 & Hc1 & Ho1).
      simpl. destruct (IH h1) as (h' & outs & -> & Hok' & Ht' & Hs' & Hc').
      { split; [done|]. rewrite Ht1. by apply Ho1. }
      simpl. exists h', (root :: outs). split; [done|]. split; [done|].
      split; [congruence|]. split; [simpl; lia|].
      simpl. by rewrite Hc', Hc1.
Qed.

End Facts.

(** C5: a heap built by the constructor, from a list or empty, and then
    used through any run of [put] and [get] calls raises nothing; what
    [peek] returns is an item of the heap that no other item is strictly
    before (the minimum of a min heap, the maximum of a max heap); the items
    in the heap and those that the gets returned are the items of the list
    and of the puts, so that [size] is the number of items given less the
    number of items got. *)
Theorem heap_root_and_size {A : Type} `{PyOrdLaws A}
    (zero : A) (init_list : option (list A)) (heap_type : string) (ops : list op) :
  exists h0 h outs,
    init zero init_list heap_type = Ret h0 /\
    run ops h0 = Ret (h, outs) /\
    root_is_extreme h /\
    BinaryHeap.heap_type h = heap_type /\
    size h = length (default [] init_list) + length (puts_of ops) - length outs /\
    length outs <= length (default [] init_list) + length (puts_of ops) /\
    outs ++ contents h ≡ₚ default [] init_list ++ puts_of ops.
Proof.
  destruct (init_spec zero init_list heap_type) as (h0 & Hinit & Hok0 & Ht0 & Hs0 & Hc0).
  destruct (run_spec ops h0 Hok0) as (h & outs & Hrun & Hok & Ht & Hs & Hc).
  exists h0, h, outs. split; [done|]. split; [done|].
  split; [by apply root_is_extreme_ok|]. split; [congruence|].
  split; [lia|]. split; [lia|]. by rewrite Hc, Hc0.
Qed.

Lemma heap_root_and_size_witness :
  exists h0 h outs,
    init 0%Z None "min" = Ret h0 /\
    run [Put 3%Z; Put 8%Z; Put 6%Z; Put 3%Z; Put 1%Z; Put 0%Z; Put 4%Z; Put 2%Z; Get] h0
    = Ret (h, outs) /\
    root_is_extreme h /\
    heap_type h = "min"%string /\
    size h = 0 + 8 - length outs /\
    length outs <= 0 + 8 /\
    outs ++ contents h ≡ₚ [] ++ [3; 8; 6; 3; 1; 0; 4; 2]%Z.
Proof.
  exact (heap_root_and_size (H0:=Z_PyOrdLaws) 0%Z None "min"
           [Put 3%Z; Put 8%Z; Put 6%Z; Put 3%Z; Put 1%Z; Put 0%Z; Put 4%Z; Put 2%Z; Get]).
Defined.

(** The run at the end of [BinaryHeap.py]: eight puts, a get, a reverse and
    the gets that empty the heap. *)
Example heap_source_run :
  (let* h0 := init 0%Z None "min" in
   let* r := run [Put 3; Put 8; Put 6; Put 3; Put 1; Put 0; Put 4; Put 2]%Z h0 in
   let* r1 := run [Get] (fst r) in
   let* h' := reverse (fst r1) in
   let* r2 := run [Get; Get; Get; Get; Get; Get; Get; Get] h' in
   Ret (drop 1 (items (fst r)), drop 1 (items (fst r1)), drop 1 (items h'),
        snd r2, size (fst r2)))
  = Ret ([0; 2; 1; 3; 3; 6; 4; 8]%Z, [1; 2; 4; 3; 3; 6; 8]%Z,
         [8; 3; 6; 3; 2; 1; 4]%Z, [8; 6; 4; 3; 3; 2; 1]%Z, 0).
Proof. reflexivity. Qed.

Example heap_source_init :
  (let* h := init 0%Z (Some [3; 8; 6; 3; 1; 0; 4; 2]%Z) "min" in
   Ret (drop 1 (items h), size h))
  = Ret ([0; 1; 3; 2; 8; 6; 4; 3]%Z, 8).
Proof. reflexivity. Qed.

End HeapFacts.


(** ** The priority queue and the heap as frontiers *)

Module PriorityFrontiers.
Import GridSearch Search SearchSpec SearchFacts FrontierSpec.

(** *** A_star *)


Lemma pq_cells_shape q lo hi real :
  PQSpec.shape q lo hi real -> slot_cell lo = None -> slot_cell hi = None ->
  pq_cells q = omap slot_cell real.
Proof.
  intros [Hits _] Hlo Hhi. unfold pq_cells. rewrite Hits. simpl. rewrite Hlo.
  rewrite omap_app. simpl. rewrite Hhi. by rewrite app_nil_r.
Qed.

Lemma pq_frontier g :
  frontier_spec PriorityQueue.is_empty pq_take (pq_add g) pq_cells pq_inv knows
                (is_Some (goal g)).
Proof.
  constructor.
  - intros q (lo & hi & real & Hsh & Hlo & Hhi & Hreal).
    rewrite (pq_cells_shape q lo hi real Hsh Hlo Hhi).
    unfold PriorityQueue.is_empty. destruct Hsh as [_ ->]. rewrite Nat.eqb_eq.
    destruct real as [|x real]; simpl; [done|].
    apply Forall_cons in Hreal as [[c ->] _]. done.
  - intros q (lo & hi & real & Hsh & Hlo & Hhi & Hreal) Hne.
    rewrite (pq_cells_shape q lo hi real Hsh Hlo Hhi).
    pose proof (PQFacts.get_shape q lo hi real Hsh) as Hget.
    unfold PriorityQueue.is_empty in Hne. apply Nat.eqb_neq in Hne.
    destruct real as [|[p x] rest]; [destruct Hsh as [_ E]; simpl in E; lia|].
    apply Forall_cons in Hreal as [[c Hc] Hrest].
    unfold slot_cell in Hc. simpl in Hc. destruct x as [|c']; [done|]. injection Hc as ->.
    unfold pq_take. rewrite Hget. simpl.
    eexists c, _. split; [done|]. split.
    + exists lo, hi, rest. split; [|done].
      destruct Hsh as [_ Hsize]. split; [done|]. simpl in *. lia.
    + unfold pq_cells. simpl. rewrite Hlo, omap_app. simpl. rewrite Hhi.
      by rewrite app_nil_r.
  - intros q gv cur nb q' gv' (lo & hi & real & Hsh & Hlo & Hhi & Hreal).
    unfold pq_add. destruct (dict_get gv cur) as [gc|] eqn:Egc; [|done].
    destruct (heuristic (goal g) (Some nb)) as [h| |]; simpl; try done.
    destruct (PQFacts.put_shape q lo hi real (PriorityQueue.Num (gc + 1 + h)) nb Hsh)
      as (l & Hl & -> & _). simpl. intros [= <- <-].
    set (new := (PriorityQueue.Num (gc + 1 + h), PriorityQueue.Item nb)).
    assert (PQSpec.shape
              (PriorityQueue.mk (PriorityQueue.queue_type q)
                 (lo :: (take l real ++ new :: drop l real) ++ [hi])
                 (PriorityQueue.size q + 1))
              lo hi (take l real ++ new :: drop l real)) as Hsh'.
    { destruct Hsh as [_ Hsize]. split; [done|]. simpl.
      rewrite length_app. simpl. rewrite length_take, length_drop. lia. }
    split; [|split; [|split]].
    + exists lo, hi, (take l real ++ new :: drop l real). split; [done|].
      split; [done|]. split; [done|]. apply Forall_app. split.
      * by apply Forall_take.
      * constructor; [by eexists|by apply Forall_drop].
    + rewrite (pq_cells_shape _ lo hi _ Hsh' Hlo Hhi).
      rewrite (pq_cells_shape q lo hi real Hsh Hlo Hhi).
      rewrite omap_app. simpl. rewrite <- Permutation_middle.
      by rewrite <- omap_app, take_drop.
    + apply dict_get_set. by right.
    + intros c Hc. apply dict_get_set. by left.
  - intros q gv cur nb (lo & hi & real & Hsh & Hlo & Hhi & Hreal) [gc Hgc] [[gx gy] Hgoal].
    unfold pq_add. rewrite Hgc, Hgoal. destruct nb as [nx ny]. simpl.
    destruct (PQFacts.put_shape q lo hi real
                (PriorityQueue.Num (gc + 1 + (Z.abs (gx - nx) + Z.abs (gy - ny)))) (nx, ny) Hsh)
      as (l & Hl & -> & _).
    simpl. eauto.
  - intros q gv cur nb (lo & hi & real & Hsh & Hlo & Hhi & Hreal).
    unfold pq_add. destruct (dict_get gv cur) as [gc|]; [|done].
    destruct (heuristic (goal g) (Some nb)) as [h| |] eqn:Eh; simpl; try done.
    + destruct (PQFacts.put_shape q lo hi real (PriorityQueue.Num (gc + 1 + h)) nb Hsh)
        as (l & Hl & -> & _). done.
    + unfold heuristic in Eh. destruct (goal g) as [[? ?]|], nb; done.
Qed.

(** *** Dijkstra *)


Lemma heap_frontier :
  frontier_spec BinaryHeap.is_empty heap_take heap_add heap_cells HeapSpec.shape
                knows True.
Proof.
  constructor.
  - intros h Hsh. unfold BinaryHeap.is_empty, heap_cells, HeapSpec.contents.
    unfold HeapSpec.shape in Hsh. rewrite Nat.eqb_eq.
    destruct (BinaryHeap.items h) as [|z [|x body]]; simpl in *; split; try done; lia.
  - intros h Hsh Hne. unfold BinaryHeap.is_empty in Hne. apply Nat.eqb_neq in Hne.
    destruct (HeapFacts.get_spec h Hsh Hne)
      as ([gr c] & h' & Hget & _ & Hsh' & _ & _ & Hc & _).
    unfold heap_take. rewrite Hget. simpl. exists c, h'.
    split; [done|]. split; [done|]. unfold heap_cells. by rewrite Hc.
  - intros h gv cur nb h' gv' Hsh. unfold heap_add.
    destruct (dict_get gv cur) as [gc|]; [|done].
    destruct (HeapFacts.put_spec h (gc + 1, nb)%Z Hsh) as (h1 & -> & Hsh1 & _ & _ & Hc & _).
    simpl. intros [= <- <-]. split; [done|]. split; [|split].
    + unfold heap_cells. by rewrite Hc.
    + apply dict_get_set. by right.
    + intros c Hk. apply dict_get_set. by left.
  - intros h gv cur nb Hsh [gc Hgc] _. unfold heap_add. rewrite Hgc.
    destruct (HeapFacts.put_spec h (gc + 1, nb)%Z Hsh) as (h1 & -> & _).
    simpl. eauto.
  - intros h gv cur nb Hsh. unfold heap_add.
    destruct (dict_get gv cur) as [gc|]; [|done].
    destruct (HeapFacts.put_spec h (gc + 1, nb)%Z Hsh) as (h1 & -> & _). done.
Qed.

End PriorityFrontiers.

(** ** The four searches *)

Module SearchClaims.
Import GridSearch Search GridSpec SearchSpec FenceSpec SearchFacts FrontierSpec
  FrontierFacts PriorityFrontiers Examples.

Section Report.
Context {F G : Type}.
Context (f_is_empty : F -> bool) (f_take : F -> outcome (cell * F))
        (f_add : G -> cell -> cell -> F -> outcome (F * G)).
Context (cells : F -> list cell) (Finv : F -> Prop) (has : G -> cell -> Prop)
        (ready : Prop).
Context (FS : frontier_spec f_is_empty f_take f_add cells Finv has ready).
Context (g : t) (s : cell).

Lemma engine_report rng fuel st0 :
  start g = Some s ->
  basic_inv cells Finv has g s st0 -> pops (log st0) = [] ->
  safe_inv g st0 ->
  engine_facts g ready rng fuel
    (finish f_is_empty g (loop f_is_empty f_take f_add rng g fuel 0 st0)).
Proof.
  intros Hstart HI Hpops HS.
  destruct (loop f_is_empty f_take f_add rng g fuel 0 st0) as [r st] eqn:Eloop.
  unfold engine_facts, finish. simpl.
  split; [|split; [|split]].
  -     pose proof (loop_inv _ _ _ _ _ _ _ FS g s rng fuel 0 st0 r st HI Eloop) as HI'.
    destruct HI' as [_ Hflow Hkeys Hnd Hadd Hvis _ _ _].
    unfold counted. simpl. repeat split; try done.
    + by rewrite Hadd.
    + by rewrite Hvis.
    + rewrite Hflow, length_app. lia.
  - intros Hfuel.
    destruct (loop_basic _ _ _ _ _ _ _ FS g s rng fuel 0 st0 r st HI) as [_ Hout];
      [rewrite Hpops; simpl; lia|done|].
    intros ->. done.
  - intros Hfen.
    destruct (loop_safe _ _ _ _ _ _ _ FS g s Hfen rng fuel 0 st0 r st HI HS Eloop)
      as [[_ Hreads] _].
    done.
  - intros Hfen Hready Hm Hrng Hfuel.
    destruct (loop_basic _ _ _ _ _ _ _ FS g s rng fuel 0 st0 r st HI) as [_ Hout];
      [rewrite Hpops; simpl; lia|done|].
    destruct (loop_safe _ _ _ _ _ _ _ FS g s Hfen rng fuel 0 st0 r st HI HS Eloop)
      as [_ Hnr].
    specialize (Hnr Hready Hm Hrng). rewrite Hpops in Hnr. simpl in Hnr.
    specialize (Hnr ltac:(lia)).
    unfold settled. simpl. unfold loop_outcome in Hout.
    destruct r as [[p|]|e|]; try done.
    + destruct Hout as (t & Ht & Hh & Hp & Hl). exists t. by rewrite Hstart.
    + destruct Hout as [He Hno]. split; [done|]. intros t Ht Hin.
      specialize (Hno t Ht Hin). rewrite Hpops in Hno. by apply elem_of_nil in Hno.
    + by specialize (Hnr e).
Qed.

End Report.

Lemma initial_safe {F G : Type} g s (st0 : state F G) :
  start g = Some s -> pushes (log st0) = [s] -> reads (log st0) = [] ->
  safe_inv g st0.
Proof.
  intros Hstart Hp Hr. constructor.
  - rewrite Hp. intros c Hc%list_elem_of_singleton. subst c.
    by apply PathSpec.reach_start.
  - rewrite Hr. constructor.
Qed.

Lemma initial_basic {F G : Type} (cells : F -> list cell) (Finv : F -> Prop)
    (has : G -> cell -> Prop) g s (f : F) (c : G) :
  Finv f -> cells f = [s] -> has c s ->
  basic_inv cells Finv has g s (mkst f c [(s, None)] 1 0 (mktrace [] [s] [])).
Proof.
  intros Hf Hc Hhas. constructor; simpl; try done.
  - by rewrite Hc.
  - apply NoDup_singleton.
  - constructor.
  - intros c' Hc'%list_elem_of_singleton. by subst.
  - intros c' Hc'%list_elem_of_singleton. by left.
Qed.

Lemma dfs_report g s rng fuel :
  start g = Some s -> engine_facts g True rng fuel (dfs rng fuel g).
Proof.
  intros Hstart. unfold dfs. rewrite Hstart.
  apply (engine_report _ _ _ _ _ _ _ stack_frontier g s); try done.
  - apply initial_basic; done.
  - by apply (initial_safe g s).
Qed.

Lemma bfs_report g s rng fuel :
  start g = Some s -> engine_facts g True rng fuel (bfs rng fuel g).
Proof.
  intros Hstart. unfold bfs. rewrite Hstart.
  apply (engine_report _ _ _ _ _ _ _ queue_frontier g s); try done.
  - apply initial_basic; done.
  - by apply (initial_safe g s).
Qed.

Lemma A_star_report g s rng fuel :
  start g = Some s -> is_Some (goal g) ->
  engine_facts g (is_Some (goal g)) rng fuel (A_star rng fuel g).
Proof.
  intros Hstart [[gx gy] Hgoal]. set (R := is_Some (goal g)).
  unfold A_star. rewrite Hstart, Hgoal.
  destruct s as [sx sy]. simpl. subst R.
  apply (engine_report _ _ _ _ _ _ _ (pq_frontier g) g (sx, sy)); try done.
  - apply initial_basic.
    + eexists _, _, [_]. split; [split; [reflexivity|reflexivity]|].
      split; [reflexivity|]. split; [reflexivity|].
      constructor; [by eexists|constructor].
    + reflexivity.
    + unfold knows. simpl. rewrite decide_True by done. by eexists.
  - by apply (initial_safe g (sx, sy)).
Qed.

Lemma Dijkstra_report g s rng fuel :
  start g = Some s -> engine_facts g True rng fuel (Dijkstra rng fuel g).
Proof.
  intros Hstart. unfold Dijkstra. rewrite Hstart. simpl.
  apply (engine_report _ _ _ _ _ _ _ heap_frontier g s); try done.
  - apply initial_basic; [done|done|]. unfold knows. simpl.
    rewrite decide_True by done. by eexists.
  - by apply (initial_safe g s).
Qed.


(** *** The claims *)

(** C7: when the start and the goal are set and equal, each of the four
    searches, given two iterations or more, returns the path that holds the
    start alone, with [visited] and [added] both 1: the start is pushed,
    popped and found to be the goal, and no neighbour is looked at. *)
Theorem start_is_goal (a : algorithm) (rng : nat -> list nat) (fuel : nat) (g : t) (s : cell) :
  start g = Some s -> goal g = Some s -> 2 <= fuel ->
  start_is_goal_report g s (search a rng fuel g).
Proof.
  intros Hstart Hgoal Hfuel.
  destruct fuel as [|[|fuel]]; [lia|lia|].
  destruct s as [sx sy].
  unfold start_is_goal_report.
  destruct a; simpl.
  - unfold dfs. rewrite Hstart. simpl. rewrite Hgoal.
    rewrite decide_True by done. unfold get_path. rewrite Hgoal. simpl.
    rewrite decide_True by done. by destruct fuel.
  - unfold bfs. rewrite Hstart. simpl. rewrite Hgoal.
    rewrite decide_True by done. unfold get_path. rewrite Hgoal. simpl.
    rewrite decide_True by done. by destruct fuel.
  - unfold A_star. rewrite Hstart, Hgoal. simpl. rewrite Hgoal.
    rewrite decide_True by done. unfold get_path. rewrite Hgoal. simpl.
    rewrite decide_True by done. by destruct fuel.
  - unfold Dijkstra. rewrite Hstart. simpl. rewrite Hgoal.
    rewrite decide_True by done. unfold get_path. rewrite Hgoal. simpl.
    rewrite decide_True by done. by destruct fuel.
Qed.

Lemma start_is_goal_witness :
  start single_grid = Some (2, 2)%Z /\ goal single_grid = Some (2, 2)%Z /\
  start_is_goal_report single_grid (2, 2)%Z (search DIJKSTRA (fun _ => []) 2 single_grid).
Proof.
  split; [reflexivity|]. split; [reflexivity|].
  apply (start_is_goal DIJKSTRA (fun _ => []) 2 single_grid (2, 2)%Z);
    [reflexivity|reflexivity|lia].
Defined.

(** C8: in a dfs or bfs call with the start set, no cell is pushed twice and
    the cells pushed are the keys of the predecessor dictionary; [added] is
    the number of cells pushed, the start included, [visited] the number of
    cells popped, and [visited <= added].  This holds however the call
    ends. *)
Theorem dfs_bfs_counters (rng : nat -> list nat) (fuel : nat) (g : t) :
  is_Some (start g) ->
  counted (dfs rng fuel g) /\ counted (bfs rng fuel g).
Proof.
  intros [s Hstart]. split.
  - by destruct (dfs_report g s rng fuel Hstart) as [? _].
  - by destruct (bfs_report g s rng fuel Hstart) as [? _].
Qed.

Lemma dfs_bfs_counters_witness :
  is_Some (start open_grid) /\
  counted (dfs (fun _ => []) 300 open_grid) /\
  counted (bfs (fun _ => []) 300 open_grid).
Proof.
  split; [by eexists|].
  apply (dfs_bfs_counters (fun _ => []) 300 open_grid). by eexists.
Defined.

(** The reads of a search called while [start] is [None]: there are
    none. *)
Lemma unset_start_reads a rng fuel g :
  start g = None -> reads (events (search a rng fuel g)) = [].
Proof.
  intros Hstart.
  destruct a; simpl; unfold dfs, bfs, A_star, Dijkstra; rewrite Hstart; try done.
  simpl. by destruct (goal g) as [[? ?]|].
Qed.

(** [simple.txt] is fenced, with or without probabilities: the cells that a
    sweep of the grid pushes hold the start and are closed under the moves
    to open cells, and all their neighbours are positions of the layout. *)
Lemma simple_grid_fenced : fenced simple_grid.
Proof.
  apply (fence_check_fenced _
           (pushes (events (bfs (fun _ => []) 1500 (with_goal simple_grid None))))).
  vm_compute. reflexivity.
Qed.

Lemma chance_grid_fenced : fenced chance_grid.
Proof.
  apply (fence_check_fenced _
           (pushes (events (bfs (fun _ => []) 1500 (with_goal simple_grid None))))).
  vm_compute. reflexivity.
Qed.

(** C2, as amended: on a fenced grid - from every cell that a walk from the
    start reaches, by moves along the offsets through cells that hold
    neither ["#"] nor ["*"], every offset leads to a position of the layout -
    every lookup [layout[row_neigh][col_neigh]] of each of the four searches
    is made at a position of the layout: no index is negative or past the
    end.  The searches themselves test no index. *)
Theorem lookups_stay_in_layout (a : algorithm) (rng : nat -> list nat) (fuel : nat) (g : t) :
  fenced g -> lookups_in_bounds g (search a rng fuel g).
Proof.
  intros Hfen. destruct (start g) as [s|] eqn:Hstart.
  2:{ unfold lookups_in_bounds. rewrite (unset_start_reads a rng fuel g Hstart).
      constructor. }
  destruct a; simpl.
  - destruct (dfs_report g s rng fuel Hstart) as (_ & _ & H & _). by apply H.
  - destruct (bfs_report g s rng fuel Hstart) as (_ & _ & H & _). by apply H.
  - destruct (goal g) as [e|] eqn:Hgoal.
    + destruct (A_star_report g s rng fuel Hstart) as (_ & _ & H & _);
        [rewrite Hgoal; by eexists|by apply H].
    + unfold A_star. rewrite Hgoal. simpl. constructor.
  - destruct (Dijkstra_report g s rng fuel Hstart) as (_ & _ & H & _). by apply H.
Qed.

Lemma lookups_stay_in_layout_witness :
  fenced simple_grid /\
  lookups_in_bounds simple_grid (search ASTAR (fun _ => []) 1000 simple_grid).
Proof.
  split; [exact simple_grid_fenced|].
  apply (lookups_stay_in_layout ASTAR (fun _ => []) 1000 simple_grid).
  exact simple_grid_fenced.
Defined.

(** C2, as worded, fails on [jagged_grid]: the grid loads, its start and its
    goal are valid, and the third lookup of dfs, at (2,2), is past the end of
    the third row; the call ends with [IndexError]. *)
Lemma jagged_lookup_counterexample :
  (exists g0 g1,
     init (map list_ascii_of_string jagged_rows) = Ret g0 /\
     is_valid g0 1 2 = Ret true /\ set_start g0 1 2 = (Ret tt, g1) /\
     is_valid g1 1 1 = Ret true /\
     jagged_grid = set_motion (snd (set_goal g1 1 1)) offset4 None) /\
  (forall rng,
     reads (events (dfs rng 5 jagged_grid)) = [(2, 2); (1, 3); (0, 2)]%Z /\
     result (dfs rng 5 jagged_grid) = Raise IndexError /\
     ~ lookups_in_bounds jagged_grid (dfs rng 5 jagged_grid)).
Proof.
  split.
  - eexists _, _. split; [reflexivity|]. split; [reflexivity|].
    split; [reflexivity|]. split; reflexivity.
  - intros rng. split; [reflexivity|]. split; [reflexivity|].
    intros Hall. apply Forall_cons in Hall as [[ch Hch] _]. discriminate Hch.
Qed.





(** With probabilities that [np.random.choice] refuses - here two of the
    four are zero, so that four directions cannot be drawn - every search
    ends at its first expansion with [ValueError]. *)
Example refused_probabilities :
  let g := set_motion open_grid offset4 (Some [1 # 2; 1 # 2; 0; 0]%Q) in
  motion_ok g = false /\
  forall a rng fuel, 1 <= fuel -> result (search a rng fuel g) = Raise ValueError.
Proof.
  split; [vm_compute; reflexivity|].
  intros a rng fuel Hfuel. destruct fuel as [|fuel]; [lia|].
  destruct a; reflexivity.
Qed.

(** *** Example 1 of [test_GridSearch.py]

    The grid is [simple.txt] as the comments of the test file draw it; the
    steps, the positions visited and the positions added are those that the
    comments report for each search. *)


(** The scenario of the specification on the open 5x5 grid: each search
    finds a path of four steps; bfs visits nine positions. *)
Example open_grid_scenario :
  summary (bfs (fun _ => []) 300 open_grid) = (Some 4, Some 9, Some 9) /\
  summary (A_star (fun _ => []) 300 open_grid) = (Some 4, Some 9, Some 9) /\
  summary (dfs (fun _ => []) 300 open_grid) = (Some 4, Some 5, Some 7) /\
  summary (Dijkstra (fun _ => []) 300 open_grid) = (Some 4, Some 9, Some 9).
Proof. repeat split; vm_compute; reflexivity. Qed.

Example test_example_1 :
  summary (dfs (fun _ => []) 1000 simple_grid) = (Some 36, Some 42, Some 63) /\
  summary (bfs (fun _ => []) 1000 simple_grid) = (Some 14, Some 63, Some 64) /\
  summary (A_star (fun _ => []) 1000 simple_grid) = (Some 14, Some 41, Some 60) /\
  summary (Dijkstra (fun _ => []) 1000 simple_grid) = (Some 14, Some 63, Some 64).
Proof. repeat split; vm_compute; reflexivity. Qed.


(** *** Example 3 of [test_GridSearch.py] *)

Example test_example_3 :
  summary (bfs (fun _ => []) 2000 diagonal_grid) = (Some 15, Some 97, Some 107) /\
  summary (A_star (fun _ => []) 2000 diagonal_grid) = (Some 15, Some 72, Some 82).
Proof. repeat split; vm_compute; reflexivity. Qed.

End SearchClaims.

(** * Further properties of the containers *)

Module StackFacts.
Import StackSpec.

Section Facts.
Context {A : Type}.
Implicit Types (s : Stack.t A) (l : list A).

Lemma stack_eta s : Stack.mk (Stack.items s) (Stack.size s) = s.
Proof. by destruct s. Qed.

Lemma pop_push s x : Stack.pop (Stack.push s x) = Ret (Some x, s).
Proof.
  unfold Stack.pop, Stack.push, Stack.list_pop. simpl.
  replace (Stack.size s + 1 =? 0) with false by (symmetry; apply Nat.eqb_neq; lia).
  rewrite last_snoc, removelast_last. simpl.
  replace (Stack.size s + 1 - 1) with (Stack.size s) by lia.
  by rewrite stack_eta.
Qed.

Lemma push_all_snoc s l x : push_all s (l ++ [x]) = Stack.push (push_all s l) x.
Proof. unfold push_all. by rewrite foldl_snoc. Qed.

Lemma push_all_mk l0 n l :
  push_all (Stack.mk l0 n) l = Stack.mk (l0 ++ l) (n + length l).
Proof.
  revert l0 n. induction l as [|x l IH]; intros l0 n; simpl.
  - by rewrite app_nil_r, Nat.add_0_r.
  - unfold Stack.push at 1. simpl. change (foldl Stack.push ?s l) with (push_all s l).
    rewrite IH, <- app_assoc. simpl. f_equal. lia.
Qed.

Lemma pop_n_push_all s l :
  pop_n (length l) (push_all s l) = Ret (map Some (rev l), s).
Proof.
  induction l as [|x l IH] using rev_ind; [done|].
  rewrite push_all_snoc, length_app, Nat.add_1_r, rev_unit. simpl.
  rewrite pop_push. simpl. by rewrite IH.
Qed.

Lemma pop_n_app n k s :
  pop_n (n + k) s =
  let* r := pop_n n s in
  let* r' := pop_n k (snd r) in
  Ret (fst r ++ fst r', snd r').
Proof.
  revert s. induction n as [|n IH]; intros s; simpl.
  - by destruct (pop_n k s) as [[]| |].
  - destruct (Stack.pop s) as [[o s1]| |]; simpl; [|done..].
    rewrite IH. destruct (pop_n n s1) as [[o1 s2]| |]; simpl; [|done..].
    by destruct (pop_n k s2) as [[]| |].
Qed.

Lemma pop_n_empty k :
  pop_n k (Stack.init (A:=A) None) = Ret (replicate k None, Stack.init None).
Proof.
  induction k as [|k IH]; [done|].
  change (pop_n (S k) (Stack.init None))
    with (let* r := pop_n k (Stack.init (A:=A) None) in
          Ret (@None A :: fst r, snd r)).
  by rewrite IH.
Qed.

Lemma init_push_all (l : list A) :
  Stack.init (Some l) = push_all (Stack.init None) l.
Proof. simpl. by rewrite push_all_mk. Qed.

End Facts.

(** X1: a stack is last in, first out.  Whatever the stack holds, after the
    items of [l] are pushed in turn, as many calls of [pop] return them in
    the opposite order, none raises, and the stack is again exactly as it
    was before the first push. *)
Theorem stack_lifo {A : Type} (s : Stack.t A) (l : list A) :
  pop_n (length l) (push_all s l) = Ret (map Some (rev l), s).
Proof. apply pop_n_push_all. Qed.

(** X2: a stack built by the constructor from a list hands its items back
    from the last to the first; every further [pop] returns [None] without
    raising, and the stack ends as a new empty stack. *)
Theorem stack_drain {A : Type} (l : list A) (k : nat) :
  pop_n (length l + k) (Stack.init (Some l))
  = Ret (map Some (rev l) ++ replicate k None, Stack.init None).
Proof.
  rewrite pop_n_app, init_push_all, pop_n_push_all. cbn [bind fst snd].
  by rewrite pop_n_empty.
Qed.

(** X3: on a stack whose [size] counts its items, [peek] returns what the
    next [pop] returns: the item pushed last, or [None] for an empty stack;
    neither raises, and [pop] leaves a stack whose [size] counts its items. *)
Theorem stack_peek_pop {A : Type} (s : Stack.t A) :
  wf s ->
  Stack.peek s = Ret (last (Stack.items s)) /\
  exists s', Stack.pop s = Ret (last (Stack.items s), s') /\ wf s' /\
             Stack.items s' = removelast (Stack.items s).
Proof.
  destruct s as [its n]. unfold wf, Stack.peek, Stack.pop. simpl. intros ->.
  destruct its as [|x its] using rev_ind; simpl.
  - split; [done|]. by exists (Stack.mk [] 0).
  - clear IHits. rewrite length_app, Nat.add_1_r. simpl.
    rewrite last_snoc. unfold Stack.list_pop. rewrite last_snoc, removelast_last.
    split.
    + unfold py_get, py_norm. simpl.
      rewrite length_app. simpl.
      replace (Z.to_nat (Z.of_nat (length its + 1) + -1)) with (length its) by lia.
      destruct (- Z.of_nat (length its + 1) <=? -1)%Z eqn:E;
        [|apply Z.leb_gt in E; lia].
      by rewrite lookup_app_r, Nat.sub_diag by lia.
    + simpl. eexists. split; [done|]. split; [|done]. unfold wf. simpl. lia.
Qed.

Lemma stack_peek_pop_witness :
  wf (Stack.init (Some [1; 2; 3])) /\
  Stack.peek (Stack.init (Some [1; 2; 3])) = Ret (Some 3) /\
  exists s', Stack.pop (Stack.init (Some [1; 2; 3])) = Ret (Some 3, s') /\ wf s' /\
             Stack.items s' = [1; 2].
Proof.
  split; [reflexivity|].
  apply (stack_peek_pop (Stack.init (Some [1; 2; 3]))). reflexivity.
Defined.

(** X4: [reverse] turns a stack upside down: the items pushed in the order
    of [l] are then popped in the order of [l], first pushed first; reversing
    twice gives the stack back. *)
Theorem stack_reverse {A : Type} (s : Stack.t A) (l : list A) :
  Stack.reverse (Stack.reverse s) = s /\
  pop_n (length l) (Stack.reverse (push_all (Stack.init None) l))
  = Ret (map Some l, Stack.init None).
Proof.
  split.
  - destruct s as [its n]. unfold Stack.reverse. simpl. by rewrite rev_involutive.
  - simpl. rewrite push_all_mk. unfold Stack.reverse. simpl.
    pose proof (pop_n_push_all (Stack.init None) (rev l)) as P.
    rewrite <- init_push_all, length_rev, rev_involutive in P.
    simpl in P. by rewrite length_rev in P.
Qed.

End StackFacts.

Module QueueFacts.
Import QueueSpec.

Section Facts.
Context {A : Type}.
Implicit Types (q : Queue.t A) (l : list A).

Lemma enqueue_all_mk l0 n l :
  enqueue_all (Queue.mk l0 n) l = Queue.mk (l0 ++ l) (n + length l).
Proof.
  revert l0 n. induction l as [|x l IH]; intros l0 n; simpl.
  - by rewrite app_nil_r, Nat.add_0_r.
  - unfold Queue.enqueue at 1. simpl. change (foldl Queue.enqueue ?s l) with (enqueue_all s l).
    rewrite IH, <- app_assoc. simpl. f_equal. lia.
Qed.

Lemma dequeue_n_all l :
  dequeue_n (length l) (Queue.mk l (length l)) = Ret (map Some l, Queue.init None).
Proof.
  induction l as [|x l IH]; [done|].
  cbn [length dequeue_n]. unfold Queue.dequeue. simpl.
  replace (length l - 0) with (length l) by lia. by rewrite IH.
Qed.

Lemma dequeue_n_app n k q :
  dequeue_n (n + k) q =
  let* r := dequeue_n n q in
  let* r' := dequeue_n k (snd r) in
  Ret (fst r ++ fst r', snd r').
Proof.
  revert q. induction n as [|n IH]; intros q; simpl.
  - by destruct (dequeue_n k q) as [[]| |].
  - destruct (Queue.dequeue q) as [[o q1]| |]; simpl; [|done..].
    rewrite IH. destruct (dequeue_n n q1) as [[o1 q2]| |]; simpl; [|done..].
    by destruct (dequeue_n k q2) as [[]| |].
Qed.

Lemma dequeue_n_empty k :
  dequeue_n k (Queue.init (A:=A) None) = Ret (replicate k None, Queue.init None).
Proof.
  induction k as [|k IH]; [done|].
  change (dequeue_n (S k) (Queue.init None))
    with (let* r := dequeue_n k (Queue.init (A:=A) None) in
          Ret (@None A :: fst r, snd r)).
  by rewrite IH.
Qed.

End Facts.

(** X5: a queue is first in, first out.  On a queue whose [size] counts its
    items, after the items of [l] are enqueued in turn, the calls of
    [dequeue] return first what the queue held and then the items of [l], in
    the order they were enqueued; once the queue is empty every further call
    returns [None]; none raises, and the queue ends as a new empty queue. *)
Theorem queue_fifo {A : Type} (q : Queue.t A) (l : list A) (k : nat) :
  wf q ->
  dequeue_n (length (Queue.items q ++ l) + k) (enqueue_all q l)
  = Ret (map Some (Queue.items q ++ l) ++ replicate k None, Queue.init None).
Proof.
  destruct q as [its n]. unfold wf. simpl. intros ->.
  rewrite enqueue_all_mk, <- length_app, dequeue_n_app, dequeue_n_all.
  cbn [bind fst snd]. by rewrite dequeue_n_empty.
Qed.

Lemma queue_fifo_witness :
  wf (Queue.init (Some [1; 2])) /\
  dequeue_n 5 (enqueue_all (Queue.init (Some [1; 2])) [3; 4])
  = Ret ([Some 1; Some 2; Some 3; Some 4; None], Queue.init None).
Proof.
  split; [reflexivity|].
  apply (queue_fifo (Queue.init (Some [1; 2])) [3; 4] 1). reflexivity.
Defined.

(** X6: on a queue whose [size] counts its items, [peek] returns what the
    next [dequeue] returns: the item enqueued first, or [None] for an empty
    queue; neither raises, and [dequeue] leaves the other items in place. *)
Theorem queue_peek_dequeue {A : Type} (q : Queue.t A) :
  wf q ->
  Queue.peek q = Ret (head (Queue.items q)) /\
  exists q', Queue.dequeue q = Ret (head (Queue.items q), q') /\ wf q' /\
             Queue.items q' = tail (Queue.items q).
Proof.
  destruct q as [[|x its] n]; unfold wf, Queue.peek, Queue.dequeue; simpl; intros ->.
  - split; [done|]. by exists (Queue.mk [] 0).
  - split; [done|]. eexists. split; [done|]. split; [|done].
    unfold wf. simpl. lia.
Qed.

Lemma queue_peek_dequeue_witness :
  wf (Queue.init (Some [1; 2; 3])) /\
  Queue.peek (Queue.init (Some [1; 2; 3])) = Ret (Some 1) /\
  exists q', Queue.dequeue (Queue.init (Some [1; 2; 3])) = Ret (Some 1, q') /\ wf q' /\
             Queue.items q' = [2; 3].
Proof.
  split; [reflexivity|].
  apply (queue_peek_dequeue (Queue.init (Some [1; 2; 3]))). reflexivity.
Defined.

(** X7: [reverse] turns a queue round: the items enqueued in the order of
    [l] are then dequeued from the last to the first; reversing twice gives
    the queue back. *)
Theorem queue_reverse {A : Type} (q : Queue.t A) (l : list A) :
  Queue.reverse (Queue.reverse q) = q /\
  dequeue_n (length l) (Queue.reverse (enqueue_all (Queue.init None) l))
  = Ret (map Some (rev l), Queue.init None).
Proof.
  split.
  - destruct q as [its n]. unfold Queue.reverse. simpl. by rewrite rev_involutive.
  - simpl. rewrite enqueue_all_mk. unfold Queue.reverse. simpl.
    rewrite <- (length_rev l) at 1 2. apply dequeue_n_all.
Qed.

End QueueFacts.

Module PQOrderFacts.
Import PriorityQueue PQSpec PQFacts PQOrder.

Section Facts.
Context {A : Type}.
Implicit Types (q : t A) (real : list (prio * slot A)).

(** Where [put] inserts: after every entry that is not after the new one,
    before every entry that is strictly after it. *)
Lemma put_place q lo hi real priority item :
  shape q lo hi real -> ordered (queue_type q) real ->
  exists l, l <= length real /\
    put q priority item
    = Ret (mk (queue_type q)
              (lo :: (take l real ++ (priority, Item item) :: drop l real) ++ [hi])
              (size q + 1)) /\
    Forall (fun e => ple (queue_type q) (fst e) priority = true) (take l real) /\
    Forall (fun e => ple (queue_type q) (fst e) priority = false) (drop l real).
Proof.
  intros Hsh Hs. set (qt := queue_type q) in *.
  destruct (put_shape q lo hi real priority item Hsh) as (l & Hl & Hput & Hlo & Hhi).
  exists l. split; [done|]. split; [done|]. fold qt in Hlo, Hhi.
  unfold ordered in Hs. rewrite <- (take_drop l real) in Hs.
  apply StronglySorted_app in Hs as (Hcross & Hs1 & Hs2).
  split; apply Forall_forall; intros x Hx.
  - destruct Hlo as [->|(e & He & Hple)].
    { rewrite take_0 in Hx. by apply elem_of_nil in Hx. }
    assert (0 < l) as Hl0.
    { destruct l; [|lia]. rewrite take_0 in Hx. by apply elem_of_nil in Hx. }
    replace l with (S (l - 1)) in Hx, Hs1 by lia.
    rewrite (take_S_r _ _ _ He) in Hx, Hs1.
    apply elem_of_app in Hx as [Hx|Hx].
    + apply (ple_trans qt _ (fst e)); [|done].
      apply (StronglySorted_app_1_elem_of _ _ _ _ _ Hs1 Hx). left.
    + apply list_elem_of_singleton in Hx. by subst.
  - destruct Hhi as [->|(e & He & Hple)].
    { rewrite drop_all in Hx. by apply elem_of_nil in Hx. }
    rewrite (drop_S _ _ _ He) in Hx, Hs2.
    apply StronglySorted_cons in Hs2 as [Hall _].
    destruct (ple qt (fst x) priority) eqn:E; [|done].
    apply elem_of_cons in Hx as [->|Hx]; [congruence|].
    rewrite Forall_forall in Hall. specialize (Hall x Hx).
    rewrite (ple_trans qt _ _ _ Hall E) in Hple. done.
Qed.

Lemma ordered_insert qt real priority item l :
  ordered qt real ->
  Forall (fun e => ple qt (fst e) priority = true) (take l real) ->
  Forall (fun e => ple qt (fst e) priority = false) (drop l real) ->
  ordered qt (take l real ++ (priority, Item item) :: drop l real).
Proof.
  unfold ordered. intros Hs Hbefore Hafter.
  rewrite <- (take_drop l real) in Hs.
  apply StronglySorted_app in Hs as (Hcross & Hs1 & Hs2).
  rewrite Forall_forall in Hbefore. rewrite Forall_forall in Hafter.
  apply StronglySorted_app. split; [|split; [done|]].
  - intros x1 x2 Hx1 Hx2. apply elem_of_cons in Hx2 as [->|Hx2]; [|by apply Hcross].
    by apply Hbefore.
  - apply StronglySorted_cons. split; [|done].
    apply Forall_forall. intros x Hx. simpl. apply ple_total. by apply Hafter.
Qed.

Lemma at_priority_insert qt real priority item l p :
  Forall (fun e => ple qt (fst e) priority = false) (drop l real) ->
  at_priority p (take l real ++ (priority, Item item) :: drop l real)
  = at_priority p real ++ at_priority p [(priority, Item item)].
Proof.
  intros Hafter.
  assert (at_priority p real
          = at_priority p (take l real) ++ at_priority p (drop l real)) as ->.
  { unfold at_priority. by rewrite <- filter_app, take_drop. }
  unfold at_priority. rewrite filter_app, !filter_cons, filter_nil. simpl.
  destruct (decide (priority = p)) as [->|Hne]; [|by rewrite app_nil_r].
  assert (filter (fun e : prio * slot A => fst e = p) (drop l real) = []) as ->;
    [|by rewrite app_nil_r].
  induction (drop l real) as [|e r IH]; [done|].
  apply Forall_cons in Hafter as [He Hr].
  rewrite filter_cons. destruct (decide (fst e = p)) as [E|E]; [|by apply IH].
  by rewrite E, ple_refl in He.
Qed.

Lemma put_all_ordered : forall (l : list (prio * A)) q lo hi real,
  shape q lo hi real -> ordered (queue_type q) real ->
  exists q' real',
    put_all q l = Ret q' /\ shape q' lo hi real' /\
    queue_type q' = queue_type q /\ size q' = size q + length l /\
    ordered (queue_type q) real' /\
    forall p, at_priority p real' = at_priority p real ++ at_priority p (map entry l).
Proof.
  induction l as [|[priority item] l IH]; intros q lo hi real Hsh Hs.
  - exists q, real. simpl. repeat split; try done; try apply Hsh; try lia.
    intros p. unfold at_priority. by rewrite filter_nil, app_nil_r.
  - destruct (put_place q lo hi real priority item Hsh Hs)
      as (k & Hk & Hput & Hbefore & Hafter).
    simpl. rewrite Hput. simpl.
    set (real1 := take k real ++ (priority, Item item) :: drop k real).
    destruct (IH (mk (queue_type q) (lo :: real1 ++ [hi]) (size q + 1)) lo hi real1)
      as (q' & real' & Hall & Hsh' & Hqt & Hsize & Hs' & Hstable).
    + destruct Hsh as [_ Hsize]. split; [done|]. simpl. subst real1.
      rewrite length_app. simpl. rewrite length_take, length_drop. lia.
    + by apply ordered_insert.
    + exists q', real'. simpl in *. repeat split; try done; try apply Hsh'; try lia.
      intros p. rewrite Hstable. subst real1.
      rewrite (at_priority_insert (queue_type q)) by done.
      rewrite <- app_assoc. f_equal.
      change (entry (priority, item) :: map entry l)
        with ([(priority, Item item)] ++ map entry l).
      unfold at_priority. by rewrite filter_app.
Qed.

End Facts.

Lemma ordered_rev {A : Type} qt (real : list (prio * slot A)) :
  ordered qt real -> ordered (flip qt) (rev real).
Proof.
  unfold ordered. induction 1 as [|x l Hs IH Hall]; simpl; [constructor|].
  apply StronglySorted_app. split; [|split; [done|repeat constructor]].
  intros y z Hy Hz. apply list_elem_of_singleton in Hz as ->.
  rewrite Forall_forall in Hall.
  assert (y ∈ l) as Hyl.
  { by apply list_elem_of_In, in_rev, list_elem_of_In. }
  specialize (Hall y Hyl). revert Hall. unfold ple, flip.
  by destruct (String.eqb qt "max").
Qed.

Lemma sorted_ordered qt (real : list (prio * slot nat)) :
  StronglySorted (comes_before qt) real -> ordered qt real.
Proof.
  unfold ordered. induction 1 as [|x l Hs IH Hall]; constructor; [done|].
  eapply Forall_impl; [done|]. intros y Hy. by apply comes_before_ple.
Qed.

Lemma reverse_shape {A : Type} (q : t A) lo hi real :
  shape q lo hi real -> shape (reverse q) hi lo (rev real).
Proof.
  intros [Hits Hsize]. split; simpl.
  - rewrite Hits. simpl. by rewrite rev_app_distr.
  - by rewrite length_rev.
Qed.

Lemma run_type : forall ops n (q q' : t nat) outs,
  run ops n q = Ret (q', outs) -> queue_type q' = queue_type q.
Proof.
  induction ops as [|[priority|] ops IH]; intros n q q' outs Hrun; simpl in Hrun.
  - by injection Hrun as <- _.
  - unfold put in Hrun.
    destruct (search _ _ _ _ _ _) as [[i j]| |]; simpl in Hrun; [|done..].
    by apply IH in Hrun.
  - unfold get in Hrun. destruct (size q =? 0); simpl in Hrun.
    + destruct (run ops n q) as [[q1 o1]| |] eqn:E; simpl in Hrun; [|done..].
      injection Hrun as <- _. by apply IH in E.
    + destruct (list_pop1 (items q)) as [[x r]| |]; simpl in Hrun; [|done..].
      destruct (run ops n _) as [[q1 o1]| |] eqn:E; simpl in Hrun; [|done..].
      injection Hrun as <- _. by apply IH in E.
Qed.

Lemma run_ordered qt : forall ops n (q : t nat) lo hi real,
  shape q lo hi real -> queue_type q = qt -> ordered qt real ->
  exists q' outs real',
    run ops n q = Ret (q', outs) /\ shape q' lo hi real' /\ ordered qt real'.
Proof.
  induction ops as [|[priority|] ops IH]; intros n q lo hi real Hsh Hqt Hs; simpl.
  - by exists q, [], real.
  - rewrite <- Hqt in Hs.
    destruct (put_place q lo hi real priority n Hsh Hs) as (k & Hk & -> & Hbefore & Hafter).
    simpl. set (real1 := take k real ++ (priority, Item n) :: drop k real).
    destruct (IH (S n) (mk (queue_type q) (lo :: real1 ++ [hi]) (size q + 1)) lo hi real1)
      as (q' & outs & real' & -> & Hsh' & Hs'); [| |by rewrite <- Hqt; apply ordered_insert|].
    + destruct Hsh as [_ Hsize]. split; [done|]. simpl. subst real1.
      rewrite length_app. simpl. rewrite length_take, length_drop. lia.
    + done.
    + by exists q', outs, real'.
  - pose proof (get_shape q lo hi real Hsh) as Hget.
    destruct real as [|x rest]; rewrite Hget; simpl.
    + destruct (IH n q lo hi [] Hsh Hqt Hs) as (q' & outs & real' & -> & Hsh' & Hs').
      by exists q', outs, real'.
    + apply StronglySorted_cons in Hs as [_ Hs].
      destruct (IH n (mk (queue_type q) (lo :: rest ++ [hi]) (size q - 1)) lo hi rest)
        as (q' & outs & real' & -> & Hsh' & Hs'); try done.
      { destruct Hsh as [_ Hsize]. split; [done|]. simpl in *. lia. }
      by exists q', (x :: outs), real'.
Qed.

(** X8: the constructor with a list of (priority, item) pairs, for items of
    any type and any queue type, never raises and returns the stable sort of
    the list between the two dummy entries: as many entries as the list has
    pairs, in the order of the queue type, and among the entries of one
    priority the order that their pairs have in the list. *)
Theorem pq_init_stable {A : Type} (qt : string) (l : list (prio * A)) :
  exists q lo hi real,
    init (Some l) qt = Ret q /\ queue_type q = qt /\ size q = length l /\
    sentinels qt = [lo; hi] /\ items q = lo :: real ++ [hi] /\
    length real = length l /\ ordered qt real /\
    forall p, at_priority p real = at_priority p (map entry l).
Proof.
  destruct (init_shape (A:=A) qt) as (lo & hi & Hinit & Hsh).
  destruct (put_all_ordered l _ lo hi [] Hsh) as (q & real & Hall & Hsh' & Hqt & Hsize & Hs & Hst).
  { constructor. }
  exists q, lo, hi, real. simpl in *.
  assert (sentinels (A:=A) qt = [lo; hi]) as Hsent.
  { unfold init in Hinit. by injection Hinit. }
  repeat split; try done; try apply Hsh'.
  - by rewrite Hsent.
  - destruct Hsh' as [_ <-]. done.
Qed.

(** X9: [reverse] changes a queue of one type into a queue of the other type
    that hands out the same entries in the opposite order, so that equal
    priorities then come out newest first; calls of [put] and [get] made
    after it do not raise and keep the entries in the order of the new
    type. *)
Theorem pq_reverse (qt : string) (ops ops' : list op) :
  exists q0 q outs rest,
    init None qt = Ret q0 /\ run ops 0 q0 = Ret (q, outs) /\
    drain (size q) q = Ret rest /\
    queue_type (reverse q) = flip qt /\
    drain (size (reverse q)) (reverse q) = Ret (rev rest) /\
    exists q' outs' rest',
      run ops' (length (puts_of ops 0)) (reverse q) = Ret (q', outs') /\
      drain (size q') q' = Ret rest' /\ ordered (flip qt) rest'.
Proof.
  destruct (init_shape (A:=nat) qt) as (lo & hi & Hinit & Hsh).
  destruct (PQClaims.run_sorted qt ops 0 _ lo hi [] Hsh eq_refl)
    as (q & outs & rest & Hrun & Hsh' & Hs & Hperm); [constructor|constructor|].
  assert (queue_type q = qt) as Hqt by apply (run_type _ _ _ _ _ Hrun).
  pose proof (reverse_shape q lo hi rest Hsh') as Hrev.
  assert (size q = length rest) as Hsize by apply Hsh'.
  destruct (run_ordered (flip qt) ops' (length (puts_of ops 0)) (reverse q) hi lo (rev rest))
    as (q' & outs' & rest' & Hrun' & Hsh'' & Hs'); [done|by simpl; rewrite Hqt| |].
  { by apply ordered_rev, sorted_ordered. }
  exists (mk qt [lo; hi] 0), q, outs, rest.
  split; [done|]. split; [done|].
  split; [apply (PQClaims.drain_shape rest _ q lo hi Hsh'); lia|].
  split; [by simpl; rewrite Hqt|].
  split; [apply (PQClaims.drain_shape (rev rest) _ _ hi lo Hrev); simpl; rewrite length_rev; lia|].
  exists q', outs', rest'. split; [done|]. split; [|done].
  apply (PQClaims.drain_shape rest' _ q' hi lo Hsh''). destruct Hsh'' as [_ ->]. done.
Qed.

(** X10: after any calls of [put] and [get] on a new queue, [peek] returns
    the entry that the next [get] returns, the first of the entries still to
    come out, or [None] when no entry is left; neither call raises, and
    [get] leaves the other entries in their order. *)
Theorem pq_peek_get (qt : string) (ops : list op) :
  exists q0 q outs rest,
    init None qt = Ret q0 /\ run ops 0 q0 = Ret (q, outs) /\
    drain (size q) q = Ret rest /\
    peek q = Ret (head rest) /\
    exists q', get q = Ret (head rest, q') /\ drain (size q') q' = Ret (tail rest).
Proof.
  destruct (init_shape (A:=nat) qt) as (lo & hi & Hinit & Hsh).
  destruct (PQClaims.run_sorted qt ops 0 _ lo hi [] Hsh eq_refl)
    as (q & outs & rest & Hrun & Hsh' & Hs & Hperm); [constructor|constructor|].
  exists (mk qt [lo; hi] 0), q, outs, rest.
  split; [done|]. split; [done|].
  assert (size q = length rest) as Hsize by apply Hsh'.
  split; [apply (PQClaims.drain_shape rest _ q lo hi Hsh'); lia|].
  pose proof (get_shape q lo hi rest Hsh') as Hget.
  destruct Hsh' as [Hits _]. unfold peek. rewrite Hsize, Hits.
  destruct rest as [|x rest]; simpl.
  - split; [done|]. exists q. split; [done|]. rewrite Hsize. simpl.
    by rewrite Hget.
  - assert (py_get (lo :: x :: rest ++ [hi]) 1 = Ret x) as ->
      by (apply py_get_nonneg; [lia|done]).
    split; [done|]. eexists. split; [done|]. simpl.
    apply (PQClaims.drain_shape rest _ _ lo hi); [|simpl in *; lia].
    split; [done|]. simpl in *. lia.
Qed.

End PQOrderFacts.

Module HeapOrderFacts.
Import BinaryHeap HeapSpec HeapFacts HeapOrder.

Local Arguments Nat.mul : simpl never.

Section Facts.
Context {A : Type} `{PyOrdLaws A}.

Lemma peek_root (h : t A) root :
  size h <> 0 -> items h !! 1 = Some root -> peek h = Ret (Some root).
Proof.
  intros Hsize Hroot. unfold peek.
  destruct (size h =? 0) eqn:E; [by apply Nat.eqb_eq in E|].
  by rewrite (at_index_Some _ _ _ Hroot).
Qed.

Lemma heapify_all (h : t A) :
  shape h ->
  exists h', heapify (size h / 2) h = Ret h' /\ heap_ok h' /\
    heap_type h' = heap_type h /\ size h' = size h /\
    contents h' ≡ₚ contents h.
Proof.
  intros Hsh.
  destruct (heapify_spec (size h / 2) h Hsh) as (h' & Hh & Hsh' & Ht & Hs & Hc & Ho).
  { intros i Hi p c _ Hc. apply lookup_lt_Some in Hc. unfold shape in Hsh. lia. }
  exists h'. split; [done|]. split; [|done]. split; [done|]. by rewrite Ht.
Qed.

End Facts.

(** X11: for items under a strict total order, the calls of [get] that
    empty a heap return all its items, each once, in the order of the heap
    type: no item that comes out later is strictly before one that came out
    earlier.  No call raises, and as many calls as the heap has items are
    enough. *)
Theorem heap_drain_sorted {A : Type} `{PyOrdLaws A} (h : t A) :
  heap_ok h ->
  exists outs, drain (size h) h = Ret outs /\ outs ≡ₚ contents h /\
    StronglySorted (in_turn (heap_type h)) outs.
Proof.
  remember (size h) as n eqn:Hsize. symmetry in Hsize. revert h Hsize.
  induction n as [|n IH]; intros h Hsize [Hsh Hok].
  - exists []. simpl. rewrite (get_empty h Hsize). simpl.
    split; [done|]. split; [|constructor].
    unfold contents. unfold shape in Hsh.
    destruct (items h) as [|z [|]]; simpl in *; try done; lia.
  - destruct (get_spec h Hsh) as (root & h' & Hget & Hroot & Hsh' & Ht & Hs & Hc & Ho);
      [lia|].
    specialize (Ho Hok).
    destruct (IH h') as (outs & Hdrain & Hperm & Hsorted); [lia| |].
    { split; [done|]. by rewrite Ht. }
    exists (root :: outs). simpl. rewrite Hget. simpl. rewrite Hdrain. simpl.
    split; [done|]. split; [by rewrite Hc, Hperm|].
    constructor; [by rewrite <- Ht|].
    pose proof (root_is_extreme_ok h (conj Hsh Hok)) as Hext.
    unfold root_is_extreme in Hext. rewrite (peek_root h root) in Hext by (done || lia).
    destruct Hext as [_ Hext]. apply Forall_forall. intros x Hx.
    apply Hext. rewrite Hc, <- Hperm. by right.
Qed.

Lemma heap_drain_sorted_witness :
  heap_ok (mk "min" [0; 1; 3; 2]%Z 3) /\
  exists outs, drain 3 (mk "min" [0; 1; 3; 2]%Z 3) = Ret outs /\
    outs ≡ₚ [1; 3; 2]%Z /\ StronglySorted (in_turn "min") outs.
Proof.
  assert (heap_ok (mk "min" [0; 1; 3; 2]%Z 3)) as Hok.
  { split; [reflexivity|]. intros i Hi p c Hp Hc.
    apply lookup_lt_Some in Hc as Hlt. simpl in Hlt.
    assert (i = 2 \/ i = 3) as [->| ->] by lia;
      vm_compute in Hp, Hc; injection Hp as <-; injection Hc as <-; reflexivity. }
  split; [exact Hok|].
  exact (heap_drain_sorted (H0:=Z_PyOrdLaws) (mk "min" [0; 1; 3; 2]%Z 3) Hok).
Defined.

(** X12: [reverse] on a heap whose [items] has one entry more than [size]
    says, for items under a strict total order, does not raise and returns a
    heap of the other type with the same items and the same size, in which
    the heap property holds: [peek] then returns the maximum where it
    returned the minimum, and the other way round. *)
Theorem heap_reverse {A : Type} `{PyOrdLaws A} (h : t A) :
  shape h ->
  exists h', reverse h = Ret h' /\ heap_ok h' /\
    heap_type h' = PQOrder.flip (heap_type h) /\ size h' = size h /\
    contents h' ≡ₚ contents h /\ root_is_extreme h'.
Proof.
  intros Hsh. unfold reverse.
  destruct (heapify_all (mk (PQOrder.flip (heap_type h)) (items h) (size h)))
    as (h' & Hh & Hok & Ht & Hs & Hc); [done|].
  exists h'. unfold PQOrder.flip in *. simpl in *.
  repeat split; try done; try apply Hok. by apply root_is_extreme_ok.
Qed.

Lemma heap_reverse_witness :
  shape (mk "min" [0; 1; 3; 2]%Z 3) /\
  exists h', reverse (mk "min" [0; 1; 3; 2]%Z 3) = Ret h' /\ heap_ok h' /\
    heap_type h' = "max"%string /\ size h' = 3 /\
    contents h' ≡ₚ [1; 3; 2]%Z /\ root_is_extreme h'.
Proof.
  split; [reflexivity|].
  apply (heap_reverse (H0:=Z_PyOrdLaws) (mk "min" [0; 1; 3; 2]%Z 3)). reflexivity.
Defined.

(** X13: for a parent that has a child, [find_min_max] returns the index of
    one of its children, and no child of the parent is strictly before the
    item there: the smaller child of a min heap, the larger child of a max
    heap, the only child when there is one.  When the list has no entry at
    the index of the right child it returns the index of the left child
    without looking at the list, also when no entry is there either. *)
Theorem find_min_max_child {A : Type} `{PyOrdLaws A}
    (heap_type : string) (its : list A) (idx : nat) :
  1 <= idx ->
  (2 * idx < length its ->
   exists ic c, find_min_max its idx heap_type = Ret ic /\
     (ic = 2 * idx \/ ic = 2 * idx + 1) /\ its !! ic = Some c /\
     forall i o, i = 2 * idx \/ i = 2 * idx + 1 -> its !! i = Some o ->
                 before heap_type o c = false) /\
  (length its <= 2 * idx + 1 -> find_min_max its idx heap_type = Ret (2 * idx)).
Proof.
  intros Hidx. split.
  - intros Hlen.
    destruct (find_min_max_spec heap_type its (length its - 1) idx)
      as (ic & c & Hf & Hc & Hhalf & Hlt & Hall); [lia..|].
    exists ic, c. split; [done|]. split; [lia|]. split; [done|].
    intros i o Hi Ho. apply (Hall i o); [lia|done].
  - intros Hlen. unfold find_min_max.
    destruct (length its - 1 <? 2 * idx + 1) eqn:E; [done|].
    apply Nat.ltb_ge in E. lia.
Qed.

Lemma find_min_max_child_witness :
  (exists ic c, find_min_max [0; 1; 3; 2]%Z 1 "min" = Ret ic /\
     (ic = 2 * 1 \/ ic = 2 * 1 + 1) /\ [0; 1; 3; 2]%Z !! ic = Some c /\
     forall i o, i = 2 * 1 \/ i = 2 * 1 + 1 -> [0; 1; 3; 2]%Z !! i = Some o ->
                 before "min" o c = false) /\
  find_min_max [0; 1; 3; 2]%Z 2 "min" = Ret 4.
Proof.
  split.
  - apply (find_min_max_child (H0:=Z_PyOrdLaws) "min" [0; 1; 3; 2]%Z 1); simpl; lia.
  - apply (find_min_max_child (H0:=Z_PyOrdLaws) "min" [0; 1; 3; 2]%Z 2); simpl; lia.
Defined.

(** X30: on a heap whose [items] has one entry more than [size] says,
    [peek] returns the item that the next [get] returns and removes, the one
    at the root; on an empty heap both return [None] and [get] leaves the
    heap as it is.  Neither raises, and [get] takes one off [size]. *)
Theorem heap_peek_get {A : Type} `{PyOrdLaws A} (h : t A) :
  shape h ->
  exists o h', peek h = Ret o /\ get h = Ret (o, h') /\
    shape h' /\ size h' = size h - 1 /\
    (size h = 0 -> o = None /\ h' = h) /\
    (size h <> 0 -> o = items h !! 1 /\ contents h ≡ₚ from_option (fun x => [x]) [] o ++ contents h').
Proof.
  intros Hsh. destruct (decide (size h = 0)) as [Hz|Hnz].
  - exists None, h. unfold peek. rewrite (get_empty h Hz), Hz. simpl.
    split; [done|]. split; [done|]. split; [done|]. split; [lia|]. done.
  - destruct (get_spec h Hsh Hnz) as (root & h' & Hget & Hroot & Hsh' & _ & Hs & Hc & _).
    exists (Some root), h'. rewrite (peek_root h root Hnz Hroot).
    split; [done|]. split; [done|]. split; [done|]. split; [lia|].
    split; [done|]. intros _. split; [done|]. simpl. done.
Qed.

Lemma heap_peek_get_witness :
  shape (mk "min" [0; 1; 3; 2]%Z 3) /\
  exists o h', peek (mk "min" [0; 1; 3; 2]%Z 3) = Ret o /\
    get (mk "min" [0; 1; 3; 2]%Z 3) = Ret (o, h') /\
    shape h' /\ size h' = 3 - 1 /\
    (3 = 0 -> o = None /\ h' = mk "min" [0; 1; 3; 2]%Z 3) /\
    (3 <> 0 -> o = [0; 1; 3; 2]%Z !! 1 /\
               [1; 3; 2]%Z ≡ₚ from_option (fun x => [x]) [] o ++ contents h').
Proof.
  split; [reflexivity|].
  apply (heap_peek_get (H0:=Z_PyOrdLaws) (mk "min" [0; 1; 3; 2]%Z 3)). reflexivity.
Defined.

End HeapOrderFacts.

(** * Further properties of the grid object *)

Module GridPlacement.
Import GridSearch Search GridSpec GridFacts GridValid GridReach SearchSpec GridBuilt.

(** The last two lookups of [is_valid] and its test on what they find. *)
Local Abbreviation last_test l row col :=
  (bind (py_get l row) (fun x =>
   bind (py_get x col) (fun y =>
   if Ascii.eqb y "*" then Ret false else Ret true))).

Lemma is_valid_same g g' row col :
  bound g' = bound g ->
  last_test (layout g') row col = last_test (layout g) row col ->
  is_valid g' row col = is_valid g row col.
Proof. intros Hb Ht. unfold is_valid. by rewrite Hb, Ht. Qed.

(** One write of a character that is no boundary over a character that is
    no boundary. *)
Lemma write_facts l r c ch old :
  char_at l r c = Some old ->
  exists row, l !! Z.to_nat r = Some row /\ row !! Z.to_nat c = Some old /\
    let l' := <[Z.to_nat r := <[Z.to_nat c := ch]> row]> l in
    layout_set l r c ch = Ret l' /\ length l' = length l /\
    (forall r' c', char_at l' r' c'
       = if decide ((r', c') = (r, c)) then Some ch else char_at l r' c') /\
    (old <> "*"%char -> ch <> "*"%char ->
     forall row' col', last_test l' row' col' = last_test l row' col').
Proof.
  intros Hat.
  destruct (char_at_nonneg _ _ _ _ Hat) as (Hr & Hc & row & Hrow & Hx).
  pose proof (lookup_lt_Some _ _ _ Hrow) as Hrlt.
  pose proof (lookup_lt_Some _ _ _ Hx) as Hclt.
  exists row. split; [done|]. split; [done|]. intros l'.
  split; [|split; [|split]].
  - unfold layout_set.
    assert (py_get l r = Ret row) as -> by (apply py_get_nonneg; [lia|done]).
    simpl. unfold py_set. by rewrite !py_norm_nonneg by lia.
  - subst l'. by rewrite length_insert.
  - intros r' c'. subst l'. unfold char_at.
    destruct ((0 <=? r')%Z && (0 <=? c')%Z) eqn:E.
    + apply andb_true_iff in E as [Er Ec].
      apply Z.leb_le in Er. apply Z.leb_le in Ec.
      destruct (decide (Z.to_nat r' = Z.to_nat r)) as [Enr|Enr].
      * rewrite Enr, list_lookup_insert_eq, Hrow by done.
        destruct (decide (Z.to_nat c' = Z.to_nat c)) as [Enc|Enc].
        -- rewrite Enc, list_lookup_insert_eq by done.
           rewrite decide_True; [done|]. f_equal; lia.
        -- rewrite list_lookup_insert_ne by done.
           rewrite decide_False; [done|]. intros [= -> ->]. done.
      * rewrite list_lookup_insert_ne by done.
        rewrite decide_False; [done|]. intros [= -> ->]. done.
    + rewrite decide_False; [done|]. intros [= -> ->].
      apply andb_false_iff in E as [E|E]; apply Z.leb_gt in E; lia.
  - intros Hold Hch row' col'. subst l'. unfold py_get at 1 3. rewrite length_insert.
    destruct (py_norm (length l) row') as [k|]; [|done].
    destruct (decide (k = Z.to_nat r)) as [->|Hk].
    + rewrite list_lookup_insert_eq, Hrow by done. simpl.
      unfold py_get. rewrite length_insert.
      destruct (py_norm (length row) col') as [j|]; [|done].
      destruct (decide (j = Z.to_nat c)) as [->|Hj].
      * rewrite list_lookup_insert_eq, Hx by done. simpl.
        apply Ascii.eqb_neq in Hold, Hch. by rewrite Hold, Hch.
      * by rewrite list_lookup_insert_ne.
    + by rewrite list_lookup_insert_ne.
Qed.

(** The two writes of [set_start] and of [set_goal]: a blank over the old
    marker [o], the character [m] at the new cell. *)
Lemma move_marker g o row col m :
  consistent g -> marker_ok g o -> is_valid g row col = Ret true -> m <> "*"%char ->
  exists l1 l2,
    match o with
    | Some (r0, c0) => layout_set (layout g) r0 c0 " "
    | None => Ret (layout g)
    end = Ret l1 /\
    layout_set l1 row col m = Ret l2 /\ length l2 = length (layout g) /\
    (forall r c, char_at l2 r c
       = if decide ((r, c) = (row, col)) then Some m
         else if decide (o = Some (r, c)) then Some " "%char
         else char_at (layout g) r c) /\
    (forall r c, last_test l2 r c = last_test (layout g) r c).
Proof.
  intros Hc Ho Hv Hm.
  destruct (region_valid_char g row col Hc Hv) as (old & Hold & Hne).
  assert (exists l1,
            match o with
            | Some (r0, c0) => layout_set (layout g) r0 c0 " "
            | None => Ret (layout g)
            end = Ret l1 /\ length l1 = length (layout g) /\
            (forall r c, char_at l1 r c
               = if decide (o = Some (r, c)) then Some " "%char
                 else char_at (layout g) r c) /\
            (forall r c, last_test l1 r c = last_test (layout g) r c))
    as (l1 & Hl1 & Hlen1 & Hat1 & Ht1).
  { destruct o as [[r0 c0]|].
    - destruct (Ho (r0, c0) eq_refl) as (ch0 & Hch0 & Hne0). simpl in Hch0.
      destruct (write_facts _ _ _ " " ch0 Hch0) as (row0 & _ & _ & Hw).
      destruct Hw as (Hset & Hlen & Hat & Ht). specialize (Ht Hne0 ltac:(done)).
      eexists. split; [done|]. split; [done|]. split; [|done].
      intros r c. rewrite Hat.
      destruct (decide ((r, c) = (r0, c0))) as [[= -> ->]|Hne1].
      + by rewrite decide_True.
      + rewrite decide_False; [done|]. by intros [= -> ->].
    - exists (layout g). split; [done|]. split; [done|]. split; [|done].
      intros r c. by rewrite decide_False. }
  assert (exists old1, char_at l1 row col = Some old1 /\ old1 <> "*"%char)
    as (old1 & Hold1 & Hne1).
  { rewrite Hat1. destruct (decide (o = Some (row, col))); [by eexists|by exists old]. }
  destruct (write_facts l1 row col m old1 Hold1) as (row1 & _ & _ & Hw).
  destruct Hw as (Hset & Hlen & Hat & Ht). specialize (Ht Hne1 Hm).
  exists l1. eexists. split; [done|]. split; [done|].
  split; [by rewrite Hlen|]. split.
  - intros r c. rewrite Hat. destruct (decide ((r, c) = (row, col))); [done|].
    apply Hat1.
  - intros r c. by rewrite Ht, Ht1.
Qed.

Lemma set_start_result g row col :
  well_placed g -> is_valid g row col = Ret true ->
  exists l', length l' = length (layout g) /\
    set_start g row col
    = (Ret tt, mk l' (bound g) (Some (row, col)) (goal g) (offset g) (prob g)
                  (added g) (visited g)) /\
    (forall r c, char_at l' r c
       = if decide ((r, c) = (row, col)) then Some "S"%char
         else if decide (start g = Some (r, c)) then Some " "%char
         else char_at (layout g) r c) /\
    (forall r c, last_test l' r c = last_test (layout g) r c).
Proof.
  intros (Hc & Hs & Hg) Hv.
  destruct (move_marker g (start g) row col "S" Hc Hs Hv) as (l1 & l2 & H1 & H2 & Hlen & Hat & Ht);
    [done|].
  exists l2. split; [done|]. split; [|done].
  unfold set_start. rewrite Hv.
  destruct (start g) as [[r0 c0]|]; [rewrite H1|injection H1 as <-]; simpl; by rewrite H2.
Qed.

Lemma set_goal_result g row col :
  well_placed g -> is_valid g row col = Ret true ->
  exists l', length l' = length (layout g) /\
    set_goal g row col
    = (Ret tt, mk l' (bound g) (start g) (Some (row, col)) (offset g) (prob g)
                  (added g) (visited g)) /\
    (forall r c, char_at l' r c
       = if decide ((r, c) = (row, col)) then Some "G"%char
         else if decide (goal g = Some (r, c)) then Some " "%char
         else char_at (layout g) r c) /\
    (forall r c, last_test l' r c = last_test (layout g) r c).
Proof.
  intros (Hc & Hs & Hg) Hv.
  destruct (move_marker g (goal g) row col "G" Hc Hg Hv) as (l1 & l2 & H1 & H2 & Hlen & Hat & Ht);
    [done|].
  exists l2. split; [done|]. split; [|done].
  unfold set_goal. rewrite Hv.
  destruct (goal g) as [[r0 c0]|]; [rewrite H1|injection H1 as <-]; simpl; by rewrite H2.
Qed.

Lemma obstacle_write g row col ch :
  well_placed g -> is_valid g row col = Ret true -> ch <> "*"%char ->
  exists lrow old, layout g !! Z.to_nat row = Some lrow /\
    lrow !! Z.to_nat col = Some old /\
    let l' := <[Z.to_nat row := <[Z.to_nat col := ch]> lrow]> (layout g) in
    layout_set (layout g) row col ch = Ret l' /\
    (forall r c, char_at l' r c
       = if decide ((r, c) = (row, col)) then Some ch else char_at (layout g) r c) /\
    (forall r c, last_test l' r c = last_test (layout g) r c).
Proof.
  intros (Hc & Hs & Hg) Hv Hch.
  destruct (region_valid_char g row col Hc Hv) as (old & Hold & Hne).
  destruct (write_facts _ _ _ ch old Hold) as (lrow & Hl & Ho & Hw).
  destruct Hw as (Hset & Hlen & Hat & Ht). specialize (Ht Hne Hch).
  by exists lrow, old.
Qed.

Lemma placement_bound g row col :
  bound (snd (set_start g row col)) = bound g /\
  bound (snd (set_goal g row col)) = bound g /\
  bound (snd (add_obstacle g row col)) = bound g /\
  bound (snd (del_obstacle g row col)) = bound g.
Proof.
  unfold set_start, set_goal, add_obstacle, del_obstacle.
  destruct (is_valid g row col) as [[]|e|]; simpl; try done.
  repeat split;
    repeat match goal with
           | |- context [match ?x with _ => _ end] => destruct x; simpl; try done
           end.
Qed.

Lemma search_object a rng fuel g :
  let o := object (search a rng fuel g) in
  layout o = layout g /\ bound o = bound g /\ start o = start g /\ goal o = goal g /\
  offset o = offset g /\ prob o = prob g.
Proof.
  destruct a; simpl; unfold dfs, bfs, A_star, Dijkstra, from_unset_start, finish;
    destruct (start g) as [s|] eqn:Es; simpl; try done.
  - destruct (heuristic (goal g) (Some s)) as [h| |]; simpl; done.
  - destruct (heuristic (goal g) None) as [h| |] eqn:Eh; simpl; done.
Qed.

Lemma loaded_placement g row col :
  loaded g ->
  loaded (snd (set_start g row col)) /\ loaded (snd (set_goal g row col)) /\
  loaded (snd (add_obstacle g row col)) /\ loaded (snd (del_obstacle g row col)).
Proof.
  intros [Hw Hb].
  destruct (placement_bound g row col) as (B1 & B2 & B3 & B4).
  unfold loaded. rewrite B1, B2, B3, B4.
  assert (well_placed (snd (set_start g row col))) as W1.
  { destruct (set_start g row col) as [o g'] eqn:E. by apply (set_start_well_placed g row col o). }
  assert (well_placed (snd (set_goal g row col))) as W2.
  { destruct (set_goal g row col) as [o g'] eqn:E. by apply (set_goal_well_placed g row col o). }
  assert (well_placed (snd (add_obstacle g row col))) as W3.
  { destruct (add_obstacle g row col) as [o g'] eqn:E.
    by apply (add_obstacle_well_placed g row col o). }
  assert (well_placed (snd (del_obstacle g row col))) as W4.
  { destruct (del_obstacle g row col) as [o g'] eqn:E.
    by apply (del_obstacle_well_placed g row col o). }
  done.
Qed.

Lemma loaded_same g g' :
  layout g' = layout g -> bound g' = bound g -> start g' = start g -> goal g' = goal g ->
  loaded g -> loaded g'.
Proof.
  intros Hl Hb Hs Hg [(Hc & Hms & Hmg) Hall].
  unfold loaded, well_placed, consistent, marker_ok. by rewrite Hl, Hb, Hs, Hg.
Qed.

Lemma init_loaded rows g : init rows = Ret g -> loaded g.
Proof.
  intros Hinit. split; [by apply (init_well_placed rows)|].
  unfold init in Hinit.
  destruct (GridClaims.build_bound_outcome rows) as [[_ Hb]|[Hall Hb]];
    rewrite Hb in Hinit; simpl in Hinit; [done|].
  injection Hinit as <-. simpl. apply Forall_map.
  eapply Forall_impl; [done|]. intros row Hrow. simpl.
  unfold stars. by rewrite length_stars_from.
Qed.

Lemma open_grid_loaded : loaded Examples.open_grid.
Proof.
  unfold Examples.open_grid, Examples.place.
  destruct (init (map list_ascii_of_string Examples.open_rows)) as [g0| |] eqn:E;
    [|discriminate E..].
  apply init_loaded in E.
  apply (loaded_same (snd (set_goal (snd (set_start g0 1 1)) 3 3))); try done.
  by apply loaded_placement, loaded_placement.
Qed.

Lemma py_get_raise {A} (l : list A) i e : py_get l i = Raise e -> e = IndexError.
Proof.
  unfold py_get. destruct (py_norm _ _); [destruct (l !! _)|]; by intros [= <-].
Qed.

(** X14: every object that the constructor returns, and every object got
    from one by calls of [set_start], [set_goal], [add_obstacle],
    [del_obstacle], [set_motion] and the searches, whether the calls return
    or raise, keeps the invariant of the class: [bound] lists the boundary
    columns of the rows of [layout], two or more in each row, and the start
    and the goal, when set, are positions of the layout that hold no
    boundary. *)
Theorem built_loaded g : built g -> loaded g.
Proof.
  induction 1 as [rows g Hinit|g row col _ IH|g row col _ IH|g row col _ IH|g row col _ IH
                 |g offs p _ IH|g a rng fuel _ IH].
  - by apply (init_loaded rows).
  - by apply loaded_placement.
  - by apply loaded_placement.
  - by apply loaded_placement.
  - by apply loaded_placement.
  - by apply (loaded_same g).
  - destruct (search_object a rng fuel g) as (Hl & Hb & Hs & Hg & _).
    by apply (loaded_same g).
Qed.

Lemma built_loaded_witness :
  built Examples.open_grid /\ loaded Examples.open_grid.
Proof.
  assert (built Examples.open_grid) as Hb.
  { unfold Examples.open_grid, Examples.place.
    destruct (init (map list_ascii_of_string Examples.open_rows)) as [g0| |] eqn:E;
      [|discriminate E..].
    apply built_set_motion, built_set_goal, built_set_start, (built_init _ _ E). }
  split; [exact Hb|]. exact (built_loaded Examples.open_grid Hb).
Defined.

(** X15: on an object that keeps the invariant of the class, [is_valid]
    answers every query, at any integers, with [True] or [False] or with the
    exit for inconsistent bounds; it raises nothing else, no [IndexError] and
    no [ValueError] in particular. *)
Theorem is_valid_answers g row col :
  loaded g ->
  (exists b, is_valid g row col = Ret b) \/
  is_valid g row col = Raise (SystemExit bounds_msg).
Proof.
  intros [(Hc & _) Hall].
  pose proof (is_valid_verdict g row col Hc) as Hv.
  assert (is_valid g row col <> Raise ValueError) as Hne.
  { unfold is_valid.
    destruct (_ || _); [done|].
    destruct (py_get (bound g) row) as [b|e|] eqn:Eb; simpl; [| |done].
    2: { apply py_get_raise in Eb as ->. done. }
    apply py_get_Ret_lookup in Eb as (n & _ & Hn).
    rewrite Forall_forall in Hall.
    pose proof (Hall b (list_elem_of_lookup_2 _ _ _ Hn)) as Hlen.
    assert (b <> []) as Hb by (intros ->; simpl in Hlen; lia).
    destruct (py_max_nonempty b Hb) as [mx ->].
    destruct (py_min_nonempty b Hb) as [mn ->]. simpl.
    destruct (col >? mx)%Z; [done|]. destruct (col <? mn)%Z; [done|].
    destruct (length (column_from 0 (bound g) col) <=? 1) eqn:El; [done|].
    apply Nat.leb_gt in El.
    destruct (py_max_nonempty (column_from 0 (bound g) col)) as [rmx ->].
    { destruct (column_from 0 (bound g) col); [simpl in El; lia|done]. }
    destruct (py_min_nonempty (column_from 0 (bound g) col)) as [rmn ->].
    { destruct (column_from 0 (bound g) col); [simpl in El; lia|done]. }
    simpl. destruct (row >? rmx)%Z; [done|]. destruct (row <? rmn)%Z; [done|].
    destruct (py_get (layout g) row) as [r|e|] eqn:Er; simpl; [| |done].
    2: { apply py_get_raise in Er as ->. done. }
    destruct (py_get r col) as [ch|e|] eqn:Ech; simpl; [| |done].
    2: { apply py_get_raise in Ech as ->. done. }
    by destruct (Ascii.eqb ch "*"). }
  destruct (is_valid g row col) as [b|e|]; [left; by exists b| |inversion Hv].
  inversion Hv; subst; [done|by right].
Qed.

Lemma is_valid_answers_witness :
  loaded Examples.obstacle_grid /\
  ((exists b, is_valid Examples.obstacle_grid 7 (-3) = Ret b) \/
   is_valid Examples.obstacle_grid 7 (-3) = Raise (SystemExit bounds_msg)).
Proof.
  assert (loaded Examples.obstacle_grid) as Hl.
  { apply (init_loaded Examples.obstacle_rows). reflexivity. }
  split; [exact Hl|]. exact (is_valid_answers Examples.obstacle_grid 7 (-3) Hl).
Defined.

Lemma placement_refused g row col :
  is_valid g row col <> Ret true ->
  snd (set_start g row col) = g /\ snd (set_goal g row col) = g /\
  snd (add_obstacle g row col) = g /\ snd (del_obstacle g row col) = g.
Proof.
  intros Hv. unfold set_start, set_goal, add_obstacle, del_obstacle.
  by destruct (is_valid g row col) as [[]|e|].
Qed.

(** X16: the placement methods never change which cells are valid.  On an
    object that keeps the invariant of the class, after a call of
    [set_start], [set_goal], [add_obstacle] or [del_obstacle] at any cell,
    whether the call returned or raised, [is_valid] gives for every cell the
    answer it gave before the call. *)
Theorem placement_keeps_validity g r c row col :
  loaded g ->
  is_valid (snd (set_start g r c)) row col = is_valid g row col /\
  is_valid (snd (set_goal g r c)) row col = is_valid g row col /\
  is_valid (snd (add_obstacle g r c)) row col = is_valid g row col /\
  is_valid (snd (del_obstacle g r c)) row col = is_valid g row col.
Proof.
  intros [Hw _].
  assert (is_valid g r c = Ret true \/ is_valid g r c <> Ret true) as [Hv|Hv].
  { destruct (is_valid g r c) as [[]|e|]; (by left) || (by right). }
  2: { destruct (placement_refused g r c Hv) as (-> & -> & -> & ->). done. }
  destruct (set_start_result g r c Hw Hv) as (l1 & _ & -> & _ & T1).
  destruct (set_goal_result g r c Hw Hv) as (l2 & _ & -> & _ & T2).
  destruct (obstacle_write g r c "#" Hw Hv) as (? & ? & _ & _ & H3 & _ & T3); [done|].
  destruct (obstacle_write g r c " " Hw Hv) as (? & ? & _ & _ & H4 & _ & T4); [done|].
  unfold add_obstacle, del_obstacle. rewrite Hv, H3, H4. simpl.
  repeat split; apply is_valid_same; simpl; done.
Qed.

Lemma placement_keeps_validity_witness :
  loaded Examples.obstacle_grid /\
  is_valid (snd (set_start Examples.obstacle_grid 1 1)) 1 1
  = is_valid Examples.obstacle_grid 1 1 /\
  is_valid (snd (set_goal Examples.obstacle_grid 1 1)) 1 1
  = is_valid Examples.obstacle_grid 1 1 /\
  is_valid (snd (add_obstacle Examples.obstacle_grid 1 1)) 1 1
  = is_valid Examples.obstacle_grid 1 1 /\
  is_valid (snd (del_obstacle Examples.obstacle_grid 1 1)) 1 1
  = is_valid Examples.obstacle_grid 1 1.
Proof.
  assert (loaded Examples.obstacle_grid) as Hl.
  { apply (init_loaded Examples.obstacle_rows). reflexivity. }
  split; [exact Hl|].
  exact (placement_keeps_validity Examples.obstacle_grid 1 1 1 1 Hl).
Defined.

(** X17: on an object that keeps the invariant of the class, [set_start] at
    a cell for which [is_valid] returns [True] returns normally and moves
    the marker: [start] is the cell, the layout holds ["S"] there and a
    blank at the old start, if there was one elsewhere, and every other
    position of the layout, [bound] and the other attributes are as before.
    Whatever the cell held, an obstacle or the goal marker, is
    overwritten. *)
Theorem set_start_moves_marker g row col :
  loaded g -> is_valid g row col = Ret true ->
  exists l', length l' = length (layout g) /\
    set_start g row col
    = (Ret tt, mk l' (bound g) (Some (row, col)) (goal g) (offset g) (prob g)
                  (added g) (visited g)) /\
    forall r c, char_at l' r c
      = if decide ((r, c) = (row, col)) then Some "S"%char
        else if decide (start g = Some (r, c)) then Some " "%char
        else char_at (layout g) r c.
Proof.
  intros [Hw _] Hv.
  destruct (set_start_result g row col Hw Hv) as (l' & Hlen & Hset & Hat & _).
  by exists l'.
Qed.

Lemma set_start_moves_marker_witness :
  loaded Examples.obstacle_grid /\ is_valid Examples.obstacle_grid 1 1 = Ret true /\
  exists l', length l' = 3 /\
    set_start Examples.obstacle_grid 1 1
    = (Ret tt, mk l' (bound Examples.obstacle_grid) (Some (1, 1)%Z) None None None None None) /\
    forall r c, char_at l' r c
      = if decide ((r, c) = (1, 1)%Z) then Some "S"%char
        else if decide (start Examples.obstacle_grid = Some (r, c)) then Some " "%char
        else char_at (layout Examples.obstacle_grid) r c.
Proof.
  assert (loaded Examples.obstacle_grid) as Hl.
  { apply (init_loaded Examples.obstacle_rows). reflexivity. }
  split; [exact Hl|]. split; [reflexivity|].
  exact (set_start_moves_marker Examples.obstacle_grid 1 1 Hl eq_refl).
Defined.

(** X18: [set_goal] likewise: at a cell for which [is_valid] returns [True]
    it returns normally, [goal] is the cell, the layout holds ["G"] there
    and a blank at the old goal, and nothing else changes. *)
Theorem set_goal_moves_marker g row col :
  loaded g -> is_valid g row col = Ret true ->
  exists l', length l' = length (layout g) /\
    set_goal g row col
    = (Ret tt, mk l' (bound g) (start g) (Some (row, col)) (offset g) (prob g)
                  (added g) (visited g)) /\
    forall r c, char_at l' r c
      = if decide ((r, c) = (row, col)) then Some "G"%char
        else if decide (goal g = Some (r, c)) then Some " "%char
        else char_at (layout g) r c.
Proof.
  intros [Hw _] Hv.
  destruct (set_goal_result g row col Hw Hv) as (l' & Hlen & Hset & Hat & _).
  by exists l'.
Qed.

Lemma set_goal_moves_marker_witness :
  loaded Examples.obstacle_grid /\ is_valid Examples.obstacle_grid 1 1 = Ret true /\
  exists l', length l' = 3 /\
    set_goal Examples.obstacle_grid 1 1
    = (Ret tt, mk l' (bound Examples.obstacle_grid) None (Some (1, 1)%Z) None None None None) /\
    forall r c, char_at l' r c
      = if decide ((r, c) = (1, 1)%Z) then Some "G"%char
        else if decide (goal Examples.obstacle_grid = Some (r, c)) then Some " "%char
        else char_at (layout Examples.obstacle_grid) r c.
Proof.
  assert (loaded Examples.obstacle_grid) as Hl.
  { apply (init_loaded Examples.obstacle_rows). reflexivity. }
  split; [exact Hl|]. split; [reflexivity|].
  exact (set_goal_moves_marker Examples.obstacle_grid 1 1 Hl eq_refl).
Defined.

(** X19: on an object that keeps the invariant of the class, at a cell for
    which [is_valid] returns [True], [add_obstacle] returns normally and
    writes ["#"] at the cell, and [del_obstacle] at the same cell then
    returns normally and writes a blank there; no other position changes.
    When the cell held a blank before, the two calls give back the object
    exactly as it was. *)
Theorem obstacle_round_trip g row col :
  loaded g -> is_valid g row col = Ret true ->
  exists g1 g2,
    add_obstacle g row col = (Ret tt, g1) /\ is_obstacle g1 row col /\
    (forall r c, (r, c) <> (row, col) ->
                 char_at (layout g1) r c = char_at (layout g) r c) /\
    del_obstacle g1 row col = (Ret tt, g2) /\
    char_at (layout g2) row col = Some " "%char /\
    (forall r c, (r, c) <> (row, col) ->
                 char_at (layout g2) r c = char_at (layout g) r c) /\
    (char_at (layout g) row col = Some " "%char -> g2 = g).
Proof.
  intros [Hw _] Hv.
  destruct (obstacle_write g row col "#" Hw Hv) as (lrow & old & Hl & Ho & Hset & Hat & Ht);
    [done|].
  set (l1 := <[Z.to_nat row:=<[Z.to_nat col:="#"%char]> lrow]> (layout g)) in *.
  assert (add_obstacle g row col = (Ret tt, with_layout g l1)) as Hadd.
  { unfold add_obstacle. by rewrite Hv, Hset. }
  assert (well_placed (with_layout g l1)) as Hw1.
  { by apply (add_obstacle_well_placed g row col (Ret tt)). }
  assert (is_valid (with_layout g l1) row col = Ret true) as Hv1.
  { rewrite <- Hv. by apply is_valid_same. }
  destruct (obstacle_write _ row col " " Hw1 Hv1) as (lrow1 & old1 & Hl1 & Ho1 & Hset1 & Hat1 & _);
    [done|].
  simpl in Hl1, Hset1, Hat1.
  pose proof (lookup_lt_Some _ _ _ Hl) as Hrlt.
  assert (lrow1 = <[Z.to_nat col:="#"%char]> lrow) as ->.
  { subst l1. rewrite list_lookup_insert_eq in Hl1 by done. by injection Hl1. }
  subst l1. rewrite !list_insert_insert_eq in Hset1, Hat1.
  set (l2 := <[Z.to_nat row:=<[Z.to_nat col:=" "%char]> lrow]> (layout g)) in *.
  exists (with_layout g (<[Z.to_nat row:=<[Z.to_nat col:="#"%char]> lrow]> (layout g))),
         (with_layout g l2).
  split; [done|]. split; [|split; [|split; [|split; [|split]]]].
  - unfold is_obstacle. simpl. rewrite Hat. by rewrite decide_True.
  - intros r c Hne. simpl. rewrite Hat. by rewrite decide_False.
  - unfold del_obstacle. rewrite Hv1. cbn [layout with_layout]. by rewrite Hset1.
  - simpl. rewrite Hat1. by rewrite decide_True.
  - intros r c Hne. simpl. rewrite Hat1, decide_False by done.
    rewrite Hat. by rewrite decide_False.
  - intros Hblank.
    destruct (char_at_nonneg _ _ _ _ Hblank) as (Hr & Hc & lrow' & Hl' & Hx).
    rewrite Hl in Hl'. injection Hl' as <-.
    subst l2. rewrite (list_insert_id lrow), (list_insert_id (layout g)) by done.
    by destruct g.
Qed.

Lemma obstacle_round_trip_witness :
  loaded Examples.open_grid /\ is_valid Examples.open_grid 2 2 = Ret true /\
  exists g1 g2,
    add_obstacle Examples.open_grid 2 2 = (Ret tt, g1) /\ is_obstacle g1 2 2 /\
    (forall r c, (r, c) <> (2, 2)%Z ->
                 char_at (layout g1) r c = char_at (layout Examples.open_grid) r c) /\
    del_obstacle g1 2 2 = (Ret tt, g2) /\
    char_at (layout g2) 2 2 = Some " "%char /\
    (forall r c, (r, c) <> (2, 2)%Z ->
                 char_at (layout g2) r c = char_at (layout Examples.open_grid) r c) /\
    (char_at (layout Examples.open_grid) 2 2 = Some " "%char -> g2 = Examples.open_grid).
Proof.
  pose proof open_grid_loaded as Hl.
  split; [exact Hl|]. split; [reflexivity|].
  exact (obstacle_round_trip Examples.open_grid 2 2 Hl eq_refl).
Defined.

(** [show]: the writes of the two loops over the inner cells of the path. *)

Lemma layout_set_frame l r c ch old :
  char_at l r c = Some old ->
  exists l', layout_set l r c ch = Ret l' /\ length l' = length l /\
    forall r' c', char_at l' r' c'
      = if decide ((r', c') = (r, c)) then Some ch else char_at l r' c'.
Proof.
  intros Hat. destruct (write_facts l r c ch old Hat) as (row & _ & _ & Hw).
  destruct Hw as (Hset & Hlen & Hframe & _). by eexists.
Qed.

Lemma mark_frame ch : forall cells l,
  Forall (in_bounds l) cells ->
  exists l', mark l cells ch = (Ret tt, l') /\ length l' = length l /\
    forall r c, char_at l' r c
      = if decide ((r, c) ∈ cells) then Some ch else char_at l r c.
Proof.
  induction cells as [|[row col] rest IH]; intros l Hall.
  - exists l. split; [done|]. split; [done|]. intros r c.
    rewrite decide_False; [done|]. apply not_elem_of_nil.
  - apply Forall_cons in Hall as [[old Hold] Hrest]. simpl in Hold.
    destruct (layout_set_frame l row col ch old Hold) as (l1 & Hset & Hlen1 & Hat1).
    destruct (IH l1) as (l' & Hmark & Hlen & Hat).
    { eapply Forall_impl; [done|]. intros [r c] [x Hx]. unfold in_bounds.
      rewrite Hat1. simpl in *. destruct (decide _); [done|by exists x]. }
    exists l'. simpl. rewrite Hset. split; [done|]. split; [lia|].
    intros r c. rewrite Hat, Hat1.
    destruct (decide ((r, c) ∈ rest)) as [Hin|Hin].
    + rewrite decide_True; [done|]. by right.
    + destruct (decide ((r, c) = (row, col))) as [->|Hne].
      * rewrite decide_True; [done|]. by left.
      * rewrite decide_False; [done|]. intros [?|?]%elem_of_cons; done.
Qed.

Lemma layout_ext (l l' : list (list ascii)) :
  length l' = length l ->
  (forall r c, char_at l' r c = char_at l r c) -> l' = l.
Proof.
  intros Hlen Hat. apply list_eq. intros i.
  destruct (l !! i) as [row|] eqn:E.
  - destruct (lookup_lt_is_Some_2 l' i) as [row' E'].
    { rewrite Hlen. by apply lookup_lt_Some in E. }
    rewrite E'. f_equal. apply list_eq. intros j.
    specialize (Hat (Z.of_nat i) (Z.of_nat j)).
    rewrite (char_at_lookup l' _ _ row'), (char_at_lookup l _ _ row) in Hat
      by (try lia; by rewrite Nat2Z.id).
    by rewrite !Nat2Z.id in Hat.
  - apply lookup_ge_None in E. apply lookup_ge_None. lia.
Qed.

(** X20: [show] with a path whose inner cells, all but the first and the
    last, are positions of the layout returns normally; what it prints is
    the layout with [chr(183)] on the inner cells, every character followed
    by a blank and every row by a line feed; it leaves a blank on the inner
    cells and every other position as it was.  The layout is restored
    exactly when the inner cells held blanks; an inner cell that held
    another character has lost it. *)
Theorem show_path g p :
  Forall (in_bounds (layout g)) (inner p) ->
  exists l1 l2,
    show g (Some p) = (Ret tt, render l1, with_layout g l2) /\
    (forall r c, char_at l1 r c
       = if decide ((r, c) ∈ inner p) then Some dot else char_at (layout g) r c) /\
    length l2 = length (layout g) /\
    (forall r c, char_at l2 r c
       = if decide ((r, c) ∈ inner p) then Some " "%char else char_at (layout g) r c) /\
    (l2 = layout g <->
     Forall (fun x => char_at (layout g) (fst x) (snd x) = Some " "%char) (inner p)).
Proof.
  intros Hall.
  destruct (mark_frame dot (inner p) (layout g) Hall) as (l1 & Hm1 & Hlen1 & Hat1).
  destruct (mark_frame " " (inner p) l1) as (l2 & Hm2 & Hlen2 & Hat2).
  { eapply Forall_impl; [done|]. intros [r c] [x Hx]. unfold in_bounds.
    rewrite Hat1. simpl in *. destruct (decide _); [done|by exists x]. }
  assert (forall r c, char_at l2 r c
            = if decide ((r, c) ∈ inner p) then Some " "%char
              else char_at (layout g) r c) as Hat.
  { intros r c. rewrite Hat2, Hat1. by destruct (decide _). }
  exists l1, l2. unfold show. rewrite Hm1, Hm2.
  split; [done|]. split; [done|]. split; [lia|]. split; [done|]. split.
  - intros -> . apply Forall_forall. intros [r c] Hin. simpl.
    specialize (Hat r c). by rewrite decide_True in Hat.
  - intros Hblank. apply layout_ext; [lia|]. intros r c. rewrite Hat.
    destruct (decide ((r, c) ∈ inner p)) as [Hin|]; [|done].
    rewrite Forall_forall in Hblank. symmetry. exact (Hblank (r, c) Hin).
Qed.

Lemma show_path_witness :
  Forall (in_bounds (layout Examples.open_grid)) (inner [(1, 1); (1, 2); (1, 3); (2, 3)]%Z) /\
  exists l1 l2,
    show Examples.open_grid (Some [(1, 1); (1, 2); (1, 3); (2, 3)]%Z)
    = (Ret tt, render l1, with_layout Examples.open_grid l2) /\
    (forall r c, char_at l1 r c
       = if decide ((r, c) ∈ inner [(1, 1); (1, 2); (1, 3); (2, 3)]%Z) then Some dot
         else char_at (layout Examples.open_grid) r c) /\
    length l2 = length (layout Examples.open_grid) /\
    (forall r c, char_at l2 r c
       = if decide ((r, c) ∈ inner [(1, 1); (1, 2); (1, 3); (2, 3)]%Z) then Some " "%char
         else char_at (layout Examples.open_grid) r c) /\
    (l2 = layout Examples.open_grid <->
     Forall (fun x => char_at (layout Examples.open_grid) (fst x) (snd x) = Some " "%char)
            (inner [(1, 1); (1, 2); (1, 3); (2, 3)]%Z)).
Proof.
  assert (Forall (in_bounds (layout Examples.open_grid))
                 (inner [(1, 1); (1, 2); (1, 3); (2, 3)]%Z)) as Hin.
  { repeat constructor; by eexists. }
  split; [exact Hin|].
  exact (show_path Examples.open_grid [(1, 1); (1, 2); (1, 3); (2, 3)]%Z Hin).
Defined.

End GridPlacement.

(** * Further properties of the searches *)

Module PathFacts.
Import GridSearch Search GridSpec SearchSpec FenceSpec SearchFacts FrontierSpec FrontierFacts
  PriorityFrontiers PathSpec.

(** ** The predecessor dictionary as a tree rooted at the start *)

Lemma dict_get_elem {V} (d : dict V) k v : dict_get d k = Some v -> (k, v) ∈ d.
Proof.
  induction d as [|[k' v'] d IH]; simpl; [done|].
  destruct (decide (k' = k)) as [->|]; [intros [= ->]; by left|].
  intros Hd. right. by apply IH.
Qed.

Lemma chain_None d p : chain d None p -> p = [].
Proof. destruct p as [|c r]; [done|]. by intros [? _]. Qed.

Lemma get_path_loop_is_chain d : forall fuel cur acc r,
  get_path_loop fuel d cur acc = Ret r -> exists p, r = acc ++ p /\ chain d cur p.
Proof.
  induction fuel as [|fuel IH]; intros cur acc r; simpl.
  - destruct cur as [c|]; [done|]. intros [= <-]. exists []. by rewrite app_nil_r.
  - destruct cur as [c|]; [|intros [= <-]; exists []; by rewrite app_nil_r].
    destruct (dict_get d c) as [nxt|] eqn:E; [|done].
    intros Hr. destruct (IH _ _ _ Hr) as (p & -> & Hp).
    exists (c :: p). rewrite <- app_assoc. split; [done|]. simpl.
    split; [done|]. by exists nxt.
Qed.

Lemma wf_prev_values s d :
  wf_prev s d -> forall c c2, dict_get d c = Some (Some c2) -> c2 ∈ map fst d.
Proof.
  induction 1 as [|d nb cur Hwf IH Hcur Hnb]; intros c c2; simpl.
  - by destruct (decide (s = c)).
  - destruct (decide (nb = c)) as [->|Hne].
    + intros [= <-]. right. by apply dict_mem_true.
    + intros Hd. right. by apply (IH c).
Qed.

Lemma chain_restrict s d nb v :
  wf_prev s d -> dict_mem d nb = false ->
  forall p c, c ∈ map fst d -> chain ((nb, v) :: d) (Some c) p -> chain d (Some c) p.
Proof.
  intros Hwf Hnb. induction p as [|c' r IH]; intros c Hc; simpl; [done|].
  intros [[= <-] (nxt & Hd & Hr)]. split; [done|].
  apply dict_mem_false in Hnb.
  destruct (decide (nb = c)) as [->|Hne]; [done|].
  exists nxt. split; [done|].
  destruct nxt as [c2|].
  - apply IH; [|done]. by apply (wf_prev_values s d Hwf c).
  - by rewrite (chain_None _ _ Hr).
Qed.

(** The cells that [get_path] meets are keys, all different; the first is
    the cell it starts from and the last is the start of the search. *)
Lemma chain_simple s d :
  wf_prev s d ->
  forall c p, chain d (Some c) p ->
  NoDup p /\ (forall x, x ∈ p -> x ∈ map fst d) /\ head p = Some c /\ last p = Some s.
Proof.
  induction 1 as [|d nb cur Hwf IH Hcur Hnb]; intros c p.
  - destruct p as [|c' r]; simpl; [done|].
    intros [[= <-] (nxt & Hd & Hr)].
    destruct (decide (s = c)) as [->|]; [|done]. injection Hd as <-.
    rewrite (chain_None _ _ Hr). split; [apply NoDup_singleton|].
    split; [|done]. intros x ->%list_elem_of_singleton. by left.
  - destruct p as [|c' r]; [done|].
    intros Hch. pose proof Hch as [[= <-] (nxt & Hd & Hr)]. simpl in Hd.
    destruct (decide (nb = c)) as [->|Hne].
    + injection Hd as <-.
      apply (chain_restrict s d c (Some cur) Hwf Hnb) in Hr; [|by apply dict_mem_true].
      destruct (IH _ _ Hr) as (Hnd & Hkeys & Hhead & Hlast).
      split; [|split; [|split; [done|]]].
      * constructor; [|done]. intros Hin. apply Hkeys in Hin.
        by apply dict_mem_false in Hnb.
      * intros x [->|Hx]%elem_of_cons; [by left|]. right. by apply Hkeys.
      * destruct r as [|c2 r]; [done|]. done.
    + assert (c ∈ map fst d) as Hc by (apply dict_get_is_Some; by eexists).
      apply (chain_restrict s d nb (Some cur) Hwf Hnb _ _ Hc) in Hch.
      destruct (IH _ _ Hch) as (Hnd & Hkeys & Hhead & Hlast).
      split; [done|]. split; [|done]. intros x Hx. right. by apply Hkeys.
Qed.

(** Read backwards, the cells that [get_path] meets make a walk. *)
Lemma chain_walk g d :
  linked g d ->
  forall p c tail, chain d (Some c) p -> walk g c tail ->
  match rev p ++ tail with
  | [] => True
  | a :: rest => walk g a rest
  end.
Proof.
  intros Hl. induction p as [|c' r IH]; intros c tail; simpl; [done|].
  intros [[= <-] (nxt & Hd & Hr)] Hw. rewrite <- app_assoc. simpl.
  destruct nxt as [c1|].
  - apply (IH c1); [done|]. simpl.
    destruct (Hl c c1) as [Hm Hp]; [by apply dict_get_elem|]. done.
  - by rewrite (chain_None _ _ Hr).
Qed.

Lemma walk_reach g : forall rest a,
  reach g a -> walk g a rest -> forall x, x ∈ rest -> reach g x.
Proof.
  induction rest as [|b r IH]; intros a Ha; simpl.
  - intros _ x Hx. by apply elem_of_nil in Hx.
  - intros (Hm & Hp & Hw) x [->|Hx]%elem_of_cons.
    + by apply (reach_move g a).
    + apply (IH b); [by apply (reach_move g a)|done|done].
Qed.

(** Every key of a linked predecessor dictionary can be reached. *)
Lemma keys_reach g s d :
  start g = Some s -> wf_prev s d -> linked g d ->
  forall c, c ∈ map fst d -> reach g c.
Proof.
  intros Hs. induction 1 as [|d nb cur Hwf IH Hcur Hnb]; intros Hl c; simpl.
  - intros ->%list_elem_of_singleton. by apply reach_start.
  - assert (linked g d) as Hl' by (intros x y Hxy; apply Hl; by right).
    intros [->|Hc]%elem_of_cons; [|by apply IH].
    destruct (Hl nb cur) as [Hm Hp]; [by left|].
    apply (reach_move g cur); [|done|done].
    apply IH; [done|]. by apply dict_mem_true.
Qed.

(** ** The loop of a search: links, paths and closure *)

Section EnginePaths.
Context {F G : Type}.
Context (f_is_empty : F -> bool) (f_take : F -> outcome (cell * F))
        (f_add : G -> cell -> cell -> F -> outcome (F * G)).
Context (cells : F -> list cell) (Finv : F -> Prop) (has : G -> cell -> Prop)
        (ready : Prop).
Context (FS : frontier_spec f_is_empty f_take f_add cells Finv has ready).
Context (g : t) (s : cell).

Local Abbreviation binv := (basic_inv cells Finv has g s).
Local Abbreviation visit' := (visit f_add g).
Local Abbreviation expand' := (expand f_add g).
Local Abbreviation loop' := (loop f_is_empty f_take f_add).

Lemma visit_step cur st d r st' :
  binv st -> visit' cur st d = (r, st') ->
  (linked g (previous st) -> linked g (previous st')) /\
  (r = Ret tt -> forall offs o, offset g = Some offs -> offs !! d = Some o ->
     passable g (shift cur o) -> shift cur o ∈ pushes (log st')).
Proof.
  intros HI. unfold visit.
  destruct (offset g) as [offs|] eqn:Eoffs; [|intros [= <- <-]; done].
  destruct (offs !! d) as [[dr dc]|] eqn:Ed; [|intros [= <- <-]; done].
  change ((cur.1 + dr)%Z, (cur.2 + dc)%Z) with (shift cur (dr, dc)).
  set (nb := shift cur (dr, dc)).
  destruct (layout_get (layout g) nb) as [ch| |] eqn:Ech;
    [|intros [= <- <-]; done..].
  destruct (negb (Ascii.eqb ch "#") && negb (Ascii.eqb ch "*")
            && negb (dict_mem (previous st) nb)) eqn:Etest.
  - apply andb_true_iff in Etest as [Hopen Hfresh]. apply negb_true_iff in Hfresh.
    destruct (f_add (costs st) cur nb (frontier st)) as [[f' c']| |] eqn:Eadd;
      [|intros [= <- <-]; done..].
    intros [= <- <-]. simpl. split.
    + intros Hl. rewrite dict_set_fresh by done.
      intros x y [[= -> ->]|Hxy]%elem_of_cons; [|by apply Hl].
      split; [|by exists ch].
      exists offs, (dr, dc). split; [done|]. split; [|done].
      by apply (list_elem_of_lookup_2 _ d).
    + intros _ offs' o [= <-] Ho _. rewrite Ed in Ho. injection Ho as <-. by left.
  - intros [= <- <-]. simpl. split; [done|].
    intros _ offs' o [= <-] Ho (ch' & Hch' & Hopen).
    rewrite Ed in Ho. injection Ho as <-. fold nb in Hch'. rewrite Ech in Hch'. injection Hch' as <-.
    unfold open_char in Hopen. rewrite Hopen in Etest. simpl in Etest.
    apply negb_false_iff in Etest.
    rewrite <- (bi_keys _ _ _ _ _ _ HI). by apply dict_mem_true.
Qed.

Lemma expand_step cur idx st r st' :
  binv st -> cur ∈ pushes (log st) -> expand' cur idx st = (r, st') ->
  (linked g (previous st) -> linked g (previous st')) /\
  (r = Ret tt -> forall d offs o, d ∈ idx -> offset g = Some offs ->
     offs !! d = Some o -> passable g (shift cur o) ->
     shift cur o ∈ pushes (log st')).
Proof.
  revert st. induction idx as [|d idx IH]; intros st HI Hcur; simpl.
  - intros [= <- <-]. split; [done|]. intros _ d offs o Hd. by apply elem_of_nil in Hd.
  - destruct (visit' cur st d) as [r1 st1] eqn:Ev.
    destruct (visit_basic _ _ _ _ _ _ _ FS g s _ _ _ _ _ HI Hcur Ev) as (HI1 & _ & _ & Hs1).
    destruct (visit_step _ _ _ _ _ HI Ev) as [Hl1 Hc1].
    destruct r1 as [[]| |]; [|intros [= <- <-]; done..].
    intros He.
    destruct (expand_basic _ _ _ _ _ _ _ FS g s _ _ _ _ _ HI1 (Hs1 _ Hcur) He)
      as (_ & _ & _ & Hs2).
    destruct (IH st1 HI1 (Hs1 _ Hcur) He) as [Hl2 Hc2].
    split; [by auto|].
    intros Hr d' offs o [->|Hd']%elem_of_cons Hoffs Ho Hp.
    + apply Hs2. by apply (Hc1 eq_refl offs).
    + by apply (Hc2 Hr d' offs).
Qed.

Lemma loop_linked rng fuel : forall tick st r st',
  binv st -> linked g (previous st) -> loop' rng g fuel tick st = (r, st') ->
  linked g (previous st').
Proof.
  induction fuel as [|fuel IH]; intros tick st r st' HI Hl; simpl.
  - destruct (f_is_empty (frontier st)); intros [= <- <-]; done.
  - destruct (f_is_empty (frontier st)) eqn:Eempty; [intros [= <- <-]; done|].
    destruct (fs_take _ _ _ _ _ _ _ FS _ (bi_finv _ _ _ _ _ _ HI) Eempty)
      as (c & f' & -> & Hf' & Hc).
    destruct (popped_was_pushed _ _ _ _ _ _ _ FS g s _ _ _ HI Hc) as (Hin & Hflow & Hlt).
    set (st1 := mkst f' (costs st) (previous st) (n_added st) (n_visited st + 1)
                     (mktrace (reads (log st)) (pushes (log st)) (c :: pops (log st)))).
    assert (binv st1) as HI1.
    { destruct HI. constructor; simpl; try done. lia. }
    destruct (decide (Some c = goal g)); [intros [= <- <-]; done|].
    destruct (order_dir g (rng tick)) as [idx| |]; try (intros [= <- <-]; done).
    destruct (expand' c idx st1) as [r2 st2] eqn:Eexp.
    destruct (expand_basic _ _ _ _ _ _ _ FS g s _ _ _ _ _ HI1 Hin Eexp) as (HI2 & _).
    destruct (expand_step _ _ _ _ _ HI1 Hin Eexp) as [Hl2 _].
    destruct r2 as [[]| |]; try (intros [= <- <-]; by apply Hl2).
    apply IH; [done|by apply Hl2].
Qed.

(** A returned path is what [get_path] made of the final dictionary, after
    the goal was popped. *)
Lemma loop_path rng fuel : forall tick st p st',
  loop' rng g fuel tick st = (Ret (Some p), st') ->
  exists fuel' c, goal g = Some c /\ get_path fuel' g (previous st') = Ret p.
Proof.
  induction fuel as [|fuel IH]; intros tick st p st'; simpl.
  - destruct (f_is_empty (frontier st)); intros [= <-]; done.
  - destruct (f_is_empty (frontier st)); [intros [= <-]; done|].
    destruct (f_take (frontier st)) as [[c f']| |]; [|intros [= <-]; done..].
    destruct (decide (Some c = goal g)) as [Hgoal|].
    + destruct (get_path fuel g _) as [path| |] eqn:Ep; simpl; intros [= <- <-].
      exists fuel, c. by split.
    + destruct (order_dir g (rng tick)) as [idx| |]; [|intros [= <-]; done..].
      destruct (expand f_add g c idx _) as [[[]| |] st2]; [|intros [= <-]; done..].
      apply IH.
Qed.

Lemma order_dir_all rng tick idx offs :
  all_directions g rng -> offset g = Some offs ->
  order_dir g (rng tick) = Ret idx ->
  forall d, d < length offs -> d ∈ idx.
Proof.
  intros Hall Hoffs. unfold order_dir, random_choice. rewrite Hoffs.
  destruct (prob g) as [pr|] eqn:Ep; [destruct (choice_accepts _ pr); [|done]|];
    intros [= <-] d Hd.
  - destruct Hall as [Hnone|Hall]; [congruence|]. by apply (Hall offs).
  - apply elem_of_seq. lia.
Qed.

(** A loop that ends with [None] emptied the frontier, never popped the
    goal, and expanded every cell it popped in all directions. *)
Lemma loop_swept rng fuel : forall tick st st',
  binv st -> closed_inv g st -> all_directions g rng ->
  loop' rng g fuel tick st = (Ret None, st') ->
  closed_inv g st' /\ f_is_empty (frontier st') = true /\
  (forall c, goal g = Some c -> c ∈ pops (log st') -> c ∈ pops (log st)).
Proof.
  induction fuel as [|fuel IH]; intros tick st st' HI Hcl Hall; simpl.
  - destruct (f_is_empty (frontier st)) eqn:Eempty; intros [= <-]; done.
  - destruct (f_is_empty (frontier st)) eqn:Eempty; [intros [= <-]; done|].
    destruct (fs_take _ _ _ _ _ _ _ FS _ (bi_finv _ _ _ _ _ _ HI) Eempty)
      as (c & f' & -> & Hf' & Hc).
    destruct (popped_was_pushed _ _ _ _ _ _ _ FS g s _ _ _ HI Hc) as (Hin & Hflow & Hlt).
    set (st1 := mkst f' (costs st) (previous st) (n_added st) (n_visited st + 1)
                     (mktrace (reads (log st)) (pushes (log st)) (c :: pops (log st)))).
    assert (binv st1) as HI1.
    { destruct HI. constructor; simpl; try done. lia. }
    destruct (decide (Some c = goal g)) as [|Hgoal].
    { destruct (get_path fuel g _); simpl; intros [= <-]. }
    destruct (order_dir g (rng tick)) as [idx| |] eqn:Eidx; [|intros [= <-]; done..].
    destruct (expand' c idx st1) as [r2 st2] eqn:Eexp.
    destruct (expand_basic _ _ _ _ _ _ _ FS g s _ _ _ _ _ HI1 Hin Eexp)
      as (HI2 & _ & Hpops & Hmono).
    destruct (expand_step _ _ _ _ _ HI1 Hin Eexp) as [_ Hexp].
    destruct r2 as [[]| |]; [|intros [= <-]; done..].
    intros Hloop.
    destruct (IH (S tick) st2 st' HI2) as (Hcl' & Hempty & Hpopped); [|done|done|].
    + intros x Hx. rewrite Hpops in Hx. simpl in Hx.
      apply elem_of_cons in Hx as [->|Hx].
      * intros b (offs & dd & Hoffs & Hdd & ->) Hb.
        apply list_elem_of_lookup_1 in Hdd as [i Hi].
        apply (Hexp eq_refl i offs); try done.
        apply (order_dir_all rng tick idx offs); try done.
        by apply lookup_lt_Some in Hi.
      * intros b Hm Hb. apply Hmono. by apply (Hcl x).
    + split; [done|]. split; [done|]. intros t Ht Hin'.
      specialize (Hpopped t Ht Hin'). rewrite Hpops in Hpopped. simpl in Hpopped.
      apply elem_of_cons in Hpopped as [->|]; [|done]. by rewrite Ht in Hgoal.
Qed.

Lemma engine_valid_path rng fuel tick st0 p st :
  start g = Some s -> binv st0 -> linked g (previous st0) ->
  loop' rng g fuel tick st0 = (Ret (Some p), st) -> valid_path g p.
Proof.
  intros Hstart HI Hl Hloop.
  pose proof (loop_inv _ _ _ _ _ _ _ FS g s rng fuel tick st0 _ st HI Hloop) as HI'.
  pose proof (loop_linked rng fuel tick st0 _ st HI Hl Hloop) as Hl'.
  destruct (loop_path rng fuel tick st0 p st Hloop) as (fuel' & c & Hgoal & Hpath).
  unfold get_path in Hpath. rewrite Hgoal in Hpath.
  destruct (get_path_loop fuel' (previous st) (Some c) []) as [path| |] eqn:Ep;
    simpl in Hpath; [|done..].
  injection Hpath as <-.
  destruct (get_path_loop_is_chain _ _ _ _ _ Ep) as (p0 & -> & Hch). simpl.
  destruct (chain_simple s _ (bi_prev _ _ _ _ _ _ HI') c p0 Hch)
    as (Hnd & _ & Hhead & Hlast).
  pose proof (chain_walk g _ Hl' p0 c [] Hch I) as Hw. rewrite app_nil_r in Hw.
  rewrite rev_is_reverse in *.
  split; [by rewrite head_reverse, Hstart|].
  split; [by rewrite last_reverse, Hgoal|].
  split; [by rewrite reverse_Permutation|done].
Qed.

Lemma engine_swept rng fuel st0 st :
  start g = Some s -> binv st0 -> linked g (previous st0) -> pops (log st0) = [] ->
  all_directions g rng ->
  loop' rng g fuel 0 st0 = (Ret None, st) ->
  swept g (finish f_is_empty g (Ret None, st)).
Proof.
  intros Hstart HI Hl Hpops Hall Hloop.
  pose proof (loop_inv _ _ _ _ _ _ _ FS g s rng fuel 0 st0 _ st HI Hloop) as HI'.
  pose proof (loop_linked rng fuel 0 st0 _ st HI Hl Hloop) as Hl'.
  destruct (loop_swept rng fuel 0 st0 st HI) as (Hcl & Hempty & Hgoal); try done.
  { intros c Hc. rewrite Hpops in Hc. by apply elem_of_nil in Hc. }
  destruct HI' as [Hf Hflow Hkeys Hnd Hadd Hvis Hprev _ _].
  apply (fs_empty _ _ _ _ _ _ _ FS _ Hf) in Hempty.
  rewrite Hempty, app_nil_r in Hflow.
  assert (forall c, reach g c -> c ∈ pushes (log st)) as Hreach.
  { induction 1 as [s' Hs'|a b Ha IH Hm Hb].
    - rewrite Hstart in Hs'. injection Hs' as <-.
      rewrite <- Hkeys. by apply (wf_prev_start s).
    - apply (Hcl a); [|done|done]. by rewrite <- Hflow. }
  unfold swept, finish. simpl. split; [|split; [|split]].
  - intros c. split; [by apply Hreach|].
    rewrite <- Hkeys. by apply (keys_reach g s).
  - done.
  - by rewrite Hadd, Hvis, Hflow.
  - intros t Ht Hr. apply Hreach in Hr. rewrite Hflow in Hr.
    specialize (Hgoal t Ht Hr). rewrite Hpops in Hgoal. by apply elem_of_nil in Hgoal.
Qed.

End EnginePaths.

(** ** From the loop to the four searches *)

(** With a start set, a search is the loop run on its frontier from the
    state after the first push; [A_star] without a goal fails in its
    heuristic before that. *)
Lemma search_by_engine (P : report -> Prop) a rng fuel g s :
  start g = Some s ->
  (a = ASTAR -> goal g = None ->
   P (mkreport (Raise TypeError) g [] (mktrace [] [] []) true)) ->
  (forall (F G : Type) (f_is_empty : F -> bool) (f_take : F -> outcome (cell * F))
          (f_add : G -> cell -> cell -> F -> outcome (F * G))
          (cells : F -> list cell) (Finv : F -> Prop) (has : G -> cell -> Prop)
          (ready : Prop) (st0 : state F G),
     frontier_spec f_is_empty f_take f_add cells Finv has ready -> ready ->
     basic_inv cells Finv has g s st0 ->
     previous st0 = [(s, None)] -> log st0 = mktrace [] [s] [] ->
     P (finish f_is_empty g (loop f_is_empty f_take f_add rng g fuel 0 st0))) ->
  P (search a rng fuel g).
Proof.
  intros Hstart Hnone Hrun. destruct a; simpl.
  - unfold dfs. rewrite Hstart.
    apply (Hrun _ _ _ _ _ _ _ _ True _ stack_frontier); try done.
    apply SearchClaims.initial_basic; done.
  - unfold bfs. rewrite Hstart.
    apply (Hrun _ _ _ _ _ _ _ _ True _ queue_frontier); try done.
    apply SearchClaims.initial_basic; done.
  - destruct (goal g) as [[gx gy]|] eqn:Hgoal.
    + assert (is_Some (goal g)) as Hready by (by rewrite Hgoal).
      unfold A_star. rewrite Hstart, Hgoal. destruct s as [sx sy]. simpl.
      apply (Hrun _ _ _ _ _ _ _ _ (is_Some (goal g)) _ (pq_frontier g)); try done.
      apply SearchClaims.initial_basic.
      * eexists _, _, [_]. split; [split; [reflexivity|reflexivity]|].
        split; [reflexivity|]. split; [reflexivity|].
        constructor; [by eexists|constructor].
      * reflexivity.
      * unfold knows. simpl. rewrite decide_True by done. by eexists.
    + unfold A_star. rewrite Hstart, Hgoal. simpl. by apply Hnone.
  - unfold Dijkstra. rewrite Hstart. simpl.
    apply (Hrun _ _ _ _ _ _ _ _ True _ heap_frontier); try done.
    apply SearchClaims.initial_basic; [done|done|]. unfold knows. simpl.
    rewrite decide_True by done. by eexists.
Qed.

Lemma linked_initial g s : linked g [(s, None)].
Proof. intros nb cur Hin. by apply list_elem_of_singleton in Hin. Qed.

(** A search called while [start] is [None] returns a value only in two
    cases: the empty path when the goal is [None] too, and [None] when the
    offsets are an empty list. *)
Lemma unset_start_result a rng fuel g :
  start g = None ->
  forall v, result (search a rng fuel g) = Ret v ->
  a <> ASTAR /\ search a rng fuel g = from_unset_start rng g /\
  ((v = Some [] /\ goal g = None) \/ v = None).
Proof.
  intros Hstart v.
  assert (result (from_unset_start rng g) = Ret v ->
          (v = Some [] /\ goal g = None) \/ v = None) as Hunset.
  { unfold from_unset_start. simpl.
    destruct (goal g) as [t|]; [|intros [= <-]; by left].
    destruct (order_dir g (rng 0)) as [[|d idx]| |]; try done.
    - intros [= <-]. by right.
    - destruct (offset g) as [offs|]; [|done]. by destruct (offs !! d). }
  destruct a; simpl; unfold dfs, bfs, A_star, Dijkstra; rewrite Hstart; try by auto.
  by destruct (goal g) as [[]|].
Qed.

Lemma path_valid a rng fuel g p :
  result (search a rng fuel g) = Ret (Some p) -> valid_path g p.
Proof.
  destruct (start g) as [s|] eqn:Hstart.
  - apply (search_by_engine (fun r => result r = Ret (Some p) -> valid_path g p)
             a rng fuel g s Hstart); [done|].
    intros F G f_is_empty f_take f_add cells Finv has ready st0 FS _ HI Hprev _.
    unfold finish. simpl.
    destruct (loop f_is_empty f_take f_add rng g fuel 0 st0) as [r st] eqn:Eloop.
    simpl. intros ->.
    apply (engine_valid_path _ _ _ _ _ _ _ FS g s rng fuel 0 st0 p st); try done.
    rewrite Hprev. apply linked_initial.
  - intros Hres.
    destruct (unset_start_result a rng fuel g Hstart _ Hres) as (_ & _ & [[[= ->] Hg]|]);
      [|done].
    unfold valid_path. rewrite Hstart, Hg. repeat split. constructor.
Qed.

Lemma none_swept a rng fuel g :
  all_directions g rng -> result (search a rng fuel g) = Ret None ->
  swept g (search a rng fuel g).
Proof.
  intros Hall. destruct (start g) as [s|] eqn:Hstart.
  - apply (search_by_engine (fun r => result r = Ret None -> swept g r)
             a rng fuel g s Hstart); [done|].
    intros F G f_is_empty f_take f_add cells Finv has ready st0 FS _ HI Hprev Hlog.
    destruct (loop f_is_empty f_take f_add rng g fuel 0 st0) as [r st] eqn:Eloop.
    unfold finish at 1. simpl. intros ->.
    apply (engine_swept _ _ _ _ _ _ _ FS g s rng fuel st0 st); try done.
    + rewrite Hprev. apply linked_initial.
    + by rewrite Hlog.
  - intros Hres.
    destruct (unset_start_result a rng fuel g Hstart _ Hres) as (_ & -> & _).
    assert (forall c, ~ reach g c) as Hno.
    { induction 1 as [s' Hs'|]; [congruence|done]. }
    unfold swept, from_unset_start. simpl. split; [|split; [done|split; [done|]]].
    + intros c. split; [by intros ?%Hno|by intros ?%elem_of_nil].
    + intros t _. apply Hno.
Qed.

Lemma search_settled a rng fuel g s :
  start g = Some s -> is_Some (goal g) -> fenced g -> motion_ok g = true ->
  draws_in_range g rng -> search_fuel g <= fuel ->
  settled g (search a rng fuel g).
Proof.
  intros Hstart Hgoal Hfen Hm Hrng Hfuel. destruct a; simpl.
  - by apply (SearchClaims.dfs_report g s rng fuel Hstart).
  - by apply (SearchClaims.bfs_report g s rng fuel Hstart).
  - by apply (SearchClaims.A_star_report g s rng fuel Hstart Hgoal).
  - by apply (SearchClaims.Dijkstra_report g s rng fuel Hstart).
Qed.

Lemma valid_path_reach g p t :
  valid_path g p -> goal g = Some t -> reach g t.
Proof.
  intros (Hhead & Hlast & _ & Hwalk) Hgoal. rewrite Hgoal in Hlast.
  destruct p as [|a rest]; [done|]. simpl in Hhead.
  assert (reach g a) as Ha by (by apply reach_start).
  destruct rest as [|b rest'] using rev_ind.
  - simpl in Hlast. by injection Hlast as <-.
  - rewrite app_comm_cons, last_snoc in Hlast. injection Hlast as <-.
    apply (walk_reach g _ a Ha Hwalk). apply elem_of_app. right. by left.
Qed.

Lemma order_dir_fixed g d d' : prob g = None -> order_dir g d = order_dir g d'.
Proof. intros Hp. unfold order_dir. rewrite Hp. done. Qed.

Lemma loop_fixed {F G : Type} (f_is_empty : F -> bool) (f_take : F -> outcome (cell * F))
    (f_add : G -> cell -> cell -> F -> outcome (F * G)) rng rng' g :
  prob g = None ->
  forall fuel tick tick' st,
    loop f_is_empty f_take f_add rng g fuel tick st
    = loop f_is_empty f_take f_add rng' g fuel tick' st.
Proof.
  intros Hp. induction fuel as [|fuel IH]; intros tick tick' st; simpl; [done|].
  destruct (f_is_empty (frontier st)); [done|].
  destruct (f_take (frontier st)) as [[c f']| |]; [|done..].
  destruct (decide (Some c = goal g)); [done|].
  rewrite (order_dir_fixed g (rng tick) (rng' tick') Hp).
  destruct (order_dir g (rng' tick')) as [idx| |]; [|done..].
  destruct (expand f_add g c idx _) as [[[]| |] st2]; [|done..].
  apply IH.
Qed.

(** X21: whatever the grid, the draws and the fuel, a path that one of the
    four searches returns is a path of the grid: it begins at the start and
    ends at the goal, it visits no cell twice, every cell after the first is
    one offset away from the cell before it, and at every cell after the
    first the layout lookup succeeds and finds neither an obstacle nor a
    boundary. *)
Theorem search_path_valid (a : algorithm) (rng : nat -> list nat) (fuel : nat) (g : t)
    (p : list cell) :
  result (search a rng fuel g) = Ret (Some p) -> valid_path g p.
Proof. apply path_valid. Qed.

Lemma search_path_valid_witness :
  result (search DFS (fun _ => []) 300 Examples.open_grid)
  = Ret (Some [(1, 1); (2, 1); (3, 1); (3, 2); (3, 3)]%Z) /\
  valid_path Examples.open_grid [(1, 1); (2, 1); (3, 1); (3, 2); (3, 3)]%Z.
Proof.
  split; [vm_compute; reflexivity|].
  apply (search_path_valid DFS (fun _ => []) 300 Examples.open_grid).
  vm_compute. reflexivity.
Defined.

(** X22: when every expansion tries all the directions, a search that
    returns [None] has pushed exactly the cells that walks from the start
    reach, each once, and has popped every one of them, so that [visited]
    equals [added]; the goal is not among them: [None] is returned only when
    no walk leads from the start to the goal. *)
Theorem search_none_sweeps (a : algorithm) (rng : nat -> list nat) (fuel : nat) (g : t) :
  all_directions g rng -> result (search a rng fuel g) = Ret None ->
  swept g (search a rng fuel g).
Proof. apply none_swept. Qed.

Lemma search_none_sweeps_witness :
  all_directions Blocked.blocked_grid (fun _ => []) /\
  result (search ASTAR (fun _ => []) 50 Blocked.blocked_grid) = Ret None /\
  swept Blocked.blocked_grid (search ASTAR (fun _ => []) 50 Blocked.blocked_grid).
Proof.
  assert (all_directions Blocked.blocked_grid (fun _ => [])) as Hall by (by left).
  assert (result (search ASTAR (fun _ => []) 50 Blocked.blocked_grid) = Ret None) as Hres
    by (vm_compute; reflexivity).
  split; [exact Hall|]. split; [exact Hres|].
  exact (search_none_sweeps ASTAR (fun _ => []) 50 Blocked.blocked_grid Hall Hres).
Defined.

(** X23: on a fenced grid - every offset leads from every cell that a walk
    from the start reaches to a position of the layout - with the start, the
    goal and the offsets set, probabilities that are absent or that
    [np.random.choice] accepts, directions in range and all tried at every
    expansion, and fuel enough for the grid, each of the four searches
    decides whether the goal can be reached: it returns a path of the grid
    when a walk leads from the start to the goal, and [None] when none
    does. *)
Theorem search_decides_reach (a : algorithm) (rng : nat -> list nat) (fuel : nat) (g : t)
    (t : cell) :
  fenced g -> is_Some (start g) -> goal g = Some t -> motion_ok g = true ->
  draws_in_range g rng -> all_directions g rng -> search_fuel g <= fuel ->
  (exists p, result (search a rng fuel g) = Ret (Some p) /\ valid_path g p /\ reach g t) \/
  (result (search a rng fuel g) = Ret None /\ ~ reach g t).
Proof.
  intros Hfen [s Hstart] Hgoal Hm Hrng Hall Hfuel.
  assert (settled g (search a rng fuel g)) as Hset.
  { apply (search_settled a rng fuel g s); done. }
  unfold settled in Hset.
  destruct (result (search a rng fuel g)) as [[p|]|e|] eqn:Hres; try done.
  - left. exists p. split; [done|].
    pose proof (path_valid a rng fuel g p Hres) as Hvalid.
    split; [done|]. by apply (valid_path_reach g p).
  - right. split; [done|].
    destruct (none_swept a rng fuel g Hall Hres) as (_ & _ & _ & Hno). by apply Hno.
Qed.

Lemma search_decides_reach_witness :
  fenced Examples.chance_grid /\ goal Examples.chance_grid = Some (2, 12)%Z /\
  motion_ok Examples.chance_grid = true /\
  ((exists p, result (search DFS (fun _ => [3; 1; 0; 2]) 1500 Examples.chance_grid)
              = Ret (Some p) /\
              valid_path Examples.chance_grid p /\ reach Examples.chance_grid (2, 12)%Z) \/
   (result (search DFS (fun _ => [3; 1; 0; 2]) 1500 Examples.chance_grid) = Ret None /\
    ~ reach Examples.chance_grid (2, 12)%Z)).
Proof.
  assert (motion_ok Examples.chance_grid = true) as Hm by (vm_compute; reflexivity).
  split; [exact SearchClaims.chance_grid_fenced|]. split; [reflexivity|].
  split; [exact Hm|].
  apply (search_decides_reach DFS (fun _ => [3; 1; 0; 2]) 1500 Examples.chance_grid
           (2, 12)%Z).
  - exact SearchClaims.chance_grid_fenced.
  - by eexists.
  - reflexivity.
  - exact Hm.
  - intros offs [= <-] k. repeat constructor.
  - right. intros offs k d [= <-] Hd. simpl in Hd.
    assert (d = 0 \/ d = 1 \/ d = 2 \/ d = 3) as [->|[->|[->| ->]]] by lia;
      apply list_elem_of_In; simpl; tauto.
  - vm_compute. lia.
Defined.

(** X24: [A_star] and [Dijkstra] keep their counters as [dfs] and [bfs] do.
    With a start set, in what [Dijkstra] leaves, and with a goal set too in
    what [A_star] leaves, whether they return or raise, no cell was pushed
    twice, the keys of the predecessor dictionary are the cells pushed,
    [added] counts the cells pushed and [visited] the cells popped.
    Without a goal [A_star] raises [TypeError] in its heuristic before it
    pushes anything and leaves the object as it was. *)
Theorem astar_dijkstra_counters (rng : nat -> list nat) (fuel : nat) (g : t) :
  is_Some (start g) ->
  counted (Dijkstra rng fuel g) /\
  (is_Some (goal g) -> counted (A_star rng fuel g)) /\
  (goal g = None ->
   result (A_star rng fuel g) = Raise TypeError /\ object (A_star rng fuel g) = g /\
   pushes (events (A_star rng fuel g)) = []).
Proof.
  intros [s Hstart]. split; [|split].
  - by apply (SearchClaims.Dijkstra_report g s rng fuel Hstart).
  - intros Hgoal. by apply (SearchClaims.A_star_report g s rng fuel Hstart Hgoal).
  - intros Hgoal. unfold A_star. rewrite Hgoal. done.
Qed.

Lemma astar_dijkstra_counters_witness :
  is_Some (start Examples.open_grid) /\ is_Some (goal Examples.open_grid) /\
  counted (Dijkstra (fun _ => []) 300 Examples.open_grid) /\
  counted (A_star (fun _ => []) 300 Examples.open_grid).
Proof.
  assert (is_Some (start Examples.open_grid)) as Hs by (by eexists).
  assert (is_Some (goal Examples.open_grid)) as Hg by (by eexists).
  destruct (astar_dijkstra_counters (fun _ => []) 300 Examples.open_grid Hs) as (Hd & Ha & _).
  split; [exact Hs|]. split; [exact Hg|]. split; [exact Hd|exact (Ha Hg)].
Defined.

(** X25: when no probabilities are set, [order_dir] hands out the
    directions in the order of [offset] and the draws play no part: each of
    the four searches gives the same report, result, counters and all,
    whatever the random source would have drawn. *)
Theorem search_ignores_draws (a : algorithm) (rng rng' : nat -> list nat) (fuel : nat)
    (g : t) :
  prob g = None -> search a rng fuel g = search a rng' fuel g.
Proof.
  intros Hp.
  assert (from_unset_start rng g = from_unset_start rng' g) as Hunset.
  { unfold from_unset_start. by rewrite (order_dir_fixed g (rng 0) (rng' 0) Hp). }
  destruct a; simpl; unfold dfs, bfs, A_star, Dijkstra.
  - destruct (start g); [|done]. by rewrite (loop_fixed _ _ _ rng rng' g Hp fuel 0 0).
  - destruct (start g); [|done]. by rewrite (loop_fixed _ _ _ rng rng' g Hp fuel 0 0).
  - destruct (let* pq := _ in _) as [[s pq]| |]; [|done..].
    by rewrite (loop_fixed _ _ _ rng rng' g Hp fuel 0 0).
  - destruct (start g); [|done].
    destruct (let* bh := _ in _) as [bh| |]; [|done..].
    by rewrite (loop_fixed _ _ _ rng rng' g Hp fuel 0 0).
Qed.

Lemma search_ignores_draws_witness :
  prob Examples.open_grid = None /\
  search BFS (fun _ => []) 300 Examples.open_grid
  = search BFS (fun k => [k; 7]) 300 Examples.open_grid.
Proof.
  split; [reflexivity|].
  apply (search_ignores_draws BFS (fun _ => []) (fun k => [k; 7]) 300 Examples.open_grid).
  reflexivity.
Defined.

End PathFacts.

(** * Shortest paths: [bfs] and [Dijkstra] *)

Module ShortestFacts.
Import GridSearch Search GridSpec SearchSpec SearchFacts FrontierSpec FrontierFacts
  PriorityFrontiers PathSpec PathFacts ShortestSpec.

Lemma dep_fresh d nb v c : c <> nb -> dep ((nb, v) :: d) c = dep d c.
Proof. intros Hne. simpl. by rewrite decide_False. Qed.

Lemma dep_start s d : wf_prev s d -> dep d s = 0.
Proof.
  induction 1 as [|d nb cur Hwf IH Hcur Hnb]; simpl.
  - by rewrite decide_True.
  - rewrite decide_False; [done|]. intros ->.
    apply dict_mem_false in Hnb. apply Hnb. by apply (wf_prev_start s).
Qed.

(** The path that [get_path] builds from a key has one cell more than the
    key is deep. *)
Lemma chain_length s d :
  wf_prev s d -> forall c p, chain d (Some c) p -> length p = S (dep d c).
Proof.
  induction 1 as [|d nb cur Hwf IH Hcur Hnb]; intros c p.
  - destruct p as [|c' r]; simpl; [done|].
    intros [[= <-] (nxt & Hd & Hr)].
    destruct (decide (s = c)) as [->|]; [|done]. injection Hd as <-.
    by rewrite (chain_None _ _ Hr).
  - destruct p as [|c' r]; [done|].
    intros Hch. pose proof Hch as [[= <-] (nxt & Hd & Hr)]. simpl in Hd. simpl.
    destruct (decide (nb = c)) as [->|Hne].
    + injection Hd as <-.
      apply (chain_restrict s d c (Some cur) Hwf Hnb) in Hr; [|by apply dict_mem_true].
      by rewrite (IH _ _ Hr).
    + assert (c ∈ map fst d) as Hc by (apply dict_get_is_Some; by eexists).
      apply (chain_restrict s d nb (Some cur) Hwf Hnb _ _ Hc) in Hch.
      by apply (IH _ _ Hch).
Qed.

Lemma walk_snoc g : forall w a y,
  walk g a (w ++ [y]) <->
  walk g a w /\ (exists z, last (a :: w) = Some z /\ move g z y /\ passable g y).
Proof.
  induction w as [|b w IH]; intros a y; simpl.
  - split.
    + intros (Hm & Hp & _). split; [done|]. by exists a.
    + intros (_ & z & [= <-] & Hm & Hp). done.
  - rewrite IH. split.
    + intros (Hm & Hp & Hw & z & Hz & Hzy). split; [done|]. exists z.
      split; [|done]. by destruct w.
    + intros ((Hm & Hp & Hw) & z & Hz & Hzy). split; [done|]. split; [done|].
      split; [done|]. exists z. split; [|done]. by destruct w.
Qed.

Lemma dict_get_set_eq {V} (d : dict V) k v : dict_get (dict_set d k v) k = Some v.
Proof.
  unfold dict_set. destruct (dict_mem d k) eqn:E.
  - apply dict_mem_true in E. induction d as [|[k' v'] d IH]; simpl in *.
    + by apply elem_of_nil in E.
    + destruct (decide (k' = k)) as [->|Hne]; simpl.
      * by rewrite decide_True.
      * rewrite decide_False by done. apply IH.
        apply elem_of_cons in E as [->|E]; done.
  - simpl. by rewrite decide_True.
Qed.

Lemma dict_get_set_ne {V} (d : dict V) k k' v :
  k' <> k -> dict_get (dict_set d k v) k' = dict_get d k'.
Proof.
  intros Hne. unfold dict_set. destruct (dict_mem d k).
  - induction d as [|[k0 v0] d IH]; simpl; [done|].
    destruct (decide (k0 = k)) as [->|Hk]; simpl.
    + by rewrite !decide_False by done.
    + destruct (decide (k0 = k')); [done|]. apply IH.
  - simpl. by rewrite decide_False by done.
Qed.

(** ** The loop of a search that serves the shallowest cell first *)

Section Shortest.
Context {F G : Type}.
Context (f_is_empty : F -> bool) (f_take : F -> outcome (cell * F))
        (f_add : G -> cell -> cell -> F -> outcome (F * G)).
Context (cells : F -> list cell) (Finv : F -> Prop) (has : G -> cell -> Prop)
        (ready : Prop).
Context (FS : frontier_spec f_is_empty f_take f_add cells Finv has ready).
Context (ordered : (cell -> nat) -> list cell -> F -> G -> Prop).
Context (take_min : forall depth known f gv c f',
  Finv f -> ordered depth known f gv -> f_take f = Ret (c, f') ->
  ordered depth known f' gv /\ forall y, y ∈ cells f' -> depth c <= depth y).
Context (add_ordered : forall depth depth' known f gv cur nb f' gv',
  Finv f -> ordered depth known f gv -> f_add gv cur nb f = Ret (f', gv') ->
  cur ∈ known -> nb ∉ known -> (forall y, y ∈ known -> depth' y = depth y) ->
  depth' nb = S (depth cur) -> (forall y, y ∈ cells f -> depth y <= S (depth cur)) ->
  ordered depth' (nb :: known) f' gv').
Context (g : t) (s : cell).

Local Abbreviation binv := (basic_inv cells Finv has g s).
Local Abbreviation linv := (level_inv cells ordered g s).
Local Abbreviation visit' := (visit f_add g).
Local Abbreviation expand' := (expand f_add g).
Local Abbreviation loop' := (loop f_is_empty f_take f_add).

Lemma level_inv_note_read k cur st c : linv k cur st -> linv k cur (note_read st c).
Proof. intros []. by constructor. Qed.

(** The end of a walk with fewer moves than the level was popped, and is
    not the cell being expanded. *)
Lemma short_popped k cur st :
  binv st -> linv k (Some cur) st ->
  forall w y, walk g s w -> last (s :: w) = Some y -> length w < k ->
  y ∈ pops (log st) /\ y <> cur.
Proof.
  intros HI HL.
  assert (forall y, y ∈ pushes (log st) -> dep (previous st) y < k ->
                    y ∈ pops (log st) /\ y <> cur) as Hshallow.
  { intros y Hy Hlt. split.
    - rewrite (bi_flow _ _ _ _ _ _ HI) in Hy. apply elem_of_app in Hy as [Hy|Hy]; [done|].
      destruct (li_band _ _ _ _ _ _ _ HL y Hy). lia.
    - intros ->. rewrite (li_cur _ _ _ _ _ _ _ HL cur eq_refl) in Hlt. lia. }
  induction w as [|y' w IH] using rev_ind; intros y Hw Hlast Hlen.
  - simpl in Hlast. injection Hlast as <-. apply Hshallow.
    + rewrite <- (bi_keys _ _ _ _ _ _ HI). apply (wf_prev_start s), (bi_prev _ _ _ _ _ _ HI).
    + rewrite (dep_start s); [done|]. apply (bi_prev _ _ _ _ _ _ HI).
  - rewrite app_comm_cons, last_snoc in Hlast. injection Hlast as ->.
    pose proof Hw as Hw0.
    apply walk_snoc in Hw as (Hw & z & Hz & Hm & Hp).
    rewrite length_app in Hlen. simpl in Hlen.
    destruct (IH z Hw Hz ltac:(lia)) as [Hzp Hzc].
    assert (y ∈ pushes (log st)) as Hy.
    { apply (li_closed _ _ _ _ _ _ _ HL z Hzp); [congruence|done|done]. }
    apply Hshallow; [done|].
    pose proof (li_short _ _ _ _ _ _ _ HL y (w ++ [y]) Hy Hw0) as Hs.
    rewrite app_comm_cons, last_snoc, length_app in Hs. simpl in Hs.
    specialize (Hs eq_refl). lia.
Qed.

Lemma visit_level k cur st d r st' :
  binv st -> linv k (Some cur) st -> cur ∈ pushes (log st) ->
  visit' cur st d = (r, st') -> linv k (Some cur) st'.
Proof.
  intros HI HL Hcur. unfold visit.
  destruct (offset g) as [offs|] eqn:Eoffs; [|intros [= <- <-]; done].
  destruct (offs !! d) as [[dr dc]|] eqn:Ed; [|intros [= <- <-]; done].
  change ((cur.1 + dr)%Z, (cur.2 + dc)%Z) with (shift cur (dr, dc)).
  set (nb := shift cur (dr, dc)).
  destruct (layout_get (layout g) nb) as [ch| |] eqn:Ech;
    [|intros [= <- <-]; by apply level_inv_note_read..].
  destruct (negb (Ascii.eqb ch "#") && negb (Ascii.eqb ch "*")
            && negb (dict_mem (previous st) nb)) eqn:Etest;
    [|intros [= <- <-]; by apply level_inv_note_read].
  apply andb_true_iff in Etest as [Hopen Hfresh]. apply negb_true_iff in Hfresh.
  destruct (f_add (costs st) cur nb (frontier st)) as [[f' c']| |] eqn:Eadd;
    [|intros [= <- <-]; by apply level_inv_note_read..].
  intros [= <- <-].
  pose proof HI as [Hf Hflow Hkeys Hnd Hadd Hvis Hprev Hcosts Hknown].
  pose proof HL as [Hord Hband Hpops Hcurk Hshort Hclosed].
  destruct (fs_add_ret _ _ _ _ _ _ _ FS _ _ _ _ _ _ Hf Eadd) as (Hf' & Hcells & _ & _).
  assert (nb ∉ pushes (log st)) as Hnotin.
  { rewrite <- Hkeys. by apply dict_mem_false. }
  assert (forall y, y ∈ pushes (log st) ->
            dep ((nb, Some cur) :: previous st) y = dep (previous st) y) as Hsame.
  { intros y Hy. apply dep_fresh. by intros ->. }
  assert (dep ((nb, Some cur) :: previous st) nb = S k) as Hnb.
  { simpl. rewrite decide_True by done. by rewrite (Hcurk cur eq_refl). }
  assert (forall y, y ∈ cells (frontier st) -> y ∈ pushes (log st)) as Hin.
  { intros y Hy. rewrite Hflow. apply elem_of_app. by right. }
  constructor; simpl; try rewrite dict_set_fresh by done.
  - apply (add_ordered (dep (previous st)) _ _ (frontier st) (costs st) cur nb); try done.
    + by rewrite (Hcurk cur eq_refl).
    + intros y Hy. rewrite (Hcurk cur eq_refl). by apply Hband.
  - intros y Hy. rewrite Hcells in Hy. apply elem_of_cons in Hy as [->|Hy].
    + rewrite Hnb. lia.
    + rewrite Hsame by (by apply Hin). by apply Hband.
  - intros x Hx. rewrite Hsame; [by apply Hpops|].
    rewrite Hflow. apply elem_of_app. by left.
  - intros c [= <-]. rewrite Hsame by done. by apply Hcurk.
  - intros c w [->|Hc]%elem_of_cons Hw Hlast.
    + rewrite Hnb. destruct (decide (S k <= length w)) as [|Hlt]; [done|]. exfalso.
      destruct w as [|y w] using rev_ind.
      * simpl in Hlast. injection Hlast as Hs. apply Hnotin.
        rewrite <- Hs, <- Hkeys. by apply (wf_prev_start s).
      * clear IHw. rewrite app_comm_cons, last_snoc in Hlast. injection Hlast as ->.
        apply walk_snoc in Hw as (Hw & z & Hz & Hm & Hp).
        rewrite length_app in Hlt. simpl in Hlt.
        destruct (short_popped k cur st HI HL w z Hw Hz ltac:(lia)) as [Hzp Hzc].
        apply Hnotin. apply (Hclosed z Hzp); [congruence|done|done].
    + rewrite Hsame by done. by apply Hshort.
  - intros x Hx Hne b Hm Hb. right. by apply (Hclosed x).
Qed.

Lemma expand_level k cur idx st r st' :
  binv st -> linv k (Some cur) st -> cur ∈ pushes (log st) ->
  expand' cur idx st = (r, st') -> linv k (Some cur) st'.
Proof.
  revert st. induction idx as [|d idx IH]; intros st HI HL Hcur; simpl.
  - by intros [= <- <-].
  - destruct (visit' cur st d) as [r1 st1] eqn:Ev.
    destruct (visit_basic _ _ _ _ _ _ _ FS g s _ _ _ _ _ HI Hcur Ev) as (HI1 & _ & _ & Hs1).
    pose proof (visit_level _ _ _ _ _ _ HI HL Hcur Ev) as HL1.
    destruct r1 as [[]| |]; [|by intros [= <- <-]..].
    by apply IH; [| |apply Hs1].
Qed.

Lemma loop_level rng fuel : forall tick k st p st',
  binv st -> linv k None st -> all_directions g rng ->
  loop' rng g fuel tick st = (Ret (Some p), st') ->
  short g s (previous st') (pushes (log st')).
Proof.
  induction fuel as [|fuel IH]; intros tick k st p st' HI HL Hall; simpl.
  - destruct (f_is_empty (frontier st)); intros [= <-]; done.
  - destruct (f_is_empty (frontier st)) eqn:Eempty; [intros [= <-]; done|].
    destruct (fs_take _ _ _ _ _ _ _ FS _ (bi_finv _ _ _ _ _ _ HI) Eempty)
      as (c & f' & Htake & Hf' & Hc).
    rewrite Htake.
    destruct (popped_was_pushed _ _ _ _ _ _ _ FS g s _ _ _ HI Hc) as (Hin & Hflow & Hlt).
    set (st1 := mkst f' (costs st) (previous st) (n_added st) (n_visited st + 1)
                     (mktrace (reads (log st)) (pushes (log st)) (c :: pops (log st)))).
    assert (binv st1) as HI1.
    { destruct HI. constructor; simpl; try done. lia. }
    pose proof HL as [Hord Hband Hpops _ Hshort Hclosed].
    destruct (take_min _ _ _ _ _ _ (bi_finv _ _ _ _ _ _ HI) Hord Htake) as [Hord' Hmin].
    assert (c ∈ cells (frontier st)) as Hcf by (rewrite Hc; by left).
    destruct (Hband c Hcf) as [Hk1 Hk2].
    assert (linv (dep (previous st) c) (Some c) st1) as HL1.
    { constructor; simpl; try done.
      - intros y Hy. split; [by apply Hmin|].
        assert (y ∈ cells (frontier st)) as Hyf by (rewrite Hc; by right).
        destruct (Hband y Hyf). lia.
      - intros x [->|Hx]%elem_of_cons; [done|]. specialize (Hpops x Hx). lia.
      - by intros c' [= <-].
      - intros x [->|Hx]%elem_of_cons Hne; [done|]. by apply Hclosed. }
    destruct (decide (Some c = goal g)) as [|Hgoal].
    { destruct (get_path fuel g _); simpl; intros [= <- <-]. done. }
    destruct (order_dir g (rng tick)) as [idx| |] eqn:Eidx; [|intros [= <-]; done..].
    destruct (expand' c idx st1) as [r2 st2] eqn:Eexp.
    destruct (expand_basic _ _ _ _ _ _ _ FS g s _ _ _ _ _ HI1 Hin Eexp)
      as (HI2 & _ & Hpops2 & Hmono).
    pose proof (expand_level _ _ _ _ _ _ HI1 HL1 Hin Eexp) as HL2.
    destruct (expand_step _ _ _ _ _ _ _ FS g s _ _ _ _ _ HI1 Hin Eexp) as [_ Hexp].
    destruct r2 as [[]| |]; [|intros [= <-]; done..].
    apply (IH (S tick) (dep (previous st) c)); [done| |done].
    destruct HL2 as [Hord2 Hband2 Hpopsk Hcur2 Hshort2 Hclosed2].
    constructor; try done.
    intros x Hx _. destruct (decide (x = c)) as [->|Hne].
    + intros b (offs & dd & Hoffs & Hdd & ->) Hb.
      apply list_elem_of_lookup_1 in Hdd as [i Hi].
      apply (Hexp eq_refl i offs); try done.
      apply (order_dir_all g rng tick idx offs); try done.
      by apply lookup_lt_Some in Hi.
    + apply Hclosed2; [done|congruence].
Qed.

(** The path that such a search returns is a shortest one. *)
Lemma engine_shortest rng fuel st0 p st :
  start g = Some s -> binv st0 ->
  previous st0 = [(s, None)] -> log st0 = mktrace [] [s] [] ->
  ordered (dep [(s, None)]) [s] (frontier st0) (costs st0) ->
  all_directions g rng ->
  loop' rng g fuel 0 st0 = (Ret (Some p), st) -> shortest g p.
Proof.
  intros Hstart HI Hprev Hlog Hord Hall Hloop.
  assert (linv 0 None st0) as HL.
  { constructor; rewrite ?Hprev, ?Hlog; simpl; try done.
    - intros y Hy.
      assert (y ∈ pushes (log st0)) as Hy'.
      { rewrite (bi_flow _ _ _ _ _ _ HI). apply elem_of_app. by right. }
      rewrite Hlog in Hy'. apply list_elem_of_singleton in Hy' as ->.
      rewrite decide_True by done. lia.
    - intros x Hx. by apply elem_of_nil in Hx.
    - intros c w Hc%list_elem_of_singleton _ _. subst c. simpl.
      rewrite decide_True by done. lia.
    - intros x Hx. by apply elem_of_nil in Hx. }
  pose proof (loop_level rng fuel 0 0 st0 p st HI HL Hall Hloop) as Hshort.
  pose proof (loop_inv _ _ _ _ _ _ _ FS g s rng fuel 0 st0 _ st HI Hloop) as HI'.
  destruct (loop_path _ _ _ _ _ _ _ FS g rng fuel 0 st0 p st Hloop)
    as (fuel' & c & Hgoal & Hpath).
  unfold get_path in Hpath. rewrite Hgoal in Hpath.
  destruct (get_path_loop fuel' (previous st) (Some c) []) as [path| |] eqn:Ep;
    simpl in Hpath; [|done..].
  injection Hpath as <-.
  destruct (get_path_loop_is_chain _ _ _ _ _ Ep) as (p0 & -> & Hch). simpl.
  pose proof (bi_prev _ _ _ _ _ _ HI') as Hwf.
  destruct (chain_simple s _ Hwf c p0 Hch) as (_ & Hkeys & Hhead & _).
  pose proof (chain_length s _ Hwf c p0 Hch) as Hlen.
  intros s' w Hs' Hw Hlast. rewrite Hstart in Hs'. injection Hs' as <-.
  rewrite length_rev, Hlen. simpl.
  assert (c ∈ pushes (log st)) as Hc.
  { rewrite <- (bi_keys _ _ _ _ _ _ HI'). apply Hkeys.
    destruct p0; [done|]. injection Hhead as ->. by left. }
  rewrite Hgoal in Hlast. specialize (Hshort c w Hc Hw Hlast). lia.
Qed.

End Shortest.

(** ** The queue of [bfs] and the heap of [Dijkstra] serve the shallowest
    cell first *)

Lemma sorted_agree (f f' : cell -> nat) (l : list cell) :
  StronglySorted (fun a b => f a <= f b) l -> (forall y, y ∈ l -> f' y = f y) ->
  StronglySorted (fun a b => f' a <= f' b) l.
Proof.
  induction 1 as [|x l Hs IH Hall]; intros Hagree; constructor.
  - apply IH. intros y Hy. apply Hagree. by right.
  - rewrite Forall_forall in Hall. apply Forall_forall. intros y Hy.
    rewrite (Hagree x), (Hagree y) by (by left || by right). by apply Hall.
Qed.

Lemma queue_take_min depth known (q : Queue.t cell) (gv : unit) c q' :
  queue_inv q -> queue_ordered depth known q gv -> queue_take q = Ret (c, q') ->
  queue_ordered depth known q' gv /\
  forall y, y ∈ Queue.items q' -> depth c <= depth y.
Proof.
  destruct q as [its n]. unfold queue_inv, queue_ordered, queue_take, Queue.dequeue.
  simpl. intros -> [Hin Hs].
  destruct its as [|x l]; simpl; [done|]. intros [= <- <-]. simpl.
  apply StronglySorted_cons in Hs as [Hall Hs]. rewrite Forall_forall in Hall.
  split; [split; [|done]|done]. intros y Hy. apply Hin. by right.
Qed.

Lemma queue_add_ordered depth depth' known (q : Queue.t cell) (gv : unit) cur nb q' gv' :
  queue_inv q -> queue_ordered depth known q gv ->
  queue_add gv cur nb q = Ret (q', gv') ->
  cur ∈ known -> nb ∉ known -> (forall y, y ∈ known -> depth' y = depth y) ->
  depth' nb = S (depth cur) ->
  (forall y, y ∈ Queue.items q -> depth y <= S (depth cur)) ->
  queue_ordered depth' (nb :: known) q' gv'.
Proof.
  intros _ [Hin Hs]. unfold queue_add, Queue.enqueue. intros [= <- <-].
  intros Hcur Hnb Hagree Hdnb Hband. split; simpl.
  - intros y [Hy|Hy]%elem_of_app; [right; by apply Hin|].
    apply list_elem_of_singleton in Hy as ->. by left.
  - apply StronglySorted_app. split; [|split].
    + intros x1 x2 Hx1 Hx2. apply list_elem_of_singleton in Hx2 as ->.
      rewrite Hdnb, (Hagree x1) by (by apply Hin). by apply Hband.
    + apply (sorted_agree depth); [done|]. intros y Hy. by apply Hagree, Hin.
    + repeat constructor.
Qed.

Lemma pair_min (x r : Z * cell) :
  HeapSpec.before "min" x r = false -> (fst r <= fst x)%Z.
Proof.
  unfold HeapSpec.before. simpl. unfold py_lt, pair_PyOrd.
  destruct (decide (fst x = fst r)) as [->|Hne]; [lia|].
  unfold py_lt, Z_PyOrd. intros Hlt%Z.ltb_ge. done.
Qed.

Lemma heap_take_min depth known (h : BinaryHeap.t (Z * cell)) (gv : dict Z) c h' :
  HeapSpec.shape h -> heap_ordered depth known h gv -> heap_take h = Ret (c, h') ->
  heap_ordered depth known h' gv /\
  forall y, y ∈ heap_cells h' -> depth c <= depth y.
Proof.
  intros Hsh (Hok & Hmin & Hent & Hgv). unfold heap_take.
  destruct (decide (BinaryHeap.size h = 0)) as [Hz|Hnz].
  { rewrite (HeapFacts.get_empty h Hz). done. }
  destruct (HeapFacts.get_spec h Hsh Hnz)
    as ([gr cr] & h1 & Hget & Hroot & Hsh1 & Ht1 & Hs1 & Hc & Ho).
  rewrite Hget. simpl. intros [= <- <-].
  pose proof (HeapFacts.root_is_extreme_ok h Hok) as Hext.
  unfold HeapSpec.root_is_extreme in Hext.
  rewrite (HeapOrderFacts.peek_root h (gr, cr)) in Hext by done.
  destruct Hext as [Hrin Hext].
  destruct (Hent gr cr Hrin) as [_ ->].
  assert (forall x c, (x, c) ∈ HeapSpec.contents h1 -> (x, c) ∈ HeapSpec.contents h) as Hsub.
  { intros x c Hx. rewrite Hc. by right. }
  split.
  - split; [|split; [congruence|split; [|done]]].
    + split; [done|]. rewrite Ht1. apply Ho, Hok.
    + intros x c Hx. by apply Hent, Hsub.
  - intros y Hy. unfold heap_cells in Hy.
    apply list_elem_of_fmap in Hy as ([x y'] & -> & Hx). simpl.
    apply Hsub in Hx. destruct (Hent x y' Hx) as [_ ->].
    specialize (Hext _ Hx). rewrite Hmin in Hext. apply pair_min in Hext.
    simpl in Hext. lia.
Qed.

Lemma heap_add_ordered depth depth' known (h : BinaryHeap.t (Z * cell)) (gv : dict Z)
    cur nb h' gv' :
  HeapSpec.shape h -> heap_ordered depth known h gv ->
  heap_add gv cur nb h = Ret (h', gv') ->
  cur ∈ known -> nb ∉ known -> (forall y, y ∈ known -> depth' y = depth y) ->
  depth' nb = S (depth cur) ->
  (forall y, y ∈ heap_cells h -> depth y <= S (depth cur)) ->
  heap_ordered depth' (nb :: known) h' gv'.
Proof.
  intros Hsh (Hok & Hmin & Hent & Hgv). unfold heap_add.
  intros Hadd Hcur Hnb Hagree Hdnb _. rewrite (Hgv cur Hcur) in Hadd.
  destruct (HeapFacts.put_spec h (Z.of_nat (depth cur) + 1, nb)%Z Hsh)
    as (h1 & Hput & Hsh1 & Ht1 & _ & Hc & Ho).
  rewrite Hput in Hadd. simpl in Hadd. injection Hadd as <- <-.
  split; [|split; [congruence|split]].
  - split; [done|]. rewrite Ht1. apply Ho, Hok.
  - intros x c Hx. rewrite Hc in Hx. apply elem_of_cons in Hx as [[= -> ->]|Hx].
    + split; [by left|]. rewrite Hdnb. lia.
    + destruct (Hent x c Hx) as [Hk ->]. split; [by right|]. by rewrite Hagree.
  - intros c [->|Hc']%elem_of_cons.
    + rewrite dict_get_set_eq, Hdnb. f_equal. lia.
    + rewrite dict_get_set_ne by (by intros ->). rewrite Hagree by done. by apply Hgv.
Qed.

(** X26: [bfs] finds a shortest path.  When every expansion tries all the
    directions, a path that [bfs] returns has no more cells than any walk
    from the start to the goal through cells that hold neither an obstacle
    nor a boundary, whatever the grid and the number of iterations
    allowed. *)
Theorem bfs_shortest (rng : nat -> list nat) (fuel : nat) (g : t) (p : list cell) :
  all_directions g rng -> result (bfs rng fuel g) = Ret (Some p) -> shortest g p.
Proof.
  intros Hall. destruct (start g) as [s|] eqn:Hstart.
  - unfold bfs. rewrite Hstart. unfold finish. simpl.
    destruct (loop Queue.is_empty queue_take queue_add rng g fuel 0 _) as [r st] eqn:Eloop.
    simpl. intros ->.
    refine (engine_shortest _ _ _ _ _ _ _ queue_frontier queue_ordered
              queue_take_min queue_add_ordered g s rng fuel _ p st Hstart
              _ _ _ _ Hall Eloop); [|done|done|].
    + apply SearchClaims.initial_basic; done.
    + split; simpl; [|repeat constructor].
      intros y Hy. done.
  - intros Hres s w Hs. congruence.
Qed.

Lemma bfs_shortest_witness :
  all_directions Examples.open_grid (fun _ => []) /\
  result (bfs (fun _ => []) 300 Examples.open_grid)
  = Ret (Some [(1, 1); (1, 2); (1, 3); (2, 3); (3, 3)]%Z) /\
  shortest Examples.open_grid [(1, 1); (1, 2); (1, 3); (2, 3); (3, 3)]%Z.
Proof.
  assert (all_directions Examples.open_grid (fun _ => [])) as Hall by (by left).
  split; [exact Hall|]. split; [vm_compute; reflexivity|].
  apply (bfs_shortest (fun _ => []) 300 Examples.open_grid _ Hall).
  vm_compute. reflexivity.
Defined.

(** X27: [Dijkstra] finds a shortest path too.  Every move costs one, the
    heap hands out a cell of the least cost first, and when every expansion
    tries all the directions a path that [Dijkstra] returns has no more
    cells than any walk from the start to the goal through cells that hold
    neither an obstacle nor a boundary. *)
Theorem dijkstra_shortest (rng : nat -> list nat) (fuel : nat) (g : t) (p : list cell) :
  all_directions g rng -> result (Dijkstra rng fuel g) = Ret (Some p) -> shortest g p.
Proof.
  intros Hall. destruct (start g) as [s|] eqn:Hstart.
  - unfold Dijkstra. rewrite Hstart. simpl. unfold finish. simpl.
    destruct (loop BinaryHeap.is_empty heap_take heap_add rng g fuel 0 _) as [r st] eqn:Eloop.
    simpl. intros ->.
    refine (engine_shortest _ _ _ _ _ _ _ heap_frontier heap_ordered
              heap_take_min heap_add_ordered g s rng fuel _ p st Hstart
              _ _ _ _ Hall Eloop); [|done|done|].
    + apply SearchClaims.initial_basic; [done|done|]. unfold knows. simpl.
      rewrite decide_True by done. by eexists.
    + simpl. split; [|split; [done|split]].
      * split; [done|]. intros i Hi q c _ Hc. simpl in Hc.
        apply lookup_lt_Some in Hc. simpl in Hc. lia.
      * intros x c Hx. unfold HeapSpec.contents in Hx. simpl in Hx.
        apply list_elem_of_singleton in Hx as [= -> ->].
        split; [by left|]. simpl. by rewrite decide_True.
      * intros c Hc%list_elem_of_singleton. subst c. simpl.
        by rewrite !decide_True.
  - intros Hres s w Hs. congruence.
Qed.

Lemma dijkstra_shortest_witness :
  all_directions Examples.open_grid (fun _ => []) /\
  result (Dijkstra (fun _ => []) 300 Examples.open_grid)
  = Ret (Some [(1, 1); (1, 2); (1, 3); (2, 3); (3, 3)]%Z) /\
  shortest Examples.open_grid [(1, 1); (1, 2); (1, 3); (2, 3); (3, 3)]%Z.
Proof.
  assert (all_directions Examples.open_grid (fun _ => [])) as Hall by (by left).
  split; [exact Hall|]. split; [vm_compute; reflexivity|].
  apply (dijkstra_shortest (fun _ => []) 300 Examples.open_grid _ Hall).
  vm_compute. reflexivity.
Defined.

(** X28: [get_path] on a predecessor dictionary in which the start maps to
    [None] and every other key was entered with a predecessor that was a key
    already.  Without a goal it returns the empty list.  With a goal that is
    a key it returns, within as many iterations as the dictionary has keys,
    the list of keys that leads from the start to the goal along the
    predecessors: no key twice, one more than the goal is deep.  With a goal
    that is no key it raises [KeyError]. *)
Theorem get_path_spec (fuel : nat) (g : t) (s : cell) (d : dict (option cell)) :
  wf_prev s d -> length d <= fuel ->
  match goal g with
  | None => get_path fuel g d = Ret []
  | Some c =>
      if dict_mem d c then
        exists p, get_path fuel g d = Ret p /\ head p = Some s /\ last p = Some c /\
                  NoDup p /\ length p = S (dep d c) /\
                  forall x, x ∈ p -> x ∈ map fst d
      else get_path fuel g d = Raise KeyError
  end.
Proof.
  intros Hwf Hfuel. unfold get_path.
  destruct (goal g) as [c|] eqn:Hgoal; [|by destruct fuel].
  destruct (dict_mem d c) eqn:Hmem.
  - apply dict_mem_true in Hmem.
    destruct (get_path_loop_chain s d Hwf c Hmem fuel [] Hfuel) as (p0 & Hp0 & _).
    rewrite Hp0. simpl.
    destruct (get_path_loop_is_chain _ _ _ _ _ Hp0) as (p1 & [= ->] & Hch).
    destruct (chain_simple s d Hwf c p1 Hch) as (Hnd & Hkeys & Hhead & Hlast).
    exists (rev p1). rewrite rev_is_reverse. split; [done|].
    split; [by rewrite head_reverse|]. split; [by rewrite last_reverse|].
    split; [by rewrite reverse_Permutation|].
    split; [rewrite length_reverse; by apply (chain_length s)|].
    intros x Hx. apply Hkeys. by apply elem_of_reverse.
  - assert (dict_get d c = None) as Hnone.
    { unfold dict_mem in Hmem. by destruct (dict_get d c). }
    destruct fuel as [|fuel]; [destruct Hwf; simpl in Hfuel; lia|].
    simpl. by rewrite Hnone.
Qed.

Lemma get_path_spec_witness :
  wf_prev (1, 1)%Z [((3, 3), Some (1, 1)); ((1, 1), None)]%Z /\
  exists p, get_path 3 Examples.open_grid
              [((3, 3), Some (1, 1)); ((1, 1), None)]%Z = Ret p /\
            head p = Some (1, 1)%Z /\ last p = Some (3, 3)%Z /\ NoDup p /\
            length p = S (dep [((3, 3), Some (1, 1)); ((1, 1), None)]%Z (3, 3)%Z) /\
            forall x, x ∈ p -> x ∈ map fst [((3, 3), Some (1, 1)); ((1, 1), None)]%Z.
Proof.
  assert (wf_prev (1, 1)%Z [((3, 3), Some (1, 1)); ((1, 1), None)]%Z) as Hwf
    by (repeat (constructor; try done)).
  split; [exact Hwf|].
  exact (get_path_spec 3 Examples.open_grid (1, 1)%Z _ Hwf ltac:(simpl; lia)).
Defined.

End ShortestFacts.

(** * Obstacles and searches *)

Module ObstacleSearch.
Import GridSearch Search GridSpec SearchSpec SearchFacts GridBuilt GridPlacement
  PathSpec PathFacts.

Lemma walk_passable g : forall rest a b,
  walk g a rest -> b ∈ rest -> passable g b.
Proof.
  induction rest as [|c rest IH]; intros a b; simpl.
  - intros _ Hb. by apply elem_of_nil in Hb.
  - intros (_ & Hp & Hw) [->|Hb]%elem_of_cons; [done|]. by apply (IH c).
Qed.

Lemma passable_char g c ch :
  passable g c -> char_at (layout g) (fst c) (snd c) = Some ch ->
  ch <> "#"%char /\ ch <> "*"%char.
Proof.
  intros (ch' & Hget & Hopen) Hat.
  destruct (layout_get_in_bounds (layout g) c) as (ch2 & Hget2 & Hat2); [by eexists|].
  rewrite Hget in Hget2. injection Hget2 as <-.
  rewrite Hat in Hat2. injection Hat2 as <-.
  unfold open_char in Hopen. apply andb_true_iff in Hopen as [H1 H2].
  apply negb_true_iff in H1, H2. by apply Ascii.eqb_neq in H1, H2.
Qed.

(** X29: an obstacle is never crossed.  On an object that keeps the
    invariant of the class, after [add_obstacle] at a cell for which
    [is_valid] returns [True], no path that one of the four searches returns
    goes through the cell; only the first cell of a path, the start, can be
    the cell of the obstacle.  No returned path goes, after its first cell,
    through a position of the layout that holds ["#"] or ["*"]. *)
Theorem obstacle_blocks (a : algorithm) (rng : nat -> list nat) (fuel : nat) (g : t)
    (row col : Z) (p : list cell) :
  loaded g -> is_valid g row col = Ret true ->
  (result (search a rng fuel (snd (add_obstacle g row col))) = Ret (Some p) ->
   (row, col) ∉ tail p) /\
  (result (search a rng fuel g) = Ret (Some p) ->
   forall c, c ∈ tail p ->
   ~ is_obstacle g (fst c) (snd c) /\ ~ is_boundary g (fst c) (snd c)).
Proof.
  intros [Hw _] Hv.
  assert (forall g' c, result (search a rng fuel g') = Ret (Some p) -> c ∈ tail p ->
            passable g' c) as Hpass.
  { intros g' c Hres Hc. destruct (path_valid a rng fuel g' p Hres) as (_ & _ & _ & Hwalk).
    destruct p as [|a0 rest]; [by apply elem_of_nil in Hc|].
    by apply (walk_passable g' rest a0). }
  split.
  - intros Hres Hin.
    destruct (obstacle_write g row col "#" Hw Hv) as (lrow & old & _ & _ & Hset & Hat & _);
      [done|].
    assert (snd (add_obstacle g row col)
            = with_layout g (<[Z.to_nat row:=<[Z.to_nat col:="#"%char]> lrow]> (layout g)))
      as Hg1 by (unfold add_obstacle; by rewrite Hv, Hset).
    pose proof (Hpass _ _ Hres Hin) as Hp. rewrite Hg1 in Hp.
    destruct (passable_char _ (row, col) "#" Hp) as [Hne _]; [|done].
    simpl. rewrite Hat. by rewrite decide_True.
  - intros Hres c Hc. pose proof (Hpass g c Hres Hc) as Hp.
    split; intros Hat; by destruct (passable_char g c _ Hp Hat).
Qed.

Lemma obstacle_blocks_witness :
  loaded Examples.open_grid /\ is_valid Examples.open_grid 2 2 = Ret true /\
  result (search BFS (fun _ => []) 300 (snd (add_obstacle Examples.open_grid 2 2)))
  = Ret (Some [(1, 1); (1, 2); (1, 3); (2, 3); (3, 3)]%Z) /\
  (2, 2)%Z ∉ tail [(1, 1); (1, 2); (1, 3); (2, 3); (3, 3)]%Z.
Proof.
  pose proof open_grid_loaded as Hl.
  assert (result (search BFS (fun _ => []) 300 (snd (add_obstacle Examples.open_grid 2 2)))
          = Ret (Some [(1, 1); (1, 2); (1, 3); (2, 3); (3, 3)]%Z)) as Hres
    by (vm_compute; reflexivity).
  split; [exact Hl|]. split; [reflexivity|]. split; [exact Hres|].
  exact (proj1 (obstacle_blocks BFS (fun _ => []) 300 Examples.open_grid 2 2
                  [(1, 1); (1, 2); (1, 3); (2, 3); (3, 3)]%Z Hl eq_refl) Hres).
Defined.

End ObstacleSearch.
